(** * mempoor: a priority mempool and deterministic block builder

    A shallow embedding of the Go package [pkg/mempoor] (types.go, tx.go,
    mempool.go, block.go, builder.go, node.go, rpc.go) together with the
    parts of the Go standard library it relies on (container/heap,
    crypto/sha256, strconv, encoding/hex, time formatting, encoding/json
    struct encoding).

    Conventions.
    - [uint64] values are integers in [Z]; every Go addition on them is
      written with its wrap-around ([wrap64]).
    - Go [int] values (slice indices, lengths, [MaxTx], [TxCount]) are
      integers in [Z]; integer division is Go's truncated division
      ([Z.quot]).
    - Go strings are byte strings: [string] (a list of 8-bit [ascii]).
    - A [time.Time] is the instant it denotes, in nanoseconds since the Unix
      epoch; [Equal] and [Before] compare instants.
    - Pointers to heap-allocated [txRecord]s are addresses into an explicit
      store, so that the aliasing between the heap slice and the id table is
      the one of the Go program.

    The file has two parts: the model (definitions only), then the
    properties proved about it. *)

From Stdlib Require Import ZArith Lia Bool.
From stdpp Require Import base option list gmap strings fin_maps sorting.

Local Open Scope Z_scope.

(* ===================================================================== *)
(** * Part I: the model                                                    *)
(* ===================================================================== *)

(** ** Machine integers *)

Definition two64 : Z := 2 ^ 64.

(** Result of a [uint64] operation whose mathematical value is [z]. *)
Definition wrap64 (z : Z) : Z := z mod two64.

(** Result of an [int64] operation whose mathematical value is [z]. *)
Definition wrapInt64 (z : Z) : Z := (z + 2 ^ 63) mod two64 - 2 ^ 63.

Definition is_uint64 (z : Z) : Prop := 0 <= z < two64.

(** Slice indexing by a Go [int]; [None] stands for the runtime panic. *)
Definition zlookup {A} (l : list A) (i : Z) : option A :=
  if i <? 0 then None else l !! Z.to_nat i.

(** ** time.Time *)

Definition Time : Type := Z.

Definition Time_Equal (t u : Time) : bool := t =? u.
Definition Time_Before (t u : Time) : bool := t <? u.

(** [t.UnixNano()]: the instant as an [int64] count of nanoseconds. *)
Definition UnixNano (t : Time) : Z := wrapInt64 t.

(** ** types.go *)

Definition TxID : Type := string.

Record Tx : Type := mkTx {
  ID : TxID;
  Sender : string;
  Recipient : string;
  Fee : Z;
  Gas : Z;
  Payload : string;
  CreatedAt : Time;
  Timestamp : Time
}.

Record BlockHeader : Type := mkBlockHeader {
  Height : Z;
  PrevHash : list Z;
  HeaderTimestamp : Time;
  TxCount : Z;
  HeaderGasUsed : Z
}.

Record Block : Type := mkBlock {
  Header : BlockHeader;
  BlockTransactions : list Tx
}.

Record BlockConstraints : Type := mkBlockConstraints {
  GasLimit : Z;
  MaxTx : Z;
  MinFee : Z
}.

Record BlockSelectionResult : Type := mkBlockSelectionResult {
  Transactions : list Tx;
  GasUsed : Z
}.

Record BlockBuilderConfig : Type := mkBlockBuilderConfig {
  cfgGasLimit : Z;
  cfgMaxTxPerBlock : Z;
  cfgMinFee : Z
}.

Record NodeConfig : Type := mkNodeConfig {
  ListenAddr : string;
  BlockInterval : Z;
  nodeGasLimit : Z;
  nodeMaxTxPerBlock : Z;
  nodeMinFee : Z
}.

Inductive error : Type :=
| ErrTxExists
| ErrTxNotFound
| ErrEmptyBlock.

Definition error_Error (e : error) : string :=
  match e with
  | ErrTxExists => "mempool: tx already exists"
  | ErrTxNotFound => "mempool: tx not found"
  | ErrEmptyBlock => "blockbuilder: no transactions selected"
  end.

(** ** container/heap (Go standard library) *)

Module heap.

(** [heap.Interface]: [sort.Interface] plus [Push] and [Pop]. [Pop] on an
    empty collection indexes out of range; [None] stands for that panic. *)
Class Interface (H X : Type) : Type := {
  Len : H -> Z;
  Less : H -> Z -> Z -> bool;
  Swap : H -> Z -> Z -> H;
  Push : H -> X -> H;
  Pop : H -> option (H * X)
}.

Section Algorithms.
Context {H X : Type} `{!Interface H X}.

(** One turn of the loop of [up] is one unfolding; the loop runs at most
    [j + 1] times because [i < j] after every swap. *)
Fixpoint up_loop (fuel : nat) (h : H) (j : Z) : H :=
  match fuel with
  | O => h
  | S fuel' =>
      let i := Z.quot (j - 1) 2 in
      if (i =? j) || negb (Less h j i) then h
      else up_loop fuel' (Swap h i j) i
  end.

Definition up (h : H) (j : Z) : H := up_loop (S (Z.to_nat j)) h j.

(** The loop of [down]; it returns the final position [i]. *)
Fixpoint down_loop (fuel : nat) (h : H) (i n : Z) : H * Z :=
  match fuel with
  | O => (h, i)
  | S fuel' =>
      let j1 := 2 * i + 1 in
      if (n <=? j1) || (j1 <? 0) then (h, i)
      else
        let j2 := j1 + 1 in
        let j := if (j2 <? n) && Less h j2 j1 then j2 else j1 in
        if negb (Less h j i) then (h, i)
        else down_loop fuel' (Swap h i j) j n
  end.

Definition down (h : H) (i0 n : Z) : H * bool :=
  let '(h', i) := down_loop (S (Z.to_nat (n - i0))) h i0 n in
  (h', i0 <? i).

(** [for i := n/2 - 1; i >= 0; i-- { down(h, i, n) }] *)
Fixpoint init_loop (k : nat) (h : H) (n : Z) : H :=
  match k with
  | O => h
  | S k' => init_loop k' (fst (down h (Z.of_nat k') n)) n
  end.

Definition Init (h : H) : H :=
  let n := Len h in
  init_loop (Z.to_nat (Z.quot n 2)) h n.

Definition HPush (h : H) (x : X) : H :=
  let h := Push h x in
  up h (Len h - 1).

Definition HPop (h : H) : option (H * X) :=
  let n := Len h - 1 in
  let h := Swap h 0 n in
  let h := fst (down h 0 n) in
  Pop h.

Definition Remove (h : H) (i : Z) : option (H * X) :=
  let n := Len h - 1 in
  let h :=
    if negb (n =? i) then
      let h := Swap h i n in
      let '(h, moved) := down h i n in
      if negb moved then up h i else h
    else h in
  Pop h.

Definition Fix (h : H) (i : Z) : H :=
  let '(h', moved) := down h i (Len h) in
  if negb moved then up h' i else h'.

End Algorithms.
End heap.

(** ** mempool.go *)

Definition addr : Type := nat.

(** The heap element wrapping a [Tx]. *)
Record txRecord : Type := mkTxRecord {
  tx : Tx;
  index : Z
}.

(** [txHeap.Less], on the two transactions it reads. *)
Definition txLess (ti tj : Tx) : bool :=
  if negb (Fee ti =? Fee tj) then Fee tj <? Fee ti
  else if negb (Time_Equal (Timestamp ti) (Timestamp tj))
  then Time_Before (Timestamp ti) (Timestamp tj)
  else String.ltb (ID ti) (ID tj).

(** A [txHeap] is a slice of pointers; [recs] is the memory those pointers
    (and the ones kept in the mempool's table) point into. *)
Record txHeap : Type := mkTxHeap {
  recs : gmap addr txRecord;
  elems : list addr
}.

Definition zeroTx : Tx := mkTx "" "" "" 0 0 "" 0 0.

#[global] Instance txRecord_inhabited : Inhabited txRecord :=
  populate (mkTxRecord zeroTx 0).

(** [p.tx] for a pointer [p]. Every pointer the program dereferences is
    allocated (see [mem_ok] below). *)
Definition load (h : txHeap) (p : addr) : txRecord := recs h !!! p.

Definition set_index (i : Z) (r : txRecord) : txRecord :=
  mkTxRecord (tx r) i.

Definition set_tx (t : Tx) (r : txRecord) : txRecord :=
  mkTxRecord t (index r).

Definition txHeap_Len (h : txHeap) : Z := Z.of_nat (length (elems h)).

Definition txHeap_Less (h : txHeap) (i j : Z) : bool :=
  match zlookup (elems h) i, zlookup (elems h) j with
  | Some p, Some q => txLess (tx (load h p)) (tx (load h q))
  | _, _ => false
  end.

Definition txHeap_Swap (h : txHeap) (i j : Z) : txHeap :=
  match zlookup (elems h) i, zlookup (elems h) j with
  | Some p, Some q =>
      (* h[i], h[j] = h[j], h[i]; h[i].index = i; h[j].index = j *)
      {| recs := alter (set_index j) p (alter (set_index i) q (recs h));
         elems := <[Z.to_nat i := q]> (<[Z.to_nat j := p]> (elems h)) |}
  | _, _ => h
  end.

Definition txHeap_Push (h : txHeap) (rec : addr) : txHeap :=
  let n := txHeap_Len h in
  {| recs := alter (set_index n) rec (recs h);
     elems := elems h ++ [rec] |}.

Definition txHeap_Pop (h : txHeap) : option (txHeap * addr) :=
  let old := elems h in
  let n := txHeap_Len h in
  match zlookup old (n - 1) with
  | None => None
  | Some rec =>
      Some ({| recs := alter (set_index (-1)) rec (recs h);
               elems := take (Z.to_nat (n - 1)) old |}, rec)
  end.

#[global] Instance txHeap_Interface : heap.Interface txHeap addr := {|
  heap.Len := txHeap_Len;
  heap.Less := txHeap_Less;
  heap.Swap := txHeap_Swap;
  heap.Push := txHeap_Push;
  heap.Pop := txHeap_Pop
|}.

(** The mempool without its mutex: every method below runs under the
    exclusive lock (or the read lock, for [List]), so a method call is one
    atomic transition. [next] is the allocator's next free address. *)
Record mempool : Type := mkMempool {
  mpheap : txHeap;
  table : gmap TxID addr;
  next : addr
}.

Definition NewMempool : mempool :=
  {| mpheap := heap.Init {| recs := ∅; elems := [] |};
     table := ∅;
     next := 0%nat |}.

Definition Add (m : mempool) (t : Tx) : mempool * option error :=
  match table m !! ID t with
  | Some _ => (m, Some ErrTxExists)
  | None =>
      let rec := next m in
      let h := {| recs := <[rec := mkTxRecord t 0]> (recs (mpheap m));
                  elems := elems (mpheap m) |} in
      ({| mpheap := heap.HPush h rec;
          table := <[ID t := rec]> (table m);
          next := S rec |}, None)
  end.

Definition Update (m : mempool) (t : Tx) : mempool * option error :=
  match table m !! ID t with
  | None => (m, Some ErrTxNotFound)
  | Some rec =>
      let h := {| recs := alter (set_tx t) rec (recs (mpheap m));
                  elems := elems (mpheap m) |} in
      ({| mpheap := heap.Fix h (index (load h rec));
          table := table m;
          next := next m |}, None)
  end.

(** A panic of [heap.Remove] (empty heap) would abort the method; the model
    then leaves the slice as it is. It cannot happen in a state the
    mempool's methods produce ([Remove_no_panic]). *)
Definition Remove (m : mempool) (id : TxID) : mempool * option error :=
  match table m !! id with
  | None => (m, Some ErrTxNotFound)
  | Some rec =>
      let h := match heap.Remove (mpheap m) (index (load (mpheap m) rec)) with
               | Some (h, _) => h
               | None => mpheap m
               end in
      ({| mpheap := h; table := delete id (table m); next := next m |}, None)
  end.

(** State of the selection loop: the mempool, the result so far and the
    records skipped for gas. *)
Record selState : Type := mkSelState {
  sel_mp : mempool;
  sel_result : BlockSelectionResult;
  sel_skipped : list addr
}.

Definition select_cond (c : BlockConstraints) (s : selState) : bool :=
  (Z.of_nat (length (Transactions (sel_result s))) <? MaxTx c)
  && (0 <? heap.Len (mpheap (sel_mp s))).

(** The body of the [for] loop of [SelectTransactions]. *)
Definition select_body (c : BlockConstraints) (s : selState) : selState :=
  let m := sel_mp s in
  let result := sel_result s in
  match heap.HPop (mpheap m) with
  | None => s
  | Some (h, rec) =>
      let t := tx (load h rec) in
      if Fee t <? MinFee c then
        {| sel_mp := {| mpheap := h; table := delete (ID t) (table m);
                        next := next m |};
           sel_result := result;
           sel_skipped := sel_skipped s |}
      else if (0 <? GasLimit c)
              && (GasLimit c <? wrap64 (GasUsed result + Gas t)) then
        {| sel_mp := {| mpheap := h; table := table m; next := next m |};
           sel_result := result;
           sel_skipped := sel_skipped s ++ [rec] |}
      else
        {| sel_mp := {| mpheap := h; table := delete (ID t) (table m);
                        next := next m |};
           sel_result := {| Transactions := Transactions result ++ [t];
                            GasUsed := wrap64 (GasUsed result + Gas t) |};
           sel_skipped := sel_skipped s |}
  end.

(** Every turn pops one record, so the loop ends within [Len] turns. *)
Fixpoint select_loop (fuel : nat) (c : BlockConstraints) (s : selState)
  : selState :=
  match fuel with
  | O => s
  | S fuel' =>
      if select_cond c s then select_loop fuel' c (select_body c s) else s
  end.

Definition sel_init (m : mempool) : selState :=
  {| sel_mp := m;
     sel_result := {| Transactions := []; GasUsed := 0 |};
     sel_skipped := [] |}.

Definition SelectTransactions (m : mempool) (c : BlockConstraints)
  : mempool * BlockSelectionResult :=
  if (MaxTx c <=? 0) || (heap.Len (mpheap m) =? 0)
  then (m, sel_result (sel_init m))
  else
    let s := select_loop (length (elems (mpheap m))) c (sel_init m) in
    let m1 := sel_mp s in
    ({| mpheap := foldl heap.HPush (mpheap m1) (sel_skipped s);
        table := table m1;
        next := next m1 |}, sel_result s).

(** [List]: the transactions of the table's records, in the (unspecified)
    iteration order of the map. *)
Definition List (m : mempool) : list Tx :=
  (fun kv => tx (load (mpheap m) kv.2)) <$> map_to_list (table m).

(** ** Specification vocabulary for the heap

    The sequence of transactions a heap slice denotes, the same
    [container/heap] code run on that plain sequence, and the heap order
    stated on it. *)

Definition heap_txs (h : txHeap) : list Tx :=
  (fun p => tx (load h p)) <$> elems h.

Definition swap_list {A} (l : list A) (i j : Z) : list A :=
  match zlookup l i, zlookup l j with
  | Some a, Some b => <[Z.to_nat i := b]> (<[Z.to_nat j := a]> l)
  | _, _ => l
  end.

#[global] Instance txs_Interface : heap.Interface (list Tx) Tx := {|
  heap.Len l := Z.of_nat (length l);
  heap.Less l i j :=
    match zlookup l i, zlookup l j with
    | Some a, Some b => txLess a b
    | _, _ => false
    end;
  heap.Swap := swap_list;
  heap.Push l x := l ++ [x];
  heap.Pop l :=
    match zlookup l (Z.of_nat (length l) - 1) with
    | None => None
    | Some x => Some (take (Z.to_nat (Z.of_nat (length l) - 1)) l, x)
    end
|}.

Definition at_ (l : list Tx) (i : Z) : Tx := default zeroTx (zlookup l i).

Definition parent (j : Z) : Z := Z.quot (j - 1) 2.

(** The edge from the parent of [c] to [c] respects the order:
    [!h.Less(c, parent c)], the invariant container/heap documents. *)
Definition edge_ok (l : list Tx) (c : Z) : Prop :=
  txLess (at_ l c) (at_ l (parent c)) = false.

Definition heap_upto (l : list Tx) (n : Z) : Prop :=
  forall c, 0 < c < n -> edge_ok l c.

Definition heap_ordered (l : list Tx) : Prop :=
  heap_upto l (Z.of_nat (length l)).

(** The children of [k] are dominated by the parent of [k]. *)
Definition grand_ok (l : list Tx) (n k : Z) : Prop :=
  0 < k -> forall c, 0 < c < n -> parent c = k ->
  txLess (at_ l c) (at_ l (parent k)) = false.

(** Heap order everywhere but on the edge into [k]: what [up] repairs. *)
Definition up_pre (l : list Tx) (n k : Z) : Prop :=
  (forall c, 0 < c < n -> c <> k -> edge_ok l c) /\ grand_ok l n k.

(** Heap order everywhere but on the edges touching [k]: the value at [k]
    is arbitrary. This is what [down] followed by [up] repairs. *)
Definition hole (l : list Tx) (n k : Z) : Prop :=
  (forall c, 0 < c < n -> c <> k -> parent c <> k -> edge_ok l c)
  /\ grand_ok l n k.

(** ** Invariants of the mempool *)

(** The slice holds distinct, allocated pointers and every record knows its
    position (the back-pointer [index]). *)
Definition mem_ok (h : txHeap) : Prop :=
  NoDup (elems h)
  /\ forall k p, zlookup (elems h) k = Some p ->
       exists r, recs h !! p = Some r /\ index r = k.

(** [h'] has the same records as [h], holding the same transactions. *)
Definition same_txs (h h' : txHeap) : Prop :=
  dom (recs h') = dom (recs h)
  /\ forall p, tx (load h' p) = tx (load h p).

(** The id table and the live records (those in the heap slice, plus the
    ones a running selection has set aside) describe the same set. *)
Definition table_ok (h : txHeap) (live : list addr) (tbl : gmap TxID addr)
  : Prop :=
  (forall id p, tbl !! id = Some p -> p ∈ live /\ ID (tx (load h p)) = id)
  /\ (forall p, p ∈ live -> tbl !! ID (tx (load h p)) = Some p).

Definition inv (m : mempool) (skipped : list addr) : Prop :=
  mem_ok (mpheap m)
  /\ NoDup (elems (mpheap m) ++ skipped)
  /\ heap_ordered (heap_txs (mpheap m))
  /\ table_ok (mpheap m) (elems (mpheap m) ++ skipped) (table m)
  /\ (forall p, p ∈ skipped -> p ∈ dom (recs (mpheap m)))
  /\ (forall p, p ∈ dom (recs (mpheap m)) -> (p < next m)%nat).

(** The invariant of the mempool between two method calls. *)
Definition mp_ok (m : mempool) : Prop := inv m [].

(** What a run of swaps below position [n] leaves of a heap [h0]: the
    same records and transactions, the same pointers (rearranged), and the
    slice untouched from [n] on. *)
Definition frame (h0 : txHeap) (n : Z) (h : txHeap) : Prop :=
  mem_ok h /\ same_txs h0 h /\ elems h ≡ₚ elems h0
  /\ forall k, n <= k -> zlookup (elems h) k = zlookup (elems h0) k.

(** ** Observing a selection

    [select_after k c m] is the state of the loop of [SelectTransactions]
    after [k] turns (its final state, if it ends earlier); [popped c m k]
    is the transaction the loop pops in its turn number [k] (counting from
    0), when the loop gets that far. *)

Definition select_runs (m : mempool) (c : BlockConstraints) : bool :=
  negb ((MaxTx c <=? 0) || (heap.Len (mpheap m) =? 0)).

Definition select_after (k : nat) (c : BlockConstraints) (m : mempool)
  : selState :=
  select_loop k c (sel_init m).

Definition popped (c : BlockConstraints) (m : mempool) (k : nat)
  : option Tx :=
  let s := select_after k c m in
  if select_runs m c && select_cond c s then
    match heap.HPop (mpheap (sel_mp s)) with
    | Some (h, rec) => Some (tx (load h rec))
    | None => None
    end
  else None.

(** [s'] is a state the selection loop reaches from [s]. *)
Definition later (s s' : selState) : Prop :=
  let h := mpheap (sel_mp s) in
  let h' := mpheap (sel_mp s') in
  same_txs h h'
  /\ table (sel_mp s') ⊆ table (sel_mp s)
  /\ next (sel_mp s') = next (sel_mp s)
  /\ (forall p, p ∈ elems h' -> p ∈ elems h)
  /\ exists new newsk,
       Transactions (sel_result s') = Transactions (sel_result s) ++ new
       /\ sel_skipped s' = sel_skipped s ++ newsk
       /\ (forall a, a ∈ new ->
             table (sel_mp s') !! ID a = None
             /\ exists q, q ∈ elems h /\ a = tx (load h q))
       /\ (forall p, p ∈ newsk -> p ∈ elems h).

Definition sel_inv (s : selState) : Prop := inv (sel_mp s) (sel_skipped s).

(** The record a turn pops, and the three ways the turn can go. *)
Inductive turn (c : BlockConstraints) (s s' : selState) (t : Tx)
  (rec : addr) : Prop :=
| turn_purge :
    Fee t < MinFee c ->
    table (sel_mp s') = delete (ID t) (table (sel_mp s)) ->
    sel_result s' = sel_result s ->
    sel_skipped s' = sel_skipped s ->
    turn c s s' t rec
| turn_skip :
    MinFee c <= Fee t ->
    0 < GasLimit c ->
    GasLimit c < wrap64 (GasUsed (sel_result s) + Gas t) ->
    table (sel_mp s') = table (sel_mp s) ->
    sel_result s' = sel_result s ->
    sel_skipped s' = sel_skipped s ++ [rec] ->
    turn c s s' t rec
| turn_accept :
    MinFee c <= Fee t ->
    (GasLimit c <= 0
     \/ wrap64 (GasUsed (sel_result s) + Gas t) <= GasLimit c) ->
    table (sel_mp s') = delete (ID t) (table (sel_mp s)) ->
    sel_result s' =
      {| Transactions := Transactions (sel_result s) ++ [t];
         GasUsed := wrap64 (GasUsed (sel_result s) + Gas t) |} ->
    sel_skipped s' = sel_skipped s ->
    turn c s s' t rec.

(** ** Histories of the mempool

    The methods of the [Mempool] interface as operations, a mempool driven
    by a sequence of them from [NewMempool], and the transactions its
    selections return along the way. *)

Inductive op : Type :=
| OpAdd (t : Tx)
| OpUpdate (t : Tx)
| OpRemove (id : TxID)
| OpSelect (c : BlockConstraints).

Definition step_op (m : mempool) (o : op) : mempool * list Tx :=
  match o with
  | OpAdd t => ((Add m t).1, [])
  | OpUpdate t => ((Update m t).1, [])
  | OpRemove id => ((Remove m id).1, [])
  | OpSelect c =>
      ((SelectTransactions m c).1, Transactions (SelectTransactions m c).2)
  end.

Fixpoint run_ops (m : mempool) (ops : list op) : mempool * list Tx :=
  match ops with
  | [] => (m, [])
  | o :: ops' =>
      let r1 := step_op m o in
      let r2 := run_ops r1.1 ops' in
      (r2.1, r1.2 ++ r2.2)
  end.

Definition reachable (m : mempool) : Prop :=
  exists ops, m = (run_ops NewMempool ops).1.


(** The transactions behind a list of pointers. *)
Definition txs_of (h : txHeap) (ps : list addr) : list Tx :=
  (fun p => tx (load h p)) <$> ps.

Definition sum_gas (l : list Tx) : Z := foldr (fun t acc => Gas t + acc) 0 l.

(** The priority order of the specification: higher fee first, then
    earlier timestamp, then smaller id. *)
Definition priority_before (a b : Tx) : Prop :=
  Fee a > Fee b
  \/ (Fee a = Fee b /\ Timestamp a < Timestamp b)
  \/ (Fee a = Fee b /\ Timestamp a = Timestamp b
      /\ String.ltb (ID a) (ID b) = true).

(** The selection, replayed on the transactions of the mempool listed in
    priority order: the result, and the transactions kept. *)
Fixpoint walk (c : BlockConstraints) (acc : list Tx) (gas : Z)
    (L : list Tx) : BlockSelectionResult * list Tx :=
  match L with
  | [] => ({| Transactions := acc; GasUsed := gas |}, [])
  | t :: L' =>
      if Z.of_nat (length acc) <? MaxTx c then
        if Fee t <? MinFee c then walk c acc gas L'
        else if (0 <? GasLimit c) && (GasLimit c <? wrap64 (gas + Gas t))
        then let w := walk c acc gas L' in (w.1, t :: w.2)
        else walk c (acc ++ [t]) (wrap64 (gas + Gas t)) L'
      else ({| Transactions := acc; GasUsed := gas |}, L)
  end.

(** The accounting a selection result respects. *)
Definition accounting (c : BlockConstraints) (r : BlockSelectionResult)
  : Prop :=
  GasUsed r = wrap64 (sum_gas (Transactions r))
  /\ Z.of_nat (length (Transactions r)) <= Z.max 0 (MaxTx c)
  /\ (0 < GasLimit c -> 0 <= GasUsed r <= GasLimit c).

Definition before (a b : Tx) : Prop := txLess a b = true.

(** The result so far is in priority order and ahead of everything still
    in the heap. *)
Definition sorted_inv (s : selState) : Prop :=
  StronglySorted before (Transactions (sel_result s))
  /\ forall a q, a ∈ Transactions (sel_result s) ->
       q ∈ elems (mpheap (sel_mp s)) ->
       before a (tx (load (mpheap (sel_mp s)) q)).

(** ** Sample data *)

Definition sampleTx (id sender : string) (fee gas : Z) (ts : Time) : Tx :=
  mkTx id sender "bob" fee gas "data" ts ts.

(** The transactions of scenario S1. *)
Definition s1A : Tx := sampleTx "a1" "alice" 1 50 1000.
Definition s1B : Tx := sampleTx "b2" "bob" 10 50 1001.
Definition s1C : Tx := sampleTx "c3" "carol" 100 50 1002.

(** The transactions of scenario S2. *)
Definition s2A : Tx := sampleTx "a1" "carol" 100 100 1000.
Definition s2B : Tx := sampleTx "b2" "alice" 1 1 1001.

(** The transactions of scenario S3. *)
Definition s3A : Tx := sampleTx "a1" "alice" 1 10 1000.
Definition s3B : Tx := sampleTx "b2" "bob" 100 10 1001.

(** A transaction of low fee and high gas. *)
Definition txHeavy : Tx := sampleTx "f6" "frank" 1 100 1005.

Definition mpOf (ts : list Tx) : mempool :=
  (run_ops NewMempool (OpAdd <$> ts)).1.

(** ** Byte strings *)

Definition byte_of_ascii (a : Ascii.ascii) : Z := Z.of_N (Ascii.N_of_ascii a).

Definition ascii_of_byte (b : Z) : Ascii.ascii := Ascii.ascii_of_N (Z.to_N b).

(** [[]byte(s)] *)
Definition bytes_of_string (s : string) : list Z :=
  byte_of_ascii <$> String.list_ascii_of_string s.

(** [string(b)] *)
Definition string_of_bytes (b : list Z) : string :=
  String.string_of_list_ascii (ascii_of_byte <$> b).

(** ** crypto/sha256 (Go standard library; FIPS 180-4) *)

Module sha256.

Definition mask32 : Z := 2 ^ 32 - 1.
Definition add32 (a b : Z) : Z := (a + b) mod 2 ^ 32.
Definition rotr (n x : Z) : Z :=
  Z.lor (Z.shiftr x n) (Z.land (Z.shiftl x (32 - n)) mask32).
Definition shr (n x : Z) : Z := Z.shiftr x n.
Definition Ch (x y z : Z) : Z :=
  Z.lxor (Z.land x y) (Z.land (Z.lxor x mask32) z).
Definition Maj (x y z : Z) : Z :=
  Z.lxor (Z.lxor (Z.land x y) (Z.land x z)) (Z.land y z).
Definition Sigma0 (x : Z) : Z :=
  Z.lxor (Z.lxor (rotr 2 x) (rotr 13 x)) (rotr 22 x).
Definition Sigma1 (x : Z) : Z :=
  Z.lxor (Z.lxor (rotr 6 x) (rotr 11 x)) (rotr 25 x).
Definition sigma0 (x : Z) : Z :=
  Z.lxor (Z.lxor (rotr 7 x) (rotr 18 x)) (shr 3 x).
Definition sigma1 (x : Z) : Z :=
  Z.lxor (Z.lxor (rotr 17 x) (rotr 19 x)) (shr 10 x).

Definition K : list Z :=
  [ 1116352408; 1899447441; 3049323471; 3921009573; 961987163; 1508970993; 2453635748; 2870763221; 3624381080; 310598401; 607225278; 1426881987; 1925078388; 2162078206; 2614888103; 3248222580; 3835390401; 4022224774; 264347078; 604807628; 770255983; 1249150122; 1555081692; 1996064986; 2554220882; 2821834349; 2952996808; 3210313671; 3336571891; 3584528711; 113926993; 338241895; 666307205; 773529912; 1294757372; 1396182291; 1695183700; 1986661051; 2177026350; 2456956037; 2730485921; 2820302411; 3259730800; 3345764771; 3516065817; 3600352804; 4094571909; 275423344; 430227734; 506948616; 659060556; 883997877; 958139571; 1322822218; 1537002063; 1747873779; 1955562222; 2024104815; 2227730452; 2361852424; 2428436474; 2756734187; 3204031479; 3329325298 ].

Definition init : list Z :=
  [ 1779033703; 3144134277; 1013904242; 2773480762; 1359893119; 2600822924; 528734635; 1541459225 ].

(** Big-endian encoding of [x] on [n] bytes. *)
Fixpoint be_bytes (n : nat) (x : Z) : list Z :=
  match n with
  | O => []
  | S n' => be_bytes n' (Z.shiftr x 8) ++ [Z.land x 255]
  end.

Definition be_word (bs : list Z) : Z :=
  foldl (fun acc b => Z.lor (Z.shiftl acc 8) b) 0 bs.

(** The message followed by 0x80, zeros up to 56 modulo 64, and the bit
    length on 8 bytes. *)
Definition pad (msg : list Z) : list Z :=
  let len := Z.of_nat (length msg) in
  let zeros := Z.to_nat ((55 - len) mod 64) in
  msg ++ [128] ++ replicate zeros 0 ++ be_bytes 8 (8 * len).

(** The message schedule, most recent word first. *)
Fixpoint schedule (n : nat) (ws : list Z) : list Z :=
  match n with
  | O => ws
  | S n' =>
      let w := add32 (add32 (sigma1 (nth 1 ws 0)) (nth 6 ws 0))
                     (add32 (sigma0 (nth 14 ws 0)) (nth 15 ws 0)) in
      schedule n' (w :: ws)
  end.

Fixpoint words (n : nat) (block : list Z) : list Z :=
  match n with
  | O => []
  | S n' => be_word (take 4 block) :: words n' (drop 4 block)
  end.

Definition round (st : list Z) (kw : Z * Z) : list Z :=
  match st with
  | [a; b; c; d; e; f; g; h] =>
      let t1 := add32 (add32 (add32 h (Sigma1 e)) (Ch e f g))
                      (add32 kw.1 kw.2) in
      let t2 := add32 (Sigma0 a) (Maj a b c) in
      [add32 t1 t2; a; b; c; add32 d t1; e; f; g]
  | _ => st
  end.

Definition compress (st : list Z) (block : list Z) : list Z :=
  let w := reverse (schedule 48 (reverse (words 16 block))) in
  let st' := foldl round st (zip K w) in
  zip_with add32 st st'.

Fixpoint blocks (n : nat) (st : list Z) (msg : list Z) : list Z :=
  match n with
  | O => st
  | S n' => blocks n' (compress st (take 64 msg)) (drop 64 msg)
  end.

(** [sha256.Sum256]: the 32 bytes of the digest. *)
Definition Sum256 (msg : list Z) : list Z :=
  let p := pad msg in
  let st := blocks (length p / 64) init p in
  st ≫= be_bytes 4.

End sha256.

(** ** encoding/hex and strconv *)

Definition hexdigit (d : Z) : Ascii.ascii :=
  ascii_of_byte (if d <? 10 then 48 + d else 87 + d).

(** [hex.EncodeToString] *)
Fixpoint hex_EncodeToString (bs : list Z) : string :=
  match bs with
  | [] => ""
  | b :: bs' =>
      String (hexdigit (Z.shiftr b 4))
        (String (hexdigit (Z.land b 15)) (hex_EncodeToString bs'))
  end.

Definition digit (d : Z) : Ascii.ascii := ascii_of_byte (48 + d).

(** The decimal digits of [z >= 0], prepended to [acc]. A [uint64] has at
    most 20 digits. *)
Fixpoint dec_digits (fuel : nat) (z : Z) (acc : string) : string :=
  match fuel with
  | O => acc
  | S fuel' =>
      let acc' := String (digit (z mod 10)) acc in
      if z <? 10 then acc' else dec_digits fuel' (z / 10) acc'
  end.

(** [strconv.FormatUint(u, 10)] *)
Definition FormatUint (u : Z) : string := dec_digits 20 u "".

(** [strconv.FormatInt(i, 10)] and [strconv.Itoa(i)] *)
Definition FormatInt (i : Z) : string :=
  if i <? 0 then "-" +:+ FormatUint (- i) else FormatUint i.

(** ** time: formatting an instant as RFC3339Nano in UTC *)

(** [appendInt(b, x, width)]: decimal, zero-padded to [width], with a
    leading minus sign for negative values. *)
Definition zero_pad (width : nat) (s : string) : string :=
  String.string_of_list_ascii
    (replicate (width - String.length s) (digit 0)) +:+ s.

Definition appendInt (x : Z) (width : nat) : string :=
  if x <? 0 then "-" +:+ zero_pad width (dec_digits 20 (- x) "")
  else zero_pad width (dec_digits 20 x "").

(** The proleptic Gregorian date (year, month, day) of a day count since
    1970-01-01, as [Time.Date] computes it. *)
Definition civil (days : Z) : Z * Z * Z :=
  let z := days + 719468 in
  let era := z / 146097 in
  let doe := z - era * 146097 in
  let yoe := (doe - doe / 1460 + doe / 36524 - doe / 146096) / 365 in
  let doy := doe - (365 * yoe + yoe / 4 - yoe / 100) in
  let mp := (5 * doy + 2) / 153 in
  let d := doy - (153 * mp + 2) / 5 + 1 in
  let m := if mp <? 10 then mp + 3 else mp - 9 in
  let y := yoe + era * 400 + (if m <=? 2 then 1 else 0) in
  (y, m, d).

(** Trailing zeros of the 9-digit fraction are dropped, least significant
    first. *)
Fixpoint trim_nano (n : nat) (x : Z) : string :=
  match n with
  | O => ""
  | S n' =>
      if x mod 10 =? 0 then trim_nano n' (x / 10)
      else zero_pad n (dec_digits 20 x "")
  end.

(** [appendNano] with the layout [.999999999]. *)
Definition appendNano (nsec : Z) : string :=
  if nsec =? 0 then "" else "." +:+ trim_nano 9 nsec.

(** [t.UTC().Format(time.RFC3339Nano)] *)
Definition Format_RFC3339Nano (t : Time) : string :=
  let secs := t / 1000000000 in
  let nsec := t mod 1000000000 in
  let days := secs / 86400 in
  let sod := secs mod 86400 in
  let '(y, m, d) := civil days in
  appendInt y 4 +:+ "-" +:+ appendInt m 2 +:+ "-" +:+ appendInt d 2
  +:+ "T" +:+ appendInt (sod / 3600) 2 +:+ ":"
  +:+ appendInt (sod / 60 mod 60) 2 +:+ ":" +:+ appendInt (sod mod 60) 2
  +:+ appendNano nsec +:+ "Z".

(** ** tx.go *)

(** The byte string [GenerateTxID] hashes. *)
Definition txid_preimage (sender recipient payload : string)
    (createdAt : Time) : string :=
  sender +:+ "|" +:+ recipient +:+ "|" +:+ payload +:+ "|"
  +:+ FormatInt (UnixNano createdAt).

Definition GenerateTxID (sender recipient payload : string)
    (createdAt : Time) : TxID :=
  let raw := txid_preimage sender recipient payload createdAt in
  let hash := sha256.Sum256 (bytes_of_string raw) in
  hex_EncodeToString hash.

(** [NewUnsignedTx]; [now] is the value of [time.Now().UTC()]. *)
Definition NewUnsignedTx (now : Time) (sender recipient payload : string)
    (fee gas : Z) : Tx :=
  let created := now in
  let id := GenerateTxID sender recipient payload created in
  {| ID := id; Sender := sender; Recipient := recipient; Payload := payload;
     Fee := fee; Gas := gas; CreatedAt := created; Timestamp := created |}.

(** [NewTxUpdate]; [now] is the value of [time.Now().UTC()]. *)
Definition NewTxUpdate (now : Time) (id : TxID)
    (sender recipient payload : string) (fee gas : Z) (createdAt : Time)
  : Tx :=
  {| ID := id; Sender := sender; Recipient := recipient; Payload := payload;
     Fee := fee; Gas := gas; CreatedAt := createdAt; Timestamp := now |}.

(** ** block.go *)

(** The canonical header line of [Block.Hash]. *)
Definition header_line (h : BlockHeader) : string :=
  "height=" +:+ FormatUint (Height h)
  +:+ "|timestamp=" +:+ Format_RFC3339Nano (HeaderTimestamp h)
  +:+ "|txcount=" +:+ FormatInt (TxCount h)
  +:+ "|gasused=" +:+ FormatUint (HeaderGasUsed h).

(** Everything [Block.Hash] writes to the hash, in order. *)
Definition hash_preimage (b : Block) : list Z :=
  bytes_of_string (header_line (Header b))
  ++ PrevHash (Header b)
  ++ (BlockTransactions b ≫= fun t => bytes_of_string (ID t)).

Definition Block_Hash (b : Block) : list Z :=
  sha256.Sum256 (hash_preimage b).

(** ** builder.go *)

(** The builder's reference to the mempool is the mempool of the node; the
    model passes that mempool in and out. *)
Definition BuildBlock (cfg : BlockBuilderConfig) (m : mempool)
    (prevHash : list Z) (height : Z) (now : Time)
  : mempool * (Block + error) :=
  let constraints := {| GasLimit := cfgGasLimit cfg;
                        MaxTx := cfgMaxTxPerBlock cfg;
                        MinFee := cfgMinFee cfg |} in
  let sel := SelectTransactions m constraints in
  let selection := sel.2 in
  if Z.of_nat (length (Transactions selection)) =? 0
  then (sel.1, inr ErrEmptyBlock)
  else
    let header := {| Height := height;
                     PrevHash := prevHash;
                     HeaderTimestamp := now;
                     TxCount := Z.of_nat (length (Transactions selection));
                     HeaderGasUsed := GasUsed selection |} in
    (sel.1, inl {| Header := header;
                   BlockTransactions := Transactions selection |}).

(** ** node.go *)

Record Node : Type := mkNode {
  node_mempool : mempool;
  node_builder : BlockBuilderConfig;
  blocks : list Block;
  node_cfg : NodeConfig
}.

Definition NewNode (cfg : NodeConfig) : Node :=
  {| node_mempool := NewMempool;
     node_builder := {| cfgGasLimit := nodeGasLimit cfg;
                        cfgMaxTxPerBlock := nodeMaxTxPerBlock cfg;
                        cfgMinFee := nodeMinFee cfg |};
     blocks := [];
     node_cfg := cfg |}.

(** The configuration [StartNode] uses. *)
Definition defaultConfig (listenAddr : string) : NodeConfig :=
  {| ListenAddr := listenAddr;
     BlockInterval := 2 * 1000000000;
     nodeGasLimit := 1000000;
     nodeMaxTxPerBlock := 1000;
     nodeMinFee := 0 |}.

(** The node together with the local variables of [runBlockLoop]. *)
Record loopState : Type := mkLoopState {
  ls_node : Node;
  ls_height : Z;
  ls_prevHash : list Z
}.

Definition zeroHash : list Z := replicate 32 0.

Definition loop_start (n : Node) : loopState :=
  {| ls_node := n; ls_height := 0; ls_prevHash := zeroHash |}.

(** One firing of the ticker in [runBlockLoop]; [now] is the value of
    [time.Now().UTC()]. *)
Definition tick (now : Time) (st : loopState) : loopState :=
  let n := ls_node st in
  let built := BuildBlock (node_builder n) (node_mempool n)
                 (ls_prevHash st) (ls_height st) now in
  match built.2 with
  | inr _ =>
      {| ls_node := {| node_mempool := built.1;
                       node_builder := node_builder n;
                       blocks := blocks n;
                       node_cfg := node_cfg n |};
         ls_height := ls_height st;
         ls_prevHash := ls_prevHash st |}
  | inl block =>
      {| ls_node := {| node_mempool := built.1;
                       node_builder := node_builder n;
                       blocks := blocks n ++ [block];
                       node_cfg := node_cfg n |};
         ls_height := wrap64 (ls_height st + 1);
         ls_prevHash := Block_Hash block |}
  end.

(** ** rpc.go *)

Inductive json : Type :=
| JNull
| JBool (b : bool)
| JNum (z : Z)
| JStr (s : string)
| JArr (l : list json)
| JObj (fields : list (string * json)).

Record blockDTO : Type := mkBlockDTO {
  dtoHeight : Z;
  dtoPrevHash : string;
  dtoTimestamp : Time;
  dtoTxCount : Z;
  dtoGasUsed : Z;
  dtoHash : string;
  dtoTxs : list Tx
}.

(** The dynamic values the handlers store in [rpcResponse.Result], an
    [any]. The last one is an [rpcResponse] itself. *)
Inductive any : Type :=
| anyNil
| addTxResult (txID : string)
| okResult (ok : bool)
| listTxResult (transactions : list Tx)
| listBlocksResult (bs : list blockDTO)
| getBlockResult (b : blockDTO)
| rpcResponseValue (result : any) (err : string).

Record rpcResponse : Type := mkRpcResponse {
  Result : any;
  Error : string
}.

Record addTxParams : Type := mkAddTxParams {
  pSender : string;
  pRecipient : string;
  pPayload : string;
  pFee : Z;
  pGas : Z
}.

Record updateTxParams : Type := mkUpdateTxParams {
  uID : string;
  uFee : Z
}.

Record removeTxParams : Type := mkRemoveTxParams { rID : string }.

Record blockGetParams : Type := mkBlockGetParams { gHeight : Z }.

(** [json.Marshal] of the values above. A field tagged [omitempty] is left
    out when it is the empty string or a nil interface. Times are written
    in RFC3339Nano. *)
Definition encode_Tx (t : Tx) : json :=
  JObj [("ID", JStr (ID t)); ("Sender", JStr (Sender t));
        ("Recipient", JStr (Recipient t)); ("Fee", JNum (Fee t));
        ("Gas", JNum (Gas t)); ("Payload", JStr (Payload t));
        ("CreatedAt", JStr (Format_RFC3339Nano (CreatedAt t)));
        ("Timestamp", JStr (Format_RFC3339Nano (Timestamp t)))].

Definition encode_blockDTO (b : blockDTO) : json :=
  JObj [("height", JNum (dtoHeight b)); ("prevHash", JStr (dtoPrevHash b));
        ("timestamp", JStr (Format_RFC3339Nano (dtoTimestamp b)));
        ("txCount", JNum (dtoTxCount b)); ("gasUsed", JNum (dtoGasUsed b));
        ("hash", JStr (dtoHash b));
        ("transactions", JArr (encode_Tx <$> dtoTxs b))].

Definition omitempty_string (key s : string) : list (string * json) :=
  if String.eqb s "" then [] else [(key, JStr s)].

Fixpoint encode_any (v : any) : json :=
  match v with
  | anyNil => JNull
  | addTxResult id => JObj [("txID", JStr id)]
  | okResult ok => JObj [("ok", JBool ok)]
  | listTxResult txs => JObj [("transactions", JArr (encode_Tx <$> txs))]
  | listBlocksResult bs => JObj [("blocks", JArr (encode_blockDTO <$> bs))]
  | getBlockResult b => JObj [("block", encode_blockDTO b)]
  | rpcResponseValue result err =>
      JObj ((match result with
             | anyNil => []
             | _ => [("result", encode_any result)]
             end) ++ omitempty_string "error" err)
  end.

Definition encode_rpcResponse (r : rpcResponse) : json :=
  encode_any (rpcResponseValue (Result r) (Error r)).

(** What a handler writes: the status code and the JSON body. *)
Record httpResponse : Type := mkHttpResponse {
  status : Z;
  body : json
}.

Definition StatusOK : Z := 200.
Definition StatusBadRequest : Z := 400.
Definition StatusMethodNotAllowed : Z := 405.

Definition writeRPCResult (st : Z) (result : any) : httpResponse :=
  let resp := {| Result := result; Error := "" |} in
  {| status := st; body := encode_rpcResponse resp |}.

Definition writeRPCError (st : Z) (msg : string) : httpResponse :=
  let resp := {| Result := anyNil; Error := msg |} in
  {| status := st; body := encode_rpcResponse resp |}.

(** A field of a JSON object, as a client reading the envelope sees it. *)
Definition json_field (key : string) (j : json) : option json :=
  match j with
  | JObj fields => snd <$> find (fun kv => String.eqb kv.1 key) fields
  | _ => None
  end.

Definition with_mempool (n : Node) (m : mempool) : Node :=
  {| node_mempool := m; node_builder := node_builder n;
     blocks := blocks n; node_cfg := node_cfg n |}.

Definition findTxByID (n : Node) (id : TxID) : option Tx :=
  find (fun t => String.eqb (ID t) id) (List (node_mempool n)).

Definition makeBlockDTO (b : Block) : blockDTO :=
  let hash := Block_Hash b in
  {| dtoHeight := Height (Header b);
     dtoPrevHash := hex_EncodeToString (PrevHash (Header b));
     dtoTimestamp := HeaderTimestamp (Header b);
     dtoTxCount := TxCount (Header b);
     dtoGasUsed := HeaderGasUsed (Header b);
     dtoHash := hex_EncodeToString hash;
     dtoTxs := BlockTransactions b |}.

(** The handlers. Their [params] argument is what [json.Unmarshal] makes of
    the request's parameters: [None] when it reports an error. *)
Definition rpcTxAdd (now : Time) (n : Node) (params : option addTxParams)
  : Node * httpResponse :=
  match params with
  | None => (n, writeRPCError StatusBadRequest "invalid params for tx.add")
  | Some p =>
      if String.eqb (pSender p) "" || String.eqb (pRecipient p) "" then
        (n, writeRPCError StatusBadRequest
              "sender and recipient are required")
      else
        let t := NewUnsignedTx now (pSender p) (pRecipient p) (pPayload p)
                   (pFee p) (pGas p) in
        match Add (node_mempool n) t with
        | (m, Some err) =>
            (with_mempool n m, writeRPCError StatusBadRequest (error_Error err))
        | (m, None) =>
            (with_mempool n m, writeRPCResult StatusOK (addTxResult (ID t)))
        end
  end.

Definition rpcTxUpdate (now : Time) (n : Node)
    (params : option updateTxParams) : Node * httpResponse :=
  match params with
  | None => (n, writeRPCError StatusBadRequest "invalid params for tx.update")
  | Some p =>
      if String.eqb (uID p) "" then
        (n, writeRPCError StatusBadRequest "id is required")
      else
        match findTxByID n (uID p) with
        | None =>
            (n, writeRPCResult StatusOK
                  (rpcResponseValue anyNil (error_Error ErrTxNotFound)))
        | Some existing =>
            let updated := NewTxUpdate now (ID existing) (Sender existing)
                             (Recipient existing) (Payload existing)
                             (uFee p) (Gas existing) (CreatedAt existing) in
            match Update (node_mempool n) updated with
            | (m, Some err) =>
                (with_mempool n m,
                 writeRPCError StatusBadRequest (error_Error err))
            | (m, None) =>
                (with_mempool n m, writeRPCResult StatusOK (okResult true))
            end
        end
  end.

Definition rpcTxRemove (n : Node) (params : option removeTxParams)
  : Node * httpResponse :=
  match params with
  | None => (n, writeRPCError StatusBadRequest "invalid params for tx.remove")
  | Some p =>
      if String.eqb (rID p) "" then
        (n, writeRPCError StatusBadRequest "id is required")
      else
        match Remove (node_mempool n) (rID p) with
        | (m, Some ErrTxNotFound) =>
            (with_mempool n m,
             writeRPCResult StatusOK
               (rpcResponseValue anyNil (error_Error ErrTxNotFound)))
        | (m, Some err) =>
            (with_mempool n m,
             writeRPCError StatusBadRequest (error_Error err))
        | (m, None) =>
            (with_mempool n m, writeRPCResult StatusOK (okResult true))
        end
  end.

(** The comparator [rpcTxList] hands to [sort.Slice]: fee descending, then
    timestamp ascending, then id ascending. *)
Definition rpcTxList_less (ti tj : Tx) : bool :=
  if negb (Fee ti =? Fee tj) then Fee tj <? Fee ti
  else if negb (Time_Equal (Timestamp ti) (Timestamp tj))
  then Time_Before (Timestamp ti) (Timestamp tj)
  else String.ltb (ID ti) (ID tj).

(** [sort.Slice] as an insertion sort: the comparator is a strict total
    order on transactions of distinct ids, so every sort gives the same
    listing. *)
Fixpoint insert_sorted (less : Tx -> Tx -> bool) (t : Tx) (l : list Tx)
  : list Tx :=
  match l with
  | [] => [t]
  | u :: l' => if less t u then t :: l else u :: insert_sorted less t l'
  end.

Definition sort_Slice (l : list Tx) (less : Tx -> Tx -> bool) : list Tx :=
  foldr (insert_sorted less) [] l.

Definition rpcTxList (n : Node) : Node * httpResponse :=
  let txs := sort_Slice (List (node_mempool n)) rpcTxList_less in
  (n, writeRPCResult StatusOK (listTxResult txs)).

Definition rpcBlockList (n : Node) : Node * httpResponse :=
  let dtos := makeBlockDTO <$> blocks n in
  (n, writeRPCResult StatusOK (listBlocksResult dtos)).

Definition rpcBlockGet (n : Node) (params : option blockGetParams)
  : Node * httpResponse :=
  match params with
  | None => (n, writeRPCError StatusBadRequest "invalid params for block.get")
  | Some p =>
      match find (fun b => Height (Header b) =? gHeight p) (blocks n) with
      | None =>
          (n, writeRPCResult StatusOK
                (rpcResponseValue anyNil "block not found"))
      | Some found =>
          (n, writeRPCResult StatusOK (getBlockResult (makeBlockDTO found)))
      end
  end.

(** A decoded request: the method named in the envelope, with what the
    handler's [json.Unmarshal] makes of the parameters. *)
Inductive rpcCall : Type :=
| CallTxAdd (p : option addTxParams)
| CallTxUpdate (p : option updateTxParams)
| CallTxRemove (p : option removeTxParams)
| CallTxList
| CallBlockList
| CallBlockGet (p : option blockGetParams)
| CallUnknown (method : string).

(** [fmt.Sprintf] with [%q] on a method name: the name between double
    quotes. (Go also escapes quotes, backslashes and unprintable characters
    inside the name; the model leaves the name as it is.) *)
Definition quoted (s : string) : string :=
  let dq := Ascii.ascii_of_nat 34 in
  String dq (s +:+ String dq EmptyString).

(** [handleRPC]; [req] is [None] when the body does not decode as a
    request. *)
Definition handleRPC (now : Time) (n : Node) (httpMethod : string)
    (req : option rpcCall) : Node * httpResponse :=
  if negb (String.eqb httpMethod "POST") then
    (n, writeRPCError StatusMethodNotAllowed "method not allowed")
  else
    match req with
    | None => (n, writeRPCError StatusBadRequest "invalid JSON request")
    | Some (CallTxAdd p) => rpcTxAdd now n p
    | Some (CallTxUpdate p) => rpcTxUpdate now n p
    | Some (CallTxRemove p) => rpcTxRemove n p
    | Some CallTxList => rpcTxList n
    | Some CallBlockList => rpcBlockList n
    | Some (CallBlockGet p) => rpcBlockGet n p
    | Some (CallUnknown method) =>
        (n, writeRPCError StatusBadRequest
              ("unknown method " +:+ quoted method))
    end.

(** ** The running node

    The two activities of [Node.run]: the ticker of [runBlockLoop] and the
    requests the HTTP server hands to [handleRPC]. The mempool's lock makes
    each mempool call atomic, and only the loop writes the chain and its
    cursor, so a run of the node is a sequence of these events. *)
Inductive event : Type :=
| EvTick (now : Time)
| EvRequest (now : Time) (httpMethod : string) (req : option rpcCall).

Definition step (st : loopState) (ev : event) : loopState :=
  match ev with
  | EvTick now => tick now st
  | EvRequest now httpMethod req =>
      {| ls_node := (handleRPC now (ls_node st) httpMethod req).1;
         ls_height := ls_height st;
         ls_prevHash := ls_prevHash st |}
  end.

Definition run_node (cfg : NodeConfig) (evs : list event) : loopState :=
  foldl step (loop_start (NewNode cfg)) evs.

(** The chain is hash-linked up to (and including) position [i]. *)
Definition linked_at (bs : list Block) (i : nat) (b : Block) : Prop :=
  Height (Header b) = wrap64 (Z.of_nat i)
  /\ PrevHash (Header b) =
     match i with
     | O => zeroHash
     | S j => from_option Block_Hash zeroHash (bs !! j)
     end.

(** What the block loop maintains: the cursor is the length of the chain,
    the previous hash is the hash of the last block, and every block is
    linked to its predecessor. *)
Definition chain_inv (st : loopState) : Prop :=
  let bs := blocks (ls_node st) in
  ls_height st = wrap64 (Z.of_nat (length bs))
  /\ ls_prevHash st = from_option Block_Hash zeroHash (last bs)
  /\ forall i b, bs !! i = Some b -> linked_at bs i b.

(** A sample run: two transactions submitted around three ticks. *)
Definition sampleConfig : NodeConfig := defaultConfig "127.0.0.1:8080".

Definition sampleEvents : list event :=
  [ EvRequest 1000 "POST"
      (Some (CallTxAdd (Some (mkAddTxParams "alice" "bob" "hello" 10 500))));
    EvTick 2000;
    EvTick 3000;
    EvRequest 3500 "POST"
      (Some (CallTxAdd (Some (mkAddTxParams "carol" "bob" "x" 5 100))));
    EvTick 4000 ].

(** The body every not-found path writes: the error envelope inside the
    [result] of a second envelope. *)
Definition nested_error_body (msg : string) : json :=
  JObj [("result", JObj [("error", JStr msg)])].

(** A top-level field that is missing or [null]; a client decoding the
    envelope cannot tell the two apart. *)
Definition json_field_null (key : string) (j : json) : bool :=
  match json_field key j with
  | None | Some JNull => true
  | Some _ => false
  end.

(** ** Vocabulary for the hashed strings *)

(** The characters of a string. *)
Definition chars (s : string) : list Ascii.ascii :=
  String.list_ascii_of_string s.

Definition pipe : Ascii.ascii := Ascii.ascii_of_nat 124.

Definition minus_sign : Ascii.ascii := Ascii.ascii_of_nat 45.
Definition dot : Ascii.ascii := Ascii.ascii_of_nat 46.
Definition zulu : Ascii.ascii := Ascii.ascii_of_nat 90.
Definition tee : Ascii.ascii := Ascii.ascii_of_nat 84.
Definition colon : Ascii.ascii := Ascii.ascii_of_nat 58.

(** A string without the separator ['|']. *)
Definition pipe_free (s : string) : bool :=
  forallb (fun a => negb (Ascii.eqb a pipe)) (chars s).

Definition is_digit (a : Ascii.ascii) : Prop :=
  48 <= byte_of_ascii a <= 57.

(** The number a string of decimal digits denotes. *)
Definition dec_value (l : list Ascii.ascii) : Z :=
  foldl (fun acc a => 10 * acc + (byte_of_ascii a - 48)) 0 l.

(** The value of a hexadecimal digit. *)
Definition hex_value (a : Ascii.ascii) : Z :=
  let b := byte_of_ascii a in
  if b <? 58 then b - 48 else b - 87.

Definition is_byte (b : Z) : Prop := 0 <= b < 256.

(** No SHA-256 collision between two given messages. *)
Definition no_collision (p1 p2 : list Z) : Prop :=
  sha256.Sum256 p1 = sha256.Sum256 p2 -> p1 = p2.

(** The characters of a rendered instant: digits and punctuation. *)
Definition is_time_char (a : Ascii.ascii) : Prop :=
  is_digit a
  \/ a = minus_sign \/ a = tee \/ a = colon \/ a = dot \/ a = zulu.

(** ** Vocabulary for the calendar

    The pieces of [civil], as functions of the day of the 400-year era. *)

Definition yoe_of (doe : Z) : Z :=
  (doe - doe / 1460 + doe / 36524 - doe / 146096) / 365.

Definition doy_of (doe : Z) : Z :=
  let yoe := yoe_of doe in doe - (365 * yoe + yoe / 4 - yoe / 100).

Definition mp_of (doe : Z) : Z := (5 * doy_of doe + 2) / 153.

Definition dom_of (doe : Z) : Z :=
  doy_of doe - (153 * mp_of doe + 2) / 5 + 1.

(** The calendar fields of an instant, as [Format] reads them. *)
Definition time_fields (t : Time) : Z * Z * Z * Z * Z * Z * Z :=
  let secs := t / 1000000000 in
  let sod := secs mod 86400 in
  let '(y, m, d) := civil (secs / 86400) in
  (y, m, d, sod / 3600, sod / 60 mod 60, sod mod 60, t mod 1000000000).

(** An instant whose Unix seconds fit an [int64]. *)
Definition Time_valid (t : Time) : Prop :=
  - 2 ^ 63 <= t / 1000000000 < 2 ^ 63.

(** ** Well-formed blocks

    What the Go types and [GenerateTxID] guarantee of a block: the integers
    are in the range of their type, the previous hash is 32 bytes, the
    timestamp is representable and every transaction id has the 64
    characters of a hexadecimal SHA-256 digest. *)
Definition is_byteb (b : Z) : bool := (0 <=? b) && (b <? 256).

Definition Time_validb (t : Time) : bool :=
  (- 2 ^ 63 <=? t / 1000000000) && (t / 1000000000 <? 2 ^ 63).

Definition block_wf (b : Block) : bool :=
  let h := Header b in
  (0 <=? Height h) && (Height h <? two64)
  && (length (PrevHash h) =? 32)%nat && forallb is_byteb (PrevHash h)
  && Time_validb (HeaderTimestamp h)
  && (- 2 ^ 63 <=? TxCount h) && (TxCount h <? 2 ^ 63)
  && (0 <=? HeaderGasUsed h) && (HeaderGasUsed h <? two64)
  && forallb (fun t => (String.length (ID t) =? 64)%nat) (BlockTransactions b).

(** The characters [Block.Hash] writes, the previous hash read as
    characters. *)
Definition hash_chars (b : Block) : list Ascii.ascii :=
  chars (header_line (Header b))
  ++ (ascii_of_byte <$> PrevHash (Header b))
  ++ (BlockTransactions b ≫= fun t => chars (ID t)).

Definition is_lower_hex (a : Ascii.ascii) : Prop :=
  let b := byte_of_ascii a in 48 <= b <= 57 \/ 97 <= b <= 102.

(** Two blocks of the sample run, and two transactions whose ids share
    their concatenation. *)
Definition sampleBlock (i : nat) : Block :=
  default {| Header := {| Height := 0; PrevHash := []; HeaderTimestamp := 0;
                          TxCount := 0; HeaderGasUsed := 0 |};
             BlockTransactions := [] |}
    (blocks (ls_node (run_node sampleConfig sampleEvents)) !! i).

(** ** Vocabulary for built blocks *)

Definition constraints_of (cfg : BlockBuilderConfig) : BlockConstraints :=
  {| GasLimit := cfgGasLimit cfg;
     MaxTx := cfgMaxTxPerBlock cfg;
     MinFee := cfgMinFee cfg |}.

(** What [BuildBlock] guarantees of a block built under [cfg]. *)
Definition built_under (cfg : BlockBuilderConfig) (b : Block) : Prop :=
  let txs := BlockTransactions b in
  TxCount (Header b) = Z.of_nat (length txs)
  /\ 1 <= TxCount (Header b) <= cfgMaxTxPerBlock cfg
  /\ HeaderGasUsed (Header b) = wrap64 (sum_gas txs)
  /\ (0 < cfgGasLimit cfg -> HeaderGasUsed (Header b) <= cfgGasLimit cfg)
  /\ StronglySorted before txs
  /\ NoDup (ID <$> txs)
  /\ Forall (fun t => cfgMinFee cfg <= Fee t) txs.

(** ** Vocabulary for the running node *)

(** The builder configuration [NewNode] derives from the node's. *)
Definition builder_of (cfg : NodeConfig) : BlockBuilderConfig :=
  {| cfgGasLimit := nodeGasLimit cfg;
     cfgMaxTxPerBlock := nodeMaxTxPerBlock cfg;
     cfgMinFee := nodeMinFee cfg |}.

(** Every id has the 64 characters [GenerateTxID] gives it. *)
Definition ids_ok (l : list Tx) : Prop :=
  Forall (fun t => String.length (ID t) = 64%nat) l.

(** What holds of the node between two events. *)
Definition node_ok (cfg : NodeConfig) (st : loopState) : Prop :=
  let n := ls_node st in
  node_builder n = builder_of cfg
  /\ node_cfg n = cfg
  /\ reachable (node_mempool n)
  /\ ids_ok (List (node_mempool n))
  /\ Forall (fun b => built_under (builder_of cfg) b
                      /\ ids_ok (BlockTransactions b)) (blocks n).

(** The ticks of a run carry representable instants. *)
Definition tick_times_valid (evs : list event) : Prop :=
  Forall (fun ev => match ev with
                    | EvTick now => Time_valid now
                    | EvRequest _ _ _ => True
                    end) evs.

(** What a request may do to the mempool: nothing, or one call of [Add]
    with a fresh unsigned transaction, of [Update] with a listed
    transaction whose fee and timestamp are renewed, or of [Remove]. *)
Definition request_effect (now : Time) (m m' : mempool) : Prop :=
  m' = m
  \/ (exists p, m' = (Add m (NewUnsignedTx now (pSender p) (pRecipient p)
                              (pPayload p) (pFee p) (pGas p))).1)
  \/ (exists old fee, old ∈ List m
         /\ m' = (Update m (NewTxUpdate now (ID old) (Sender old)
                              (Recipient old) (Payload old) fee (Gas old)
                              (CreatedAt old))).1)
  \/ (exists id, m' = (Remove m id).1).

(** ** Vocabulary for the replies *)

Definition ok_body : json := JObj [("result", JObj [("ok", JBool true)])].

Definition error_body (msg : string) : json := JObj [("error", JStr msg)].

(** The two envelopes a client can tell apart: a result and no error, or an
    error and no result. *)
Definition result_reply (r : httpResponse) : Prop :=
  json_field_null "result" (body r) = false
  /\ json_field "error" (body r) = None.

Definition error_reply (r : httpResponse) : Prop :=
  json_field_null "result" (body r) = true
  /\ exists msg, msg <> EmptyString
       /\ json_field "error" (body r) = Some (JStr msg).

(* ===================================================================== *)
(** * Part II: properties                                                  *)
(* ===================================================================== *)

(** ** Arithmetic of heap positions *)

Lemma parent_bounds (j : Z) : 0 < j -> 0 <= parent j < j.
Proof.
  intros Hj. unfold parent. rewrite Z.quot_div_nonneg by lia.
  split; [apply Z.div_pos; lia | apply Z.div_lt_upper_bound; lia].
Qed.

Lemma parent_child (j : Z) :
  0 < j -> j = 2 * parent j + 1 \/ j = 2 * parent j + 2.
Proof.
  intros Hj. unfold parent. rewrite Z.quot_div_nonneg by lia.
  Z.to_euclidean_division_equations. lia.
Qed.

Lemma parent_left (i : Z) : 0 <= i -> parent (2 * i + 1) = i.
Proof.
  intros Hi. unfold parent. rewrite Z.quot_div_nonneg by lia.
  Z.to_euclidean_division_equations. lia.
Qed.

Lemma parent_right (i : Z) : 0 <= i -> parent (2 * i + 1 + 1) = i.
Proof.
  intros Hi. unfold parent. rewrite Z.quot_div_nonneg by lia.
  Z.to_euclidean_division_equations. lia.
Qed.

Lemma parent_zero : parent 0 = 0.
Proof. reflexivity. Qed.

Lemma parent_nonpos (j : Z) : j <= 0 -> j <= parent j.
Proof.
  intros Hj. unfold parent.
  destruct (Z.eq_dec j 0) as [->|]; [reflexivity|].
  pose proof (Z.quot_opp_l (1 - j) 2 ltac:(lia)) as Hq.
  replace (- (1 - j)) with (j - 1) in Hq by lia. rewrite Hq.
  rewrite Z.quot_div_nonneg by lia.
  Z.to_euclidean_division_equations. lia.
Qed.

(** ** The priority order *)

Lemma string_compare_refl (s : string) : String.compare s s = Eq.
Proof.
  induction s as [|a s IH]; simpl; [reflexivity|].
  unfold Ascii.compare. rewrite N.compare_refl. exact IH.
Qed.

Lemma string_compare_lt_trans (s1 s2 s3 : string) :
  String.compare s1 s2 = Lt -> String.compare s2 s3 = Lt ->
  String.compare s1 s3 = Lt.
Proof.
  revert s2 s3. induction s1 as [|a s1 IH]; intros [|b s2] [|c s3]; simpl;
    try congruence.
  unfold Ascii.compare.
  destruct (N.compare_spec (Ascii.N_of_ascii a) (Ascii.N_of_ascii b));
    destruct (N.compare_spec (Ascii.N_of_ascii b) (Ascii.N_of_ascii c));
    destruct (N.compare_spec (Ascii.N_of_ascii a) (Ascii.N_of_ascii c));
    try congruence; try lia; eauto.
Qed.

Lemma string_ltb_irrefl (s : string) : String.ltb s s = false.
Proof. unfold String.ltb. by rewrite string_compare_refl. Qed.

Lemma string_ltb_trans (s1 s2 s3 : string) :
  String.ltb s1 s2 = true -> String.ltb s2 s3 = true ->
  String.ltb s1 s3 = true.
Proof.
  unfold String.ltb. intros H1 H2.
  destruct (String.compare s1 s2) eqn:E1; try discriminate.
  destruct (String.compare s2 s3) eqn:E2; try discriminate.
  by rewrite (string_compare_lt_trans _ _ _ E1 E2).
Qed.

Lemma string_ltb_total (s1 s2 : string) :
  String.ltb s1 s2 = false -> String.ltb s2 s1 = false -> s1 = s2.
Proof.
  unfold String.ltb. rewrite (String.compare_antisym s1 s2).
  destruct (String.compare s2 s1) eqn:E; simpl; try discriminate.
  intros _ _. symmetry. by apply String.compare_eq_iff.
Qed.

Lemma string_ltb_asym (s1 s2 : string) :
  String.ltb s1 s2 = true -> String.ltb s2 s1 = false.
Proof.
  unfold String.ltb. rewrite (String.compare_antisym s1 s2).
  by destruct (String.compare s2 s1).
Qed.

(** The priority key of a transaction, and [txLess] as the lexicographic
    order on keys. *)
Lemma txLess_spec (a b : Tx) :
  txLess a b = true <->
  Fee b < Fee a
  \/ (Fee a = Fee b /\ Timestamp a < Timestamp b)
  \/ (Fee a = Fee b /\ Timestamp a = Timestamp b
      /\ String.ltb (ID a) (ID b) = true).
Proof.
  unfold txLess, Time_Equal, Time_Before.
  destruct (Z.eqb_spec (Fee a) (Fee b)); simpl.
  - destruct (Z.eqb_spec (Timestamp a) (Timestamp b)); simpl.
    + split; [tauto|]. intros [?|[[? ?]|(_ & _ & ?)]]; try lia; done.
    + rewrite Z.ltb_lt. split; [tauto|].
      intros [?|[[? ?]|(_ & ? & _)]]; try lia; done.
  - rewrite Z.ltb_lt. split; [tauto|]. intros [?|[[? ?]|(? & _)]]; lia.
Qed.

Lemma txLess_false (a b : Tx) :
  txLess a b = false <->
  Fee a < Fee b
  \/ (Fee a = Fee b /\ Timestamp b < Timestamp a)
  \/ (Fee a = Fee b /\ Timestamp a = Timestamp b
      /\ String.ltb (ID a) (ID b) = false).
Proof.
  rewrite <- not_true_iff_false, txLess_spec.
  destruct (String.ltb (ID a) (ID b)); split.
  - intros Hn.
    destruct (Z.lt_trichotomy (Fee a) (Fee b)) as [?|[?|?]]; [tauto| |tauto].
    destruct (Z.lt_trichotomy (Timestamp a) (Timestamp b)) as [?|[?|?]];
      tauto.
  - intros [?|[[? ?]|(? & ? & ?)]] [?|[[? ?]|(? & ? & ?)]]; try lia; done.
  - intros Hn.
    destruct (Z.lt_trichotomy (Fee a) (Fee b)) as [?|[?|?]]; [tauto| |tauto].
    destruct (Z.lt_trichotomy (Timestamp a) (Timestamp b)) as [?|[?|?]];
      tauto.
  - intros [?|[[? ?]|(? & ? & ?)]] [?|[[? ?]|(? & ? & ?)]]; try lia; done.
Qed.

Lemma txLess_irrefl (a : Tx) : txLess a a = false.
Proof.
  apply txLess_false. right; right. by rewrite string_ltb_irrefl.
Qed.

Lemma txLess_asym (a b : Tx) : txLess a b = true -> txLess b a = false.
Proof.
  rewrite txLess_spec, txLess_false.
  intros [?|[[? ?]|(? & ? & ?)]]; [tauto|right; left; lia|].
  right; right. repeat split; try lia. by apply string_ltb_asym.
Qed.

Lemma txLess_trans (a b c : Tx) :
  txLess a b = true -> txLess b c = true -> txLess a c = true.
Proof.
  rewrite !txLess_spec.
  intros [?|[[? ?]|(? & ? & H1)]] [?|[[? ?]|(? & ? & H2)]];
    try (left; lia); try (right; left; lia).
  right; right. repeat split; try lia. eapply string_ltb_trans; eauto.
Qed.

(** [txLess b a = false] reads "[a] is not after [b]"; it is transitive. *)
Lemma txGe_trans (a b c : Tx) :
  txLess b a = false -> txLess c b = false -> txLess c a = false.
Proof.
  rewrite !txLess_false.
  intros [?|[[? ?]|(? & ? & H1)]] [?|[[? ?]|(? & ? & H2)]];
    try (left; lia); try (right; left; lia).
  right; right. repeat split; try lia.
  destruct (String.ltb (ID c) (ID a)) eqn:E; [|done].
  destruct (String.ltb (ID a) (ID b)) eqn:E2.
  - by rewrite (string_ltb_trans _ _ _ E E2) in H2.
  - pose proof (string_ltb_total _ _ H1 E2) as Heq. congruence.
Qed.

Lemma txLess_ge_trans (a b c : Tx) :
  txLess a b = true -> txLess c b = false -> txLess c a = false.
Proof.
  intros H1 H2. eapply txGe_trans; [|exact H2]. by apply txLess_asym.
Qed.

Lemma txLess_total (a b : Tx) :
  ID a <> ID b -> txLess a b = false -> txLess b a = true.
Proof.
  intros Hne. rewrite txLess_false, txLess_spec.
  intros [?|[[? ?]|(? & ? & H)]]; [tauto|right; left; lia|].
  right; right. repeat split; try lia.
  destruct (String.ltb (ID b) (ID a)) eqn:E; [done|].
  exfalso. apply Hne. by apply string_ltb_total.
Qed.

(** ** Slices indexed by Go integers *)

Lemma zlookup_Some {A} (l : list A) (i : Z) (x : A) :
  zlookup l i = Some x -> 0 <= i < Z.of_nat (length l).
Proof.
  unfold zlookup. destruct (Z.ltb_spec i 0); [done|].
  intros Hl. apply lookup_lt_Some in Hl. lia.
Qed.

Lemma zlookup_is_Some {A} (l : list A) (i : Z) :
  0 <= i < Z.of_nat (length l) -> is_Some (zlookup l i).
Proof.
  intros Hi. unfold zlookup. destruct (Z.ltb_spec i 0); [lia|].
  apply lookup_lt_is_Some. lia.
Qed.

Lemma zlookup_None {A} (l : list A) (i : Z) :
  ~ 0 <= i < Z.of_nat (length l) -> zlookup l i = None.
Proof.
  intros Hi. destruct (zlookup l i) eqn:E; [|done].
  apply zlookup_Some in E. lia.
Qed.

Lemma zlookup_of_nat {A} (l : list A) (k : nat) :
  zlookup l (Z.of_nat k) = l !! k.
Proof.
  unfold zlookup. destruct (Z.ltb_spec (Z.of_nat k) 0); [lia|].
  by rewrite Nat2Z.id.
Qed.

Lemma zlookup_fmap {A B} (f : A -> B) (l : list A) (i : Z) :
  zlookup (f <$> l) i = f <$> zlookup l i.
Proof. unfold zlookup. destruct (i <? 0); [done|]. apply list_lookup_fmap. Qed.

Lemma zlookup_ext {A} (l1 l2 : list A) :
  (forall i, zlookup l1 i = zlookup l2 i) -> l1 = l2.
Proof.
  intros H. apply list_eq. intros k. rewrite <- !zlookup_of_nat. apply H.
Qed.

Lemma swap_list_length {A} (l : list A) (i j : Z) :
  length (swap_list l i j) = length l.
Proof.
  unfold swap_list. destruct (zlookup l i), (zlookup l j); try done.
  by rewrite !length_insert.
Qed.

Lemma zlookup_swap {A} (l : list A) (i j k : Z) :
  0 <= i < Z.of_nat (length l) -> 0 <= j < Z.of_nat (length l) ->
  zlookup (swap_list l i j) k =
  if decide (k = i) then zlookup l j
  else if decide (k = j) then zlookup l i else zlookup l k.
Proof.
  intros Hi Hj.
  destruct (decide (0 <= k < Z.of_nat (length l))) as [Hk|Hk]; last first.
  { rewrite zlookup_None by (rewrite swap_list_length; lia).
    repeat case_decide; try lia. by rewrite zlookup_None. }
  unfold swap_list.
  destruct (zlookup_is_Some l i Hi) as [a Ha].
  destruct (zlookup_is_Some l j Hj) as [b Hb].
  rewrite Ha, Hb. unfold zlookup in *.
  destruct (Z.ltb_spec i 0); [lia|]. destruct (Z.ltb_spec j 0); [lia|].
  destruct (Z.ltb_spec k 0); [lia|].
  destruct (decide (k = i)) as [->|Hki].
  - rewrite list_lookup_insert_eq; [done|]. rewrite length_insert. lia.
  - rewrite list_lookup_insert_ne by lia.
    destruct (decide (k = j)) as [->|Hkj].
    + rewrite list_lookup_insert_eq; [done|lia].
    + by rewrite list_lookup_insert_ne by lia.
Qed.

Lemma swap_list_perm {A} (l : list A) (i j : Z) : swap_list l i j ≡ₚ l.
Proof.
  unfold swap_list.
  destruct (zlookup l i) as [a|] eqn:Ha; [|done].
  destruct (zlookup l j) as [b|] eqn:Hb; [|done].
  pose proof (zlookup_Some _ _ _ Ha). pose proof (zlookup_Some _ _ _ Hb).
  unfold zlookup in Ha, Hb.
  destruct (Z.ltb_spec i 0); [lia|]. destruct (Z.ltb_spec j 0); [lia|].
  destruct (decide (Z.to_nat i = Z.to_nat j)) as [Heq|Hne].
  - rewrite Heq in *. rewrite list_insert_insert_eq.
    rewrite list_insert_id; [done|congruence].
  - apply Permutation_insert_swap; done.
Qed.

Lemma at_swap (l : list Tx) (i j k : Z) :
  0 <= i < Z.of_nat (length l) -> 0 <= j < Z.of_nat (length l) ->
  at_ (swap_list l i j) k =
  if decide (k = i) then at_ l j
  else if decide (k = j) then at_ l i else at_ l k.
Proof.
  intros Hi Hj. unfold at_. rewrite zlookup_swap by done.
  by repeat case_decide.
Qed.

Lemma Less_list_at (l : list Tx) (i j : Z) :
  0 <= i < Z.of_nat (length l) -> 0 <= j < Z.of_nat (length l) ->
  heap.Less l i j = txLess (at_ l i) (at_ l j).
Proof.
  intros Hi Hj. simpl. unfold at_.
  destruct (zlookup_is_Some l i Hi) as [a ->].
  by destruct (zlookup_is_Some l j Hj) as [b ->].
Qed.

(** ** [container/heap] on a plain sequence of transactions *)

Lemma up_loop_S {H X} `{!heap.Interface H X} (f : nat) (h : H) (j : Z) :
  heap.up_loop (S f) h j =
  if (parent j =? j) || negb (heap.Less h j (parent j)) then h
  else heap.up_loop f (heap.Swap h (parent j) j) (parent j).
Proof. reflexivity. Qed.

Lemma down_loop_S {H X} `{!heap.Interface H X} (f : nat) (h : H) (i n : Z) :
  heap.down_loop (S f) h i n =
  if (n <=? 2 * i + 1) || (2 * i + 1 <? 0) then (h, i)
  else
    let j := if (2 * i + 1 + 1 <? n) && heap.Less h (2 * i + 1 + 1) (2 * i + 1)
             then 2 * i + 1 + 1 else 2 * i + 1 in
    if negb (heap.Less h j i) then (h, i)
    else heap.down_loop f (heap.Swap h i j) j n.
Proof. reflexivity. Qed.

Lemma up_loop_list (fuel : nat) : forall (l : list Tx) (j n : Z),
  0 <= j < n -> n <= Z.of_nat (length l) -> (Z.to_nat j < fuel)%nat ->
  up_pre l n j ->
  heap_upto (heap.up_loop fuel l j) n
  /\ length (heap.up_loop fuel l j) = length l
  /\ heap.up_loop fuel l j ≡ₚ l
  /\ (forall k, j < k -> zlookup (heap.up_loop fuel l j) k = zlookup l k).
Proof.
  induction fuel as [|f IH]; intros l j n Hj Hn Hf [Hedges Hgrand]; [lia|].
  rewrite up_loop_S.
  destruct (Z.eqb_spec (parent j) j) as [Heq|Hneq]; cbn [orb].
  { assert (j = 0) as -> by (pose proof (parent_bounds j); lia).
    repeat split; try done. intros c Hc. apply Hedges; lia. }
  assert (0 < j) as Hpos.
  { destruct (decide (j = 0)) as [->|]; [by rewrite parent_zero in Hneq|lia]. }
  pose proof (parent_bounds j Hpos) as Hpj.
  rewrite Less_list_at by lia.
  destruct (txLess (at_ l j) (at_ l (parent j))) eqn:HL; cbn [negb]; last first.
  { repeat split; try done. intros c Hc.
    destruct (decide (c = j)) as [->|]; [exact HL|by apply Hedges]. }
  set (i := parent j) in *.
  assert (up_pre (swap_list l i j) n i) as Hpre.
  { split.
    - intros c Hc Hci. unfold edge_ok.
      pose proof (parent_bounds c ltac:(lia)) as Hpc.
      rewrite !at_swap by lia.
      destruct (decide (c = j)) as [->|Hcj].
      + repeat case_decide; try lia. by apply txLess_asym.
      + rewrite (decide_False (P := c = i)) by done.
        destruct (decide (parent c = i)) as [Hp|Hp].
        * eapply txLess_ge_trans; [exact HL|].
          rewrite <- Hp. apply Hedges; lia.
        * destruct (decide (parent c = j)) as [Hp'|Hp'].
          -- apply Hgrand; [lia|lia|done].
          -- apply Hedges; lia.
    - intros Hi c Hc Hp.
      pose proof (parent_bounds i Hi) as Hpi.
      pose proof (parent_bounds c ltac:(lia)) as Hpc.
      rewrite !at_swap by lia.
      repeat case_decide; try lia.
      + apply Hedges; lia.
      + eapply txGe_trans; [apply (Hedges i); lia|].
        rewrite <- Hp. apply Hedges; lia. }
  change (heap.Swap l i j) with (swap_list l i j).
  destruct (IH (swap_list l i j) i n) as (H1 & H2 & H3 & H4);
    [lia|by rewrite swap_list_length|lia|done|].
  repeat split; [done| | |].
  - by rewrite H2, swap_list_length.
  - by rewrite H3, swap_list_perm.
  - intros k Hk. rewrite H4 by lia. rewrite zlookup_swap by lia.
    by rewrite !decide_False by lia.
Qed.

Lemma down_loop_list (fuel : nat) : forall (l : list Tx) (i n : Z),
  0 <= i -> n <= Z.of_nat (length l) -> (Z.to_nat (n - i) < fuel)%nat ->
  hole l n i ->
  forall l' i', heap.down_loop fuel l i n = (l', i') ->
  length l' = length l /\ l' ≡ₚ l
  /\ (forall k, k < i \/ n <= k -> zlookup l' k = zlookup l k)
  /\ ((i' = i /\ l' = l
       /\ forall c, 0 < c < n -> parent c = i -> edge_ok l c)
      \/ (i < i' /\ heap_upto l' n
          /\ forall x,
               (forall c, 0 < c < n -> parent c = i ->
                          txLess (at_ l c) x = false) ->
               txLess (at_ l' i) x = false)).
Proof.
  induction fuel as [|f IH]; intros l i n Hi Hn Hf [Hedges Hgrand] l' i' Heq;
    [lia|].
  rewrite down_loop_S in Heq.
  destruct ((n <=? 2 * i + 1) || (2 * i + 1 <? 0)) eqn:Hbrk.
  { inversion Heq; subst l' i'. repeat split; try done. left.
    repeat split; try done. intros c Hc Hp.
    pose proof (parent_child c ltac:(lia)). lia. }
  apply orb_false_iff in Hbrk as [Hb1 Hb2].
  apply Z.leb_gt in Hb1. clear Hb2.
  set (j1 := 2 * i + 1) in *. cbv zeta in Heq.
  set (j := if (j1 + 1 <? n) && heap.Less l (j1 + 1) j1 then j1 + 1 else j1)
    in *.
  assert (i < j < n /\ parent j = i
          /\ forall c, 0 < c < n -> parent c = i ->
                       txLess (at_ l c) (at_ l j) = false)
    as (Hj & Hpj & Hmax).
  { subst j. destruct (Z.ltb_spec (j1 + 1) n) as [Hlt|Hge]; cbn [andb].
    - rewrite Less_list_at by lia.
      destruct (txLess (at_ l (j1 + 1)) (at_ l j1)) eqn:HL.
      + split; [lia|]. split; [apply parent_right; lia|].
        intros c Hc Hp. pose proof (parent_child c ltac:(lia)).
        destruct (decide (c = j1)) as [->|]; [by apply txLess_asym|].
        replace c with (j1 + 1) by lia. apply txLess_irrefl.
      + split; [lia|]. split; [apply parent_left; lia|].
        intros c Hc Hp. pose proof (parent_child c ltac:(lia)).
        destruct (decide (c = j1)) as [->|]; [apply txLess_irrefl|].
        by replace c with (j1 + 1) by lia.
    - split; [lia|]. split; [apply parent_left; lia|].
      intros c Hc Hp. pose proof (parent_child c ltac:(lia)).
      replace c with j1 by lia. apply txLess_irrefl. }
  clearbody j. rewrite Less_list_at in Heq by lia.
  destruct (txLess (at_ l j) (at_ l i)) eqn:HL; cbn [negb] in Heq; last first.
  { inversion Heq; subst l' i'. repeat split; try done. left.
    repeat split; try done. intros c Hc Hp. unfold edge_ok. rewrite Hp.
    eapply txGe_trans; [exact HL|]. by apply Hmax. }
  change (heap.Swap l i j) with (swap_list l i j) in Heq.
  assert (forall c, 0 < c < n -> c <> j -> parent c <> j ->
                    edge_ok (swap_list l i j) c) as Hhole1.
  { intros c Hc Hcj Hpc. unfold edge_ok.
    pose proof (parent_bounds c ltac:(lia)) as Hbc.
    rewrite !at_swap by lia.
    destruct (decide (c = i)) as [->|Hci].
    - repeat case_decide; try lia. apply Hgrand; [lia|lia|done].
    - repeat case_decide; try lia.
      + by apply Hmax.
      + by apply Hedges. }
  assert (hole (swap_list l i j) n j) as Hhole.
  { split; [exact Hhole1|]. intros Hj0 c Hc Hp.
    pose proof (parent_bounds c ltac:(lia)) as Hbc.
    rewrite Hpj. rewrite !at_swap by lia.
    repeat case_decide; try lia.
    rewrite <- Hp. apply Hedges; lia. }
  destruct (IH (swap_list l i j) j n ltac:(lia)
              ltac:(by rewrite swap_list_length) ltac:(lia) Hhole l' i' Heq)
    as (H1 & H2 & H3 & H4).
  assert (at_ l' i = at_ l j) as Hati.
  { unfold at_ at 1. rewrite H3 by lia. fold (at_ (swap_list l i j) i).
    rewrite at_swap by lia. by rewrite decide_True. }
  repeat split.
  - by rewrite H1, swap_list_length.
  - by rewrite H2, swap_list_perm.
  - intros k Hk. rewrite H3 by lia. rewrite zlookup_swap by lia.
    by rewrite !decide_False by lia.
  - right. split; [destruct H4 as [(-> & _)|(? & _)]; lia|]. split.
    + destruct H4 as [(_ & -> & Hch)|(_ & Hh & _)]; [|done].
      intros c Hc.
      destruct (decide (c = j)) as [->|Hcj].
      * unfold edge_ok. rewrite Hpj, !at_swap by lia.
        repeat case_decide; try lia. by apply txLess_asym.
      * destruct (decide (parent c = j)); [by apply Hch|by apply Hhole1].
    + intros x Hx. rewrite Hati. apply Hx; [lia|done].
Qed.

Lemma at_ext (l1 l2 : list Tx) (k : Z) :
  zlookup l1 k = zlookup l2 k -> at_ l1 k = at_ l2 k.
Proof. unfold at_. by intros ->. Qed.

Lemma up_list (l : list Tx) (j n : Z) :
  0 <= j < n -> n <= Z.of_nat (length l) -> up_pre l n j ->
  heap_upto (heap.up l j) n
  /\ length (heap.up l j) = length l
  /\ heap.up l j ≡ₚ l
  /\ (forall k, j < k -> zlookup (heap.up l j) k = zlookup l k).
Proof. intros. apply up_loop_list with (n := n); try done. lia. Qed.

Lemma down_list (l : list Tx) (i n : Z) (l' : list Tx) (moved : bool) :
  0 <= i -> n <= Z.of_nat (length l) -> hole l n i ->
  heap.down l i n = (l', moved) ->
  length l' = length l /\ l' ≡ₚ l
  /\ (forall k, k < i \/ n <= k -> zlookup l' k = zlookup l k)
  /\ ((moved = false /\ l' = l
       /\ forall c, 0 < c < n -> parent c = i -> edge_ok l c)
      \/ (moved = true /\ heap_upto l' n)).
Proof.
  intros Hi Hn Hh. unfold heap.down.
  destruct (heap.down_loop (S (Z.to_nat (n - i))) l i n) as [l1 i1] eqn:E.
  intros [= <- <-].
  destruct (down_loop_list (S (Z.to_nat (n - i))) l i n Hi Hn ltac:(lia)
              Hh _ _ E)
    as (H1 & H2 & H3 & H4).
  repeat split; try done.
  destruct H4 as [(-> & -> & H4)|(Hlt & H4 & _)].
  - left. by rewrite Z.ltb_irrefl.
  - right. split; [by apply Z.ltb_lt|done].
Qed.

(** [if !down(h, i, n) { up(h, i) }], the repair step shared by [Fix] and
    [Remove]. *)
Lemma down_up_list (l : list Tx) (i n : Z) (l' : list Tx) (moved : bool) :
  0 <= i < n -> n <= Z.of_nat (length l) -> hole l n i ->
  heap.down l i n = (l', moved) ->
  let r := if negb moved then heap.up l' i else l' in
  heap_upto r n /\ length r = length l /\ r ≡ₚ l
  /\ (forall k, n <= k -> zlookup r k = zlookup l k).
Proof.
  intros Hi Hn Hh Hd.
  destruct (down_list l i n l' moved ltac:(lia) Hn Hh Hd)
    as (H1 & H2 & H3 & [(-> & -> & Hch)|(-> & Hheap)]); cbn [negb].
  - assert (up_pre l n i) as Hpre.
    { destruct Hh as [Hedges Hgrand]. split; [|done]. intros c Hc Hci.
      destruct (decide (parent c = i)); [by apply Hch|by apply Hedges]. }
    destruct (up_list l i n Hi Hn Hpre) as (U1 & U2 & U3 & U4).
    repeat split; try done. intros k Hk. apply U4. lia.
  - repeat split; try done. intros k Hk. apply H3. lia.
Qed.

Lemma heap_root_max (l : list Tx) (n : Z) :
  heap_upto l n -> forall k, 0 <= k -> k < n ->
  txLess (at_ l k) (at_ l 0) = false.
Proof.
  intros Hh k Hk. pattern k. apply Wf_Z.Zlt_0_ind; [|done].
  clear k Hk. intros k IH Hk Hkn.
  destruct (decide (k = 0)) as [->|Hk0]; [apply txLess_irrefl|].
  pose proof (parent_bounds k ltac:(lia)) as Hp.
  eapply txGe_trans; [apply (IH (parent k)); lia|]. apply Hh. lia.
Qed.

Lemma at_take (l : list Tx) (n c : Z) :
  0 <= c < n -> at_ (take (Z.to_nat n) l) c = at_ l c.
Proof.
  intros Hc. unfold at_, zlookup. destruct (Z.ltb_spec c 0); [lia|].
  by rewrite lookup_take_lt by lia.
Qed.

Lemma heap_upto_take (l : list Tx) (n : Z) :
  0 <= n <= Z.of_nat (length l) -> heap_upto l n ->
  heap_ordered (take (Z.to_nat n) l).
Proof.
  intros Hn Hh c Hc. rewrite length_take in Hc.
  pose proof (parent_bounds c ltac:(lia)).
  unfold edge_ok. rewrite !at_take by lia. apply Hh. lia.
Qed.

Lemma at_elem (l : list Tx) (x : Tx) :
  x ∈ l -> exists k, 0 <= k < Z.of_nat (length l) /\ at_ l k = x.
Proof.
  intros [k Hk]%list_elem_of_lookup. exists (Z.of_nat k).
  pose proof (lookup_lt_Some _ _ _ Hk). split; [lia|].
  unfold at_. by rewrite zlookup_of_nat, Hk.
Qed.

Lemma take_last_split {A} (l : list A) (n : Z) (x : A) :
  Z.of_nat (length l) = n + 1 -> zlookup l n = Some x ->
  l = take (Z.to_nat n) l ++ [x].
Proof.
  intros Hlen Hx. rewrite <- (take_drop (Z.to_nat n) l) at 1. f_equal.
  unfold zlookup in Hx. destruct (Z.ltb_spec n 0); [done|].
  apply list_eq. intros [|k]; simpl.
  - by rewrite lookup_drop, Nat.add_0_r.
  - rewrite lookup_drop. apply lookup_ge_None. lia.
Qed.

Lemma HPush_list (l : list Tx) (x : Tx) :
  heap_ordered l ->
  heap_ordered (heap.HPush l x) /\ heap.HPush l x ≡ₚ x :: l.
Proof.
  intros Hh. unfold heap.HPush.
  change (heap.Push l x) with (l ++ [x]).
  change (heap.Len (l ++ [x])) with (Z.of_nat (length (l ++ [x]))).
  rewrite length_app. cbn [length].
  replace (Z.of_nat (length l + 1) - 1) with (Z.of_nat (length l)) by lia.
  assert (up_pre (l ++ [x]) (Z.of_nat (length l) + 1) (Z.of_nat (length l)))
    as Hpre.
  { split.
    - intros c Hc Hne. unfold edge_ok.
      pose proof (parent_bounds c ltac:(lia)).
      assert (forall k, 0 <= k < Z.of_nat (length l) ->
                        at_ (l ++ [x]) k = at_ l k) as Hat.
      { intros k Hk. unfold at_, zlookup. destruct (Z.ltb_spec k 0); [lia|].
        by rewrite lookup_app_l by lia. }
      rewrite !Hat by lia. apply Hh. lia.
    - intros _ c Hc Hp. pose proof (parent_child c ltac:(lia)). lia. }
  destruct (up_list (l ++ [x]) (Z.of_nat (length l))
              (Z.of_nat (length l) + 1) ltac:(lia)
              ltac:(rewrite length_app; simpl; lia) Hpre)
    as (U1 & U2 & U3 & _).
  split.
  - intros c Hc. apply U1. rewrite U2, length_app in Hc. simpl in Hc. lia.
  - rewrite U3. by rewrite Permutation_app_comm.
Qed.

Lemma HPop_list (l : list Tx) :
  heap_ordered l -> l <> [] ->
  exists l' x, heap.HPop l = Some (l', x)
    /\ heap_ordered l' /\ l ≡ₚ x :: l' /\ zlookup l 0 = Some x
    /\ forall y, y ∈ l -> txLess y x = false.
Proof.
  intros Hh Hne. unfold heap.HPop.
  change (heap.Len l) with (Z.of_nat (length l)).
  remember (Z.of_nat (length l) - 1) as n eqn:Hn.
  assert (0 <= n) as Hn0 by (destruct l; [done|simpl in *; lia]).
  change (heap.Swap l 0 n) with (swap_list l 0 n).
  destruct (heap.down (swap_list l 0 n) 0 n) as [l1 moved] eqn:Hd.
  cbn [fst].
  assert (hole (swap_list l 0 n) n 0) as Hhole.
  { split; [|intros ?; lia]. intros c Hc _ Hp. unfold edge_ok.
    pose proof (parent_bounds c ltac:(lia)).
    rewrite !at_swap by lia. repeat case_decide; try lia. apply Hh. lia. }
  destruct (down_list (swap_list l 0 n) 0 n l1 moved ltac:(lia)
              ltac:(rewrite swap_list_length; lia) Hhole Hd)
    as (H1 & H2 & H3 & H4).
  rewrite swap_list_length in H1.
  destruct (zlookup_is_Some l 0 ltac:(lia)) as [x Hx].
  assert (zlookup l1 n = Some x) as Hl1n.
  { rewrite H3 by lia. rewrite zlookup_swap by lia.
    destruct (decide (n = 0)) as [->|]; [done|]. by rewrite decide_True. }
  exists (take (Z.to_nat n) l1), x.
  change (heap.Pop l1) with
    (match zlookup l1 (Z.of_nat (length l1) - 1) with
     | None => None
     | Some x => Some (take (Z.to_nat (Z.of_nat (length l1) - 1)) l1, x)
     end).
  rewrite H1, <- Hn, Hl1n. split; [done|].
  assert (heap_upto l1 n) as Hup.
  { destruct H4 as [(_ & -> & Hch)|(_ & Hup)]; [|done].
    intros c Hc. destruct (decide (parent c = 0)); [by apply Hch|].
    apply Hhole; [done|lia|done]. }
  split; [apply heap_upto_take; [lia|done]|].
  split.
  { rewrite (Permutation_cons_append (take (Z.to_nat n) l1) x).
    rewrite <- (take_last_split l1 n x) by (done || lia).
    by rewrite H2, swap_list_perm. }
  split; [done|].
  intros y Hy. destruct (at_elem l y Hy) as (k & Hk & <-).
  replace x with (at_ l 0) by (unfold at_; by rewrite Hx).
  apply (heap_root_max l (Z.of_nat (length l))); [done|lia|lia].
Qed.

Lemma Pop_list (l : list Tx) (n : Z) (x : Tx) :
  Z.of_nat (length l) = n + 1 -> zlookup l n = Some x ->
  heap.Pop l = Some (take (Z.to_nat n) l, x).
Proof.
  intros Hlen Hx.
  change (heap.Pop l) with
    (match zlookup l (Z.of_nat (length l) - 1) with
     | None => None
     | Some x => Some (take (Z.to_nat (Z.of_nat (length l) - 1)) l, x)
     end).
  replace (Z.of_nat (length l) - 1) with n by lia. by rewrite Hx.
Qed.

Lemma Remove_list (l : list Tx) (i : Z) :
  heap_ordered l -> 0 <= i < Z.of_nat (length l) ->
  exists l' x, heap.Remove l i = Some (l', x)
    /\ zlookup l i = Some x /\ heap_ordered l' /\ l ≡ₚ x :: l'.
Proof.
  intros Hh Hi. unfold heap.Remove.
  change (heap.Len l) with (Z.of_nat (length l)).
  remember (Z.of_nat (length l) - 1) as n eqn:Hn.
  destruct (zlookup_is_Some l i Hi) as [x Hx].
  destruct (Z.eqb_spec n i) as [->|Hne]; cbn [negb].
  - exists (take (Z.to_nat i) l), x.
    rewrite (Pop_list l i x) by (done || lia).
    repeat split; try done.
    + apply heap_upto_take; [lia|]. intros c Hc. apply Hh. lia.
    + rewrite (Permutation_cons_append (take (Z.to_nat i) l) x).
      by rewrite <- (take_last_split l i x) by (done || lia).
  - change (heap.Swap l i n) with (swap_list l i n).
    destruct (heap.down (swap_list l i n) i n) as [l1 moved] eqn:Hd.
    assert (hole (swap_list l i n) n i) as Hhole.
    { split.
      - intros c Hc Hci Hp. unfold edge_ok.
        pose proof (parent_bounds c ltac:(lia)).
        rewrite !at_swap by lia. repeat case_decide; try lia.
        apply Hh. lia.
      - intros Hi0 c Hc Hp.
        pose proof (parent_bounds c ltac:(lia)).
        pose proof (parent_bounds i ltac:(lia)).
        rewrite !at_swap by lia. repeat case_decide; try lia.
        eapply txGe_trans; [apply (Hh i); lia|].
        rewrite <- Hp. apply Hh. lia. }
    destruct (down_up_list (swap_list l i n) i n l1 moved ltac:(lia)
                ltac:(rewrite swap_list_length; lia) Hhole Hd)
      as (R1 & R2 & R3 & R4).
    set (r := if negb moved then heap.up l1 i else l1) in *.
    rewrite swap_list_length in R2.
    assert (zlookup r n = Some x) as Hrn.
    { rewrite R4 by lia. rewrite zlookup_swap by lia.
      rewrite decide_False by lia. by rewrite decide_True. }
    exists (take (Z.to_nat n) r), x.
    rewrite (Pop_list r n x) by (done || lia).
    repeat split; try done.
    + apply heap_upto_take; [lia|done].
    + rewrite (Permutation_cons_append (take (Z.to_nat n) r) x).
      rewrite <- (take_last_split r n x) by (done || lia).
      by rewrite R3, swap_list_perm.
Qed.

Lemma hole_insert (l : list Tx) (i : Z) (t : Tx) :
  heap_ordered l -> 0 <= i < Z.of_nat (length l) ->
  hole (<[Z.to_nat i := t]> l) (Z.of_nat (length l)) i.
Proof.
  intros Hh Hi.
  assert (forall k, k <> i -> at_ (<[Z.to_nat i := t]> l) k = at_ l k) as Hat.
  { intros k Hk. unfold at_, zlookup. destruct (Z.ltb_spec k 0); [done|].
    by rewrite list_lookup_insert_ne by lia. }
  split.
  - intros c Hc Hci Hp. unfold edge_ok. rewrite !Hat by done. by apply Hh.
  - intros Hi0 c Hc Hp.
    pose proof (parent_bounds c ltac:(lia)).
    pose proof (parent_bounds i ltac:(lia)).
    rewrite !Hat by lia.
    eapply txGe_trans; [apply (Hh i); lia|].
    rewrite <- Hp. by apply Hh.
Qed.

Lemma Fix_list (l : list Tx) (i : Z) :
  0 <= i < Z.of_nat (length l) -> hole l (Z.of_nat (length l)) i ->
  heap_ordered (heap.Fix l i) /\ heap.Fix l i ≡ₚ l.
Proof.
  intros Hi Hh. unfold heap.Fix.
  change (heap.Len l) with (Z.of_nat (length l)).
  destruct (heap.down l i (Z.of_nat (length l))) as [l1 moved] eqn:Hd.
  destruct (down_up_list l i _ l1 moved Hi ltac:(lia) Hh Hd)
    as (R1 & R2 & R3 & _).
  split; [|done]. unfold heap_ordered. by rewrite R2.
Qed.

(** ** Simulation between two implementations of [heap.Interface] *)

Section Simulation.
Context {H1 X1 H2 X2 : Type}.
Context `{!heap.Interface H1 X1} `{!heap.Interface H2 X2}.
Variable abs : H1 -> H2.
Hypothesis abs_Less : forall h i j, heap.Less (abs h) i j = heap.Less h i j.
Hypothesis abs_Swap :
  forall h i j, abs (heap.Swap h i j) = heap.Swap (abs h) i j.

Lemma up_loop_sim (f : nat) (h : H1) (j : Z) :
  abs (heap.up_loop f h j) = heap.up_loop f (abs h) j.
Proof.
  revert h j. induction f as [|f IH]; intros h j; [done|].
  rewrite !up_loop_S, abs_Less.
  destruct ((parent j =? j) || negb (heap.Less h j (parent j))); [done|].
  by rewrite IH, abs_Swap.
Qed.

Lemma up_sim (h : H1) (j : Z) : abs (heap.up h j) = heap.up (abs h) j.
Proof. apply up_loop_sim. Qed.

Lemma down_loop_sim (f : nat) (h : H1) (i n : Z) :
  heap.down_loop f (abs h) i n =
  (abs (heap.down_loop f h i n).1, (heap.down_loop f h i n).2).
Proof.
  revert h i. induction f as [|f IH]; intros h i; [done|].
  rewrite !down_loop_S.
  destruct ((n <=? 2 * i + 1) || (2 * i + 1 <? 0)); [done|].
  cbv zeta. rewrite !abs_Less.
  destruct (negb (heap.Less h _ i)); [done|].
  by rewrite <- abs_Swap, IH.
Qed.

Lemma down_sim (h : H1) (i n : Z) :
  heap.down (abs h) i n = (abs (heap.down h i n).1, (heap.down h i n).2).
Proof.
  unfold heap.down. rewrite down_loop_sim.
  by destruct (heap.down_loop _ h i n).
Qed.

End Simulation.

(** ** Properties kept by the swaps [up] and [down] perform

    [up h j] only swaps positions [a < b <= j]; [down h i n] only swaps
    positions [i <= a < b < n]. *)

Section Preservation.
Context {H X : Type} `{!heap.Interface H X}.
Variable P : H -> Prop.
Variables lo hi : Z.
Hypothesis P_Swap :
  forall h a b, lo <= a -> a < b -> b < hi -> P h -> P (heap.Swap h a b).

Lemma up_loop_pres (f : nat) (h : H) (j : Z) :
  lo <= 0 -> 0 <= j < hi -> P h -> P (heap.up_loop f h j).
Proof.
  intros Hlo. revert h j. induction f as [|f IH]; intros h j Hj Hh; [done|].
  rewrite up_loop_S.
  destruct (Z.eqb_spec (parent j) j) as [|Hne]; [done|]. cbn [orb].
  destruct (negb (heap.Less h j (parent j))); [done|].
  assert (0 < j) as Hpos.
  { destruct (decide (j = 0)) as [->|]; [by rewrite parent_zero in Hne|lia]. }
  pose proof (parent_bounds j Hpos).
  apply IH; [lia|]. apply P_Swap; (done || lia).
Qed.

Lemma down_loop_pres (f : nat) (h : H) (i n : Z) :
  lo <= i -> n <= hi -> P h -> P (heap.down_loop f h i n).1.
Proof.
  intros Hi Hn. revert h i Hi.
  induction f as [|f IH]; intros h i Hi Hh; [done|].
  rewrite down_loop_S.
  destruct ((n <=? 2 * i + 1) || (2 * i + 1 <? 0)) eqn:Hbrk; [done|].
  apply orb_false_iff in Hbrk as [Hb1 Hb2].
  apply Z.leb_gt in Hb1. apply Z.ltb_ge in Hb2.
  cbv zeta.
  set (j := if (2 * i + 1 + 1 <? n) && _ then _ else _).
  assert (i < j < n) as Hj.
  { subst j. destruct (Z.ltb_spec (2 * i + 1 + 1) n); cbn [andb];
      [destruct (heap.Less h _ _)|]; lia. }
  clearbody j.
  destruct (negb (heap.Less h j i)); [done|].
  apply IH; [lia|]. apply P_Swap; (done || lia).
Qed.

Lemma down_pres (h : H) (i n : Z) :
  lo <= i -> n <= hi -> P h -> P (heap.down h i n).1.
Proof.
  intros Hi Hn Hh. unfold heap.down.
  pose proof (down_loop_pres (S (Z.to_nat (n - i))) h i n Hi Hn Hh).
  by destruct (heap.down_loop _ h i n).
Qed.

End Preservation.

(** ** The heap slice and the sequence it denotes *)

Lemma tx_load_alter_index (m : gmap addr txRecord) (i : Z) (q p : addr) :
  tx (alter (set_index i) q m !!! p) = tx (m !!! p).
Proof.
  rewrite !lookup_total_alt.
  destruct (decide (q = p)) as [->|Hne].
  - rewrite lookup_alter_eq. by destruct (m !! p).
  - by rewrite lookup_alter_ne.
Qed.

Lemma heap_txs_length (h : txHeap) :
  length (heap_txs h) = length (elems h).
Proof. apply length_fmap. Qed.

Lemma heap_txs_Less (h : txHeap) (i j : Z) :
  heap.Less (heap_txs h) i j = heap.Less h i j.
Proof.
  simpl. unfold txHeap_Less, heap_txs. rewrite !zlookup_fmap.
  by destruct (zlookup (elems h) i), (zlookup (elems h) j).
Qed.

Lemma heap_txs_Swap (h : txHeap) (i j : Z) :
  heap_txs (heap.Swap h i j) = heap.Swap (heap_txs h) i j.
Proof.
  simpl. unfold txHeap_Swap, swap_list, heap_txs. rewrite !zlookup_fmap.
  destruct (zlookup (elems h) i) as [p|]; [|done].
  destruct (zlookup (elems h) j) as [q|]; [|done]. simpl.
  rewrite !list_fmap_insert. unfold load. simpl.
  rewrite !tx_load_alter_index. do 2 f_equal.
  apply list_fmap_ext. intros k p0 _. by rewrite !tx_load_alter_index.
Qed.

Lemma NoDup_zlookup {A} (l : list A) (i j : Z) (x : A) :
  NoDup l -> zlookup l i = Some x -> zlookup l j = Some x -> i = j.
Proof.
  intros Hnd Hi Hj.
  pose proof (zlookup_Some _ _ _ Hi). pose proof (zlookup_Some _ _ _ Hj).
  unfold zlookup in *.
  destruct (Z.ltb_spec i 0); [lia|]. destruct (Z.ltb_spec j 0); [lia|].
  pose proof (NoDup_lookup _ _ _ _ Hnd Hi Hj). lia.
Qed.

Lemma elems_Swap (h : txHeap) (i j : Z) :
  elems (heap.Swap h i j) = swap_list (elems h) i j.
Proof.
  simpl. unfold txHeap_Swap, swap_list.
  by destruct (zlookup (elems h) i), (zlookup (elems h) j).
Qed.

Lemma same_txs_refl (h : txHeap) : same_txs h h.
Proof. done. Qed.

Lemma same_txs_trans (h1 h2 h3 : txHeap) :
  same_txs h1 h2 -> same_txs h2 h3 -> same_txs h1 h3.
Proof.
  intros [D1 T1] [D2 T2]. split; [congruence|].
  intros p. by rewrite T2, T1.
Qed.

Lemma same_txs_Swap (h : txHeap) (i j : Z) : same_txs h (heap.Swap h i j).
Proof.
  simpl. unfold txHeap_Swap.
  destruct (zlookup (elems h) i), (zlookup (elems h) j); try done.
  split; simpl.
  - by rewrite !dom_alter_L.
  - intros p. unfold load. simpl. by rewrite !tx_load_alter_index.
Qed.

Lemma mem_ok_Swap (h : txHeap) (i j : Z) :
  mem_ok h -> mem_ok (heap.Swap h i j).
Proof.
  intros [Hnd Hidx]. split.
  { rewrite elems_Swap. by rewrite swap_list_perm. }
  intros k p0. rewrite elems_Swap.
  simpl. unfold txHeap_Swap, swap_list.
  destruct (zlookup (elems h) i) as [p|] eqn:Hp; [|by apply Hidx].
  destruct (zlookup (elems h) j) as [q|] eqn:Hq; [|by apply Hidx].
  pose proof (zlookup_Some _ _ _ Hp) as Hi.
  pose proof (zlookup_Some _ _ _ Hq) as Hj.
  fold (swap_list (elems h) i j).
  assert (swap_list (elems h) i j =
          <[Z.to_nat i:=q]> (<[Z.to_nat j:=p]> (elems h))) as <-.
  { unfold swap_list. by rewrite Hp, Hq. }
  rewrite zlookup_swap by done. cbn [recs].
  destruct (Hidx _ _ Hp) as (rp & Hrp & Hip).
  destruct (Hidx _ _ Hq) as (rq & Hrq & Hiq).
  destruct (decide (k = i)) as [->|Hki].
  - rewrite Hq. intros [= <-].
    destruct (decide (p = q)) as [->|Hpq].
    + assert (i = j) as -> by (eapply NoDup_zlookup; eauto).
      rewrite lookup_alter_eq, lookup_alter_eq, Hrq. by eexists.
    + rewrite lookup_alter_ne, lookup_alter_eq, Hrq by done. by eexists.
  - destruct (decide (k = j)) as [->|Hkj].
    + rewrite Hp. intros [= <-].
      assert (q <> p) as Hqp.
      { intros ->. apply Hki. eapply NoDup_zlookup; eauto. }
      rewrite lookup_alter_eq, lookup_alter_ne, Hrp by done. by eexists.
    + intros Hk.
      assert (p <> p0) by (intros ->; apply Hki; eapply NoDup_zlookup; eauto).
      assert (q <> p0) by (intros ->; apply Hkj; eapply NoDup_zlookup; eauto).
      rewrite !lookup_alter_ne by done. by apply Hidx.
Qed.

Lemma frame_refl (h : txHeap) (n : Z) : mem_ok h -> frame h n h.
Proof. intros Hm. split; [done|]. split; [done|]. by split. Qed.

Lemma frame_Swap (h0 : txHeap) (n : Z) (h : txHeap) (a b : Z) :
  0 <= a -> a < b -> b < n -> frame h0 n h -> frame h0 n (heap.Swap h a b).
Proof.
  intros Ha Hab Hb (Hm & Hs & Hp & Hk).
  split; [by apply mem_ok_Swap|]. split; [split|split].
  - destruct Hs as [Hs _], (same_txs_Swap h a b) as [Hs' _]. congruence.
  - intros p. destruct Hs as [_ Hs], (same_txs_Swap h a b) as [_ Hs'].
    by rewrite Hs', Hs.
  - by rewrite elems_Swap, swap_list_perm.
  - intros k Hnk. rewrite elems_Swap, <- Hk by done.
    destruct (decide (b < Z.of_nat (length (elems h)))) as [Hlen|Hlen].
    + rewrite zlookup_swap by lia. by rewrite !decide_False by lia.
    + unfold swap_list. rewrite (zlookup_None _ b) by lia.
      by destruct (zlookup (elems h) a).
Qed.

Lemma frame_up (h0 : txHeap) (n : Z) (h : txHeap) (j : Z) :
  0 <= j < n -> frame h0 n h -> frame h0 n (heap.up h j).
Proof.
  intros Hj Hf.
  apply (up_loop_pres (frame h0 n) 0 n); [|lia|done|done].
  intros. by apply frame_Swap.
Qed.

Lemma frame_down (h0 : txHeap) (n : Z) (h : txHeap) (i : Z) :
  0 <= i -> frame h0 n h -> frame h0 n (heap.down h i n).1.
Proof.
  intros Hi Hf.
  apply (down_pres (frame h0 n) 0 n); [|done|lia|done].
  intros. by apply frame_Swap.
Qed.

Lemma heap_txs_up (h : txHeap) (j : Z) :
  heap_txs (heap.up h j) = heap.up (heap_txs h) j.
Proof. apply up_sim; [apply heap_txs_Less|apply heap_txs_Swap]. Qed.

Lemma heap_txs_down (h : txHeap) (i n : Z) :
  heap.down (heap_txs h) i n =
  (heap_txs (heap.down h i n).1, (heap.down h i n).2).
Proof. apply down_sim; [apply heap_txs_Less|apply heap_txs_Swap]. Qed.

Lemma heap_txs_Len (h : txHeap) : heap.Len (heap_txs h) = heap.Len h.
Proof. simpl. unfold txHeap_Len. by rewrite heap_txs_length. Qed.

Lemma heap_txs_Push (h : txHeap) (p : addr) :
  heap_txs (heap.Push h p) = heap.Push (heap_txs h) (tx (load h p)).
Proof.
  simpl. unfold txHeap_Push, heap_txs, load. simpl.
  rewrite fmap_app. simpl. rewrite tx_load_alter_index. f_equal.
  apply list_fmap_ext. intros k q _. by rewrite tx_load_alter_index.
Qed.

Lemma heap_txs_Pop (h : txHeap) :
  heap.Pop (heap_txs h) =
  (fun hr => (heap_txs hr.1, tx (load hr.1 hr.2))) <$> heap.Pop h.
Proof.
  simpl. unfold txHeap_Pop, txHeap_Len. rewrite heap_txs_length.
  unfold heap_txs at 1. rewrite zlookup_fmap.
  destruct (zlookup (elems h) _) as [rec|]; [|done]. simpl.
  unfold heap_txs, load. simpl. rewrite fmap_take, tx_load_alter_index.
  do 3 f_equal. apply list_fmap_ext. intros k q _.
  by rewrite tx_load_alter_index.
Qed.

Lemma heap_txs_HPush (h : txHeap) (p : addr) :
  heap_txs (heap.HPush h p) = heap.HPush (heap_txs h) (tx (load h p)).
Proof.
  unfold heap.HPush.
  by rewrite heap_txs_up, heap_txs_Push, <- heap_txs_Len, heap_txs_Push.
Qed.

Lemma heap_txs_HPop (h : txHeap) :
  heap.HPop (heap_txs h) =
  (fun hr => (heap_txs hr.1, tx (load hr.1 hr.2))) <$> heap.HPop h.
Proof.
  unfold heap.HPop.
  rewrite heap_txs_Len, <- heap_txs_Swap, heap_txs_down. cbn [fst].
  apply heap_txs_Pop.
Qed.

Lemma heap_txs_Fix (h : txHeap) (i : Z) :
  heap_txs (heap.Fix h i) = heap.Fix (heap_txs h) i.
Proof.
  unfold heap.Fix. rewrite heap_txs_Len, heap_txs_down.
  destruct (heap.down h i (heap.Len h)) as [h1 moved]. cbn [fst snd].
  destruct moved; cbn [negb]; [done|apply heap_txs_up].
Qed.

Lemma heap_txs_Remove (h : txHeap) (i : Z) :
  heap.Remove (heap_txs h) i =
  (fun hr => (heap_txs hr.1, tx (load hr.1 hr.2))) <$> heap.Remove h i.
Proof.
  unfold heap.Remove. rewrite heap_txs_Len.
  destruct (negb (heap.Len h - 1 =? i)); [|apply heap_txs_Pop].
  rewrite <- heap_txs_Swap, heap_txs_down.
  destruct (heap.down (heap.Swap h i (heap.Len h - 1)) i (heap.Len h - 1))
    as [h1 moved]. cbn [fst snd].
  destruct moved; cbn [negb]; [apply heap_txs_Pop|].
  rewrite <- heap_txs_up. apply heap_txs_Pop.
Qed.

(** ** The heap operations on a [txHeap] *)

Lemma txHeap_Push_ok (h : txHeap) (p : addr) :
  mem_ok h -> p ∉ elems h -> p ∈ dom (recs h) ->
  mem_ok (heap.Push h p) /\ same_txs h (heap.Push h p).
Proof.
  intros [Hnd Hidx] Hp Hdom. split; [split|split].
  - simpl. apply NoDup_app. split; [done|]. split; [|apply NoDup_singleton].
    intros x Hx ->%list_elem_of_singleton. done.
  - intros k q. simpl. unfold txHeap_Len. intros Hk.
    pose proof (zlookup_Some _ _ _ Hk) as Hb. rewrite length_app in Hb.
    simpl in Hb. unfold zlookup in Hk. destruct (Z.ltb_spec k 0); [lia|].
    destruct (decide (k < Z.of_nat (length (elems h)))) as [Hlt|Hge].
    + rewrite lookup_app_l in Hk by lia.
      assert (zlookup (elems h) k = Some q) as Hk'.
      { unfold zlookup. by destruct (Z.ltb_spec k 0); [lia|]. }
      assert (p <> q).
      { intros ->. apply Hp. by eapply list_elem_of_lookup_2. }
      rewrite lookup_alter_ne by done. by apply Hidx.
    + rewrite lookup_app_r in Hk by lia.
      replace (Z.to_nat k - length (elems h))%nat with 0%nat in Hk by lia.
      simpl in Hk. injection Hk as <-.
      apply elem_of_dom in Hdom as [r Hr].
      rewrite lookup_alter_eq, Hr. eexists. split; [done|]. simpl. lia.
  - simpl. by rewrite dom_alter_L.
  - intros q. unfold load. simpl. by rewrite tx_load_alter_index.
Qed.

Lemma txHeap_Pop_ok (h : txHeap) (n : Z) (rec : addr) :
  mem_ok h -> heap.Len h = n + 1 -> zlookup (elems h) n = Some rec ->
  exists h', heap.Pop h = Some (h', rec)
    /\ mem_ok h' /\ same_txs h h' /\ elems h = elems h' ++ [rec].
Proof.
  intros [Hnd Hidx] Hlen Hrec. simpl in Hlen. unfold txHeap_Len in Hlen.
  simpl. unfold txHeap_Pop, txHeap_Len.
  replace (Z.of_nat (length (elems h)) - 1) with n by lia. rewrite Hrec.
  eexists. split; [done|].
  pose proof (take_last_split (elems h) n rec Hlen Hrec) as Hsplit.
  split; [split|split; [split|]]; simpl.
  - rewrite Hsplit in Hnd. by apply NoDup_app in Hnd as [? _].
  - intros k q Hk.
    pose proof (zlookup_Some _ _ _ Hk) as Hb. rewrite length_take in Hb.
    assert (zlookup (elems h) k = Some q) as Hk'.
    { unfold zlookup in *. destruct (Z.ltb_spec k 0); [done|].
      by rewrite lookup_take_lt in Hk by lia. }
    assert (rec <> q).
    { intros ->. pose proof (NoDup_zlookup _ _ _ _ Hnd Hrec Hk'). lia. }
    rewrite lookup_alter_ne by done. by apply Hidx.
  - by rewrite dom_alter_L.
  - intros q. unfold load. simpl. by rewrite tx_load_alter_index.
  - done.
Qed.

Lemma txHeap_HPush_spec (h : txHeap) (p : addr) :
  mem_ok h -> heap_ordered (heap_txs h) ->
  p ∉ elems h -> p ∈ dom (recs h) ->
  mem_ok (heap.HPush h p) /\ same_txs h (heap.HPush h p)
  /\ elems (heap.HPush h p) ≡ₚ p :: elems h
  /\ heap_ordered (heap_txs (heap.HPush h p)).
Proof.
  intros Hm Hh Hp Hdom.
  destruct (txHeap_Push_ok h p Hm Hp Hdom) as [Hm1 Hs1].
  pose proof (HPush_list (heap_txs h) (tx (load h p)) Hh) as [Hord _].
  rewrite <- heap_txs_HPush in Hord.
  unfold heap.HPush in *.
  set (h1 := heap.Push h p) in *.
  assert (heap.Len h1 = Z.of_nat (length (elems h)) + 1) as Hlen.
  { simpl. unfold txHeap_Len. simpl. rewrite length_app. simpl. lia. }
  rewrite Hlen in *.
  destruct (frame_up h1 (Z.of_nat (length (elems h)) + 1) h1
              (Z.of_nat (length (elems h)) + 1 - 1) ltac:(lia)
              (frame_refl _ _ Hm1)) as (F1 & F2 & F3 & _).
  split; [done|]. split; [by eapply same_txs_trans|]. split; [|done].
  rewrite F3. simpl. by rewrite Permutation_app_comm.
Qed.

Lemma txHeap_HPop_spec (h : txHeap) :
  mem_ok h -> heap_ordered (heap_txs h) -> elems h <> [] ->
  exists h' rec, heap.HPop h = Some (h', rec)
    /\ mem_ok h' /\ same_txs h h'
    /\ elems h ≡ₚ rec :: elems h'
    /\ heap_ordered (heap_txs h')
    /\ forall q, q ∈ elems h ->
         txLess (tx (load h q)) (tx (load h rec)) = false.
Proof.
  intros Hm Hh Hne.
  assert (heap_txs h <> []) as Hne'.
  { intros Heq. apply Hne. by apply fmap_nil_inv in Heq. }
  destruct (HPop_list (heap_txs h) Hh Hne')
    as (l' & x & Hpop & Hord & Hperm & Hx0 & Hmax).
  rewrite heap_txs_HPop in Hpop. unfold heap.HPop in *.
  remember (heap.Len h - 1) as n eqn:Hn.
  assert (0 <= n) as Hn0.
  { subst n. simpl. unfold txHeap_Len. destruct (elems h); [done|].
    simpl. lia. }
  assert (heap.Len h = n + 1) as Hlen by lia.
  set (h1 := heap.Swap h 0 n) in *.
  pose proof (mem_ok_Swap h 0 n Hm) as Hm1.
  pose proof (same_txs_Swap h 0 n) as Hs1. fold h1 in Hm1, Hs1.
  destruct (zlookup_is_Some (elems h) 0) as [rec Hrec].
  { simpl in Hlen. unfold txHeap_Len in Hlen. lia. }
  assert (zlookup (elems h1) n = Some rec) as Hrec1.
  { subst h1. rewrite elems_Swap.
    simpl in Hlen. unfold txHeap_Len in Hlen.
    rewrite zlookup_swap by lia.
    destruct (decide (n = 0)) as [->|]; [done|]. by rewrite decide_True. }
  destruct (frame_down h1 n h1 0 ltac:(lia) (frame_refl _ _ Hm1))
    as (F1 & F2 & F3 & F4).
  set (h2 := (heap.down h1 0 n).1) in *.
  assert (heap.Len h2 = n + 1) as Hlen2.
  { simpl. unfold txHeap_Len. rewrite F3. subst h1.
    rewrite elems_Swap, swap_list_length.
    simpl in Hlen. by unfold txHeap_Len in Hlen. }
  destruct (txHeap_Pop_ok h2 n rec F1 Hlen2) as (h' & Hp & Hm' & Hs' & He).
  { rewrite F4 by lia. done. }
  exists h', rec. rewrite Hp in Hpop |- *. simpl in Hpop.
  injection Hpop as <- <-.
  assert (same_txs h h') as Hs.
  { eapply same_txs_trans; [exact Hs1|].
    eapply same_txs_trans; [exact F2|exact Hs']. }
  split; [done|]. split; [done|]. split; [done|]. split; [|split; [done|]].
  - rewrite (Permutation_cons_append (elems h') rec), <- He, F3.
    subst h1. by rewrite elems_Swap, swap_list_perm.
  - intros q Hq. destruct Hs as [_ Hs]. rewrite <- (Hs rec).
    apply Hmax. unfold heap_txs. apply list_elem_of_fmap. by exists q.
Qed.

Lemma txHeap_Remove_spec (h : txHeap) (i : Z) (rec : addr) :
  mem_ok h -> heap_ordered (heap_txs h) ->
  zlookup (elems h) i = Some rec ->
  exists h', heap.Remove h i = Some (h', rec)
    /\ mem_ok h' /\ same_txs h h'
    /\ elems h ≡ₚ rec :: elems h'
    /\ heap_ordered (heap_txs h').
Proof.
  intros Hm Hh Hrec.
  pose proof (zlookup_Some _ _ _ Hrec) as Hi.
  destruct (Remove_list (heap_txs h) i Hh
              ltac:(by rewrite heap_txs_length))
    as (l' & x & Hrem & _ & Hord & _).
  rewrite heap_txs_Remove in Hrem.
  assert (exists h', heap.Remove h i = Some (h', rec)
            /\ mem_ok h' /\ same_txs h h' /\ elems h ≡ₚ rec :: elems h')
    as (h' & Hr & Hm' & Hs' & Hp').
  { clear Hrem Hord. unfold heap.Remove.
    remember (heap.Len h - 1) as n eqn:Hn.
    assert (heap.Len h = n + 1) as Hlen by lia.
    destruct (Z.eqb_spec n i) as [->|Hne]; cbn [negb].
    - destruct (txHeap_Pop_ok h i rec Hm Hlen Hrec) as (h' & ? & ? & ? & He).
      exists h'. split; [done|]. split; [done|]. split; [done|].
      by rewrite (Permutation_cons_append (elems h') rec), <- He.
    - simpl in Hlen. unfold txHeap_Len in Hlen.
      set (h1 := heap.Swap h i n).
      pose proof (mem_ok_Swap h i n Hm) as Hm1.
      pose proof (same_txs_Swap h i n) as Hs1. fold h1 in Hm1, Hs1.
      assert (zlookup (elems h1) n = Some rec) as Hrec1.
      { subst h1. rewrite elems_Swap, zlookup_swap by lia.
        rewrite decide_False by done. by rewrite decide_True. }
      assert (elems h1 ≡ₚ elems h) as Hp1.
      { subst h1. by rewrite elems_Swap, swap_list_perm. }
      pose proof (frame_down h1 n h1 i ltac:(lia) (frame_refl _ _ Hm1)) as F.
      destruct (heap.down h1 i n) as [h2 moved]. cbn [fst] in F.
      set (h3 := if negb moved then heap.up h2 i else h2).
      assert (frame h1 n h3) as (F1 & F2 & F3 & F4).
      { subst h3. destruct moved; cbn [negb]; [done|].
        apply frame_up; [lia|done]. }
      destruct (txHeap_Pop_ok h3 n rec F1) as (h' & ? & ? & ? & He).
      { simpl. unfold txHeap_Len. rewrite F3, Hp1. lia. }
      { by rewrite F4 by lia. }
      exists h'. split; [done|]. split; [done|]. split.
      + eapply same_txs_trans; [exact Hs1|].
        eapply same_txs_trans; [exact F2|done].
      + by rewrite (Permutation_cons_append (elems h') rec), <- He, F3. }
  exists h'. rewrite Hr in Hrem. simpl in Hrem. injection Hrem as <- _.
  done.
Qed.

Lemma txHeap_Fix_spec (h : txHeap) (i : Z) :
  mem_ok h -> 0 <= i < heap.Len h ->
  hole (heap_txs h) (heap.Len h) i ->
  mem_ok (heap.Fix h i) /\ same_txs h (heap.Fix h i)
  /\ elems (heap.Fix h i) ≡ₚ elems h
  /\ heap_ordered (heap_txs (heap.Fix h i)).
Proof.
  intros Hm Hi Hh.
  assert (heap.Len h = Z.of_nat (length (heap_txs h))) as Hlen.
  { simpl. unfold txHeap_Len. by rewrite heap_txs_length. }
  rewrite Hlen in Hh.
  destruct (Fix_list (heap_txs h) i ltac:(lia) Hh) as [Hord _].
  rewrite <- heap_txs_Fix in Hord.
  unfold heap.Fix in *.
  pose proof (frame_down h (heap.Len h) h i ltac:(lia) (frame_refl _ _ Hm))
    as F.
  destruct (heap.down h i (heap.Len h)) as [h2 moved]. cbn [fst] in F.
  assert (frame h (heap.Len h) (if negb moved then heap.up h2 i else h2))
    as (F1 & F2 & F3 & _).
  { destruct moved; cbn [negb]; [done|]. by apply frame_up. }
  done.
Qed.

(** ** The mempool invariant is kept by every method *)

Lemma table_ok_perm (h h' : txHeap) (live live' : list addr)
    (tbl : gmap TxID addr) :
  same_txs h h' -> live ≡ₚ live' -> table_ok h live tbl ->
  table_ok h' live' tbl.
Proof.
  intros [_ Hs] Hp [H1 H2]. split.
  - intros id p Hid. destruct (H1 id p Hid) as [Hin Hidp].
    split; [by rewrite <- Hp|by rewrite Hs].
  - intros p Hin. rewrite Hs. apply H2. by rewrite Hp.
Qed.

Lemma table_ok_delete (h h' : txHeap) (live live' : list addr)
    (tbl : gmap TxID addr) (rec : addr) :
  same_txs h h' -> NoDup live -> live ≡ₚ rec :: live' ->
  table_ok h live tbl ->
  table_ok h' live' (delete (ID (tx (load h rec))) tbl).
Proof.
  intros [_ Hs] Hnd Hp [H1 H2].
  rewrite Hp in Hnd. apply NoDup_cons in Hnd as [Hrec Hnd'].
  assert (tbl !! ID (tx (load h rec)) = Some rec) as Hrec_tbl.
  { apply H2. rewrite Hp. by left. }
  split.
  - intros id p Hid. apply lookup_delete_Some in Hid as [Hne Hid].
    destruct (H1 id p Hid) as [Hin Hidp]. rewrite Hs. split; [|done].
    rewrite Hp in Hin. apply elem_of_cons in Hin as [->|Hin]; [|done].
    congruence.
  - intros p Hin. rewrite Hs.
    assert (p ∈ live) as Hin' by (rewrite Hp; by right).
    rewrite lookup_delete_ne; [by apply H2|].
    intros Heq. rewrite Heq in Hrec_tbl. rewrite (H2 p Hin') in Hrec_tbl.
    congruence.
Qed.

Lemma NewMempool_eq :
  NewMempool = {| mpheap := {| recs := ∅; elems := [] |};
                  table := ∅; next := 0%nat |}.
Proof. reflexivity. Qed.

Lemma NewMempool_ok : mp_ok NewMempool.
Proof.
  rewrite NewMempool_eq. unfold mp_ok, inv. simpl.
  split; [split; [constructor|]|].
  { intros k p Hk. apply zlookup_Some in Hk. simpl in Hk. lia. }
  split; [constructor|]. split; [intros c Hc; simpl in Hc; lia|].
  split; [split|].
  - intros id p Hid. by rewrite lookup_empty in Hid.
  - intros p Hp. by apply elem_of_nil in Hp.
  - split; [intros p Hp; by apply elem_of_nil in Hp|].
    intros p Hp. by rewrite dom_empty_L in Hp.
Qed.

Lemma inv_live_alloc (m : mempool) (sk : list addr) (p : addr) :
  inv m sk -> p ∈ elems (mpheap m) ++ sk -> p ∈ dom (recs (mpheap m)).
Proof.
  intros ((_ & Hidx) & _ & _ & _ & Hsk & _) [Hp|Hp]%elem_of_app;
    [|by apply Hsk].
  apply list_elem_of_lookup in Hp as [k Hk].
  rewrite <- zlookup_of_nat in Hk.
  destruct (Hidx _ _ Hk) as (r & Hr & _). apply elem_of_dom. by eexists.
Qed.

Lemma Add_spec (m : mempool) (t : Tx) :
  mp_ok m -> table m !! ID t = None ->
  exists m', Add m t = (m', None) /\ mp_ok m'
    /\ table m' = <[ID t := next m]> (table m)
    /\ tx (load (mpheap m') (next m)) = t
    /\ heap_txs (mpheap m') ≡ₚ t :: heap_txs (mpheap m).
Proof.
  intros Hinv Hfree. unfold Add. rewrite Hfree. eexists. split; [done|].
  pose proof Hinv as (Hm & Hnd & Hord & Htbl & Hsk & Hnext).
  rewrite app_nil_r in *.
  set (rec := next m) in *.
  set (h0 := {| recs := <[rec:=mkTxRecord t 0]> (recs (mpheap m));
                elems := elems (mpheap m) |}).
  assert (rec ∉ dom (recs (mpheap m))) as Hfresh.
  { intros Hin. apply Hnext in Hin. lia. }
  assert (forall p, p ∈ elems (mpheap m) -> p <> rec) as Hne.
  { intros p Hp ->. apply Hfresh.
    apply (inv_live_alloc m [] rec Hinv). by rewrite app_nil_r. }
  assert (forall p, p <> rec -> load h0 p = load (mpheap m) p) as Hload.
  { intros p Hp. unfold load, h0. simpl.
    by rewrite lookup_total_insert_ne. }
  assert (load h0 rec = mkTxRecord t 0) as Hload_rec.
  { unfold load, h0. simpl. by rewrite lookup_total_insert_eq. }
  assert (mem_ok h0) as Hm0.
  { destruct Hm as [? Hidx]. split; [done|]. intros k p Hk.
    destruct (Hidx k p Hk) as (r & Hr & Hi). exists r. split; [|done].
    simpl. rewrite lookup_insert_ne; [done|].
    intros <-. eapply Hne; [|done].
    unfold zlookup in Hk. destruct (k <? 0); [done|].
    by eapply list_elem_of_lookup_2. }
  assert (heap_txs h0 = heap_txs (mpheap m)) as Htxs0.
  { unfold heap_txs. simpl. apply list_fmap_ext. intros k p Hk.
    rewrite Hload; [done|]. apply Hne. by eapply list_elem_of_lookup_2. }
  destruct (txHeap_HPush_spec h0 rec Hm0) as (Hm' & [Hd Hs] & Hp & Hord').
  { by rewrite Htxs0. }
  { intros Hin. by eapply Hne. }
  { simpl. rewrite dom_insert_L. set_solver. }
  split; [|split; [done|split]].
  - split; [done|]. rewrite app_nil_r.
    split; [apply Hm'|]. split; [done|]. split; [split|split]; simpl.
    + intros id p Hid. apply lookup_insert_Some in Hid as [[<- <-]|[Hne' Hid]].
      * split; [rewrite Hp; by left|]. by rewrite Hs, Hload_rec.
      * destruct Htbl as [H1 _]. destruct (H1 id p Hid) as [Hin Hidp].
        split; [rewrite Hp; by right|].
        rewrite Hs, Hload; [done|]. by apply Hne.
    + intros p Hin. rewrite Hs. rewrite Hp in Hin.
      apply elem_of_cons in Hin as [->|Hin].
      * rewrite Hload_rec. simpl. by rewrite lookup_insert_eq.
      * rewrite Hload by (by apply Hne).
        destruct Htbl as [_ H2]. rewrite lookup_insert_ne; [by apply H2|].
        intros Heq. rewrite Heq, (H2 p Hin) in Hfree. done.
    + intros p Hin. by apply elem_of_nil in Hin.
    + intros p Hin. rewrite Hd in Hin. simpl in Hin.
      rewrite dom_insert_L in Hin.
      apply elem_of_union in Hin as [->%elem_of_singleton|Hin]; [lia|].
      apply Hnext in Hin. lia.
  - simpl. by rewrite Hs, Hload_rec.
  - simpl. rewrite heap_txs_HPush.
    destruct (HPush_list (heap_txs h0) (tx (load h0 rec))) as [_ Hperm].
    { by rewrite Htxs0. }
    by rewrite Hperm, Hload_rec, Htxs0.
Qed.

Lemma elem_zlookup {A} (l : list A) (x : A) :
  x ∈ l -> exists k, zlookup l k = Some x.
Proof.
  intros [k Hk]%list_elem_of_lookup. exists (Z.of_nat k).
  by rewrite zlookup_of_nat.
Qed.

Lemma zlookup_elem {A} (l : list A) (k : Z) (x : A) :
  zlookup l k = Some x -> x ∈ l.
Proof.
  unfold zlookup. destruct (k <? 0); [done|]. apply list_elem_of_lookup_2.
Qed.

Lemma Update_spec (m : mempool) (t : Tx) (rec : addr) :
  mp_ok m -> table m !! ID t = Some rec ->
  exists m', Update m t = (m', None) /\ mp_ok m'
    /\ table m' = table m
    /\ tx (load (mpheap m') rec) = t
    /\ (forall p, p <> rec ->
          tx (load (mpheap m') p) = tx (load (mpheap m) p)).
Proof.
  intros Hinv Hrec. unfold Update. rewrite Hrec. eexists. split; [done|].
  pose proof Hinv as (Hm & Hnd & Hord & Htbl & Hsk & Hnext).
  rewrite app_nil_r in *.
  set (h := mpheap m) in *.
  set (h0 := {| recs := alter (set_tx t) rec (recs h); elems := elems h |}).
  destruct Htbl as [T1 T2]. destruct (T1 _ _ Hrec) as [Hin Hid].
  destruct (elem_zlookup _ _ Hin) as [k Hk].
  destruct Hm as [Hnd' Hidx]. destruct (Hidx _ _ Hk) as (r & Hr & Hik).
  pose proof (zlookup_Some _ _ _ Hk) as Hkb.
  assert (load h0 rec = set_tx t r) as Hload_rec.
  { unfold load, h0. simpl.
    by rewrite lookup_total_alt, lookup_alter_eq, Hr. }
  assert (forall p, p <> rec -> load h0 p = load h p) as Hload.
  { intros p Hp. unfold load, h0. simpl.
    by rewrite !lookup_total_alt, lookup_alter_ne. }
  assert (mem_ok h0) as Hm0.
  { split; [done|]. intros k' p Hk'.
    destruct (Hidx _ _ Hk') as (r' & Hr' & Hi'). simpl.
    destruct (decide (p = rec)) as [->|Hne].
    - rewrite lookup_alter_eq, Hr'. by eexists.
    - rewrite lookup_alter_ne by done. by eexists. }
  assert (heap_txs h0 = <[Z.to_nat k := t]> (heap_txs h)) as Htxs0.
  { apply zlookup_ext. intros j. unfold heap_txs at 1.
    rewrite zlookup_fmap. simpl.
    destruct (decide (j = k)) as [->|Hjk].
    - rewrite Hk. simpl. rewrite Hload_rec. simpl.
      unfold zlookup. destruct (Z.ltb_spec k 0); [lia|].
      rewrite list_lookup_insert_eq; [done|]. rewrite heap_txs_length. lia.
    - destruct (zlookup (elems h) j) as [p|] eqn:Hj; simpl.
      + assert (p <> rec).
        { intros ->. apply Hjk. eapply NoDup_zlookup; eauto. }
        rewrite Hload by done.
        pose proof (zlookup_Some _ _ _ Hj).
        unfold zlookup in *. destruct (Z.ltb_spec j 0); [lia|].
        rewrite list_lookup_insert_ne by lia.
        unfold heap_txs. by rewrite list_lookup_fmap, Hj.
      + unfold zlookup in *. destruct (Z.ltb_spec j 0); [done|].
        destruct (decide (Z.to_nat k = Z.to_nat j)); [lia|].
        rewrite list_lookup_insert_ne by done.
        unfold heap_txs. by rewrite list_lookup_fmap, Hj. }
  rewrite Hload_rec. simpl. rewrite Hik.
  destruct (txHeap_Fix_spec h0 k Hm0) as (Hm' & [Hd Hs] & Hp & Hord').
  { simpl. unfold txHeap_Len. simpl. lia. }
  { rewrite Htxs0. simpl. unfold txHeap_Len. simpl.
    rewrite <- (heap_txs_length h). apply hole_insert; [done|].
    by rewrite heap_txs_length. }
  assert (table_ok h0 (elems h) (table m)) as Htbl0.
  { split.
    - intros id p Hidp. destruct (T1 _ _ Hidp) as [Hin' Hid'].
      split; [done|]. destruct (decide (p = rec)) as [->|Hne].
      + rewrite Hload_rec. simpl. congruence.
      + by rewrite Hload.
    - intros p Hp'. destruct (decide (p = rec)) as [->|Hne].
      + by rewrite Hload_rec.
      + rewrite Hload by done. by apply T2. }
  split; [|split; [done|split]].
  - split; [done|]. rewrite app_nil_r. split; [apply Hm'|].
    split; [done|]. split; [|split]; simpl.
    + apply (table_ok_perm h0 _ (elems h)); [done|by symmetry|done].
    + intros p Hp'. by apply elem_of_nil in Hp'.
    + intros p Hp'. rewrite Hd in Hp'. simpl in Hp'.
      rewrite dom_alter_L in Hp'. by apply Hnext.
  - simpl. by rewrite Hs, Hload_rec.
  - intros p Hp'. simpl. by rewrite Hs, Hload.
Qed.

Lemma Remove_spec (m : mempool) (id : TxID) (rec : addr) :
  mp_ok m -> table m !! id = Some rec ->
  exists m', Remove m id = (m', None) /\ mp_ok m'
    /\ table m' = delete id (table m)
    /\ same_txs (mpheap m) (mpheap m')
    /\ elems (mpheap m) ≡ₚ rec :: elems (mpheap m').
Proof.
  intros Hinv Hrec. unfold Remove. rewrite Hrec.
  pose proof Hinv as (Hm & Hnd & Hord & Htbl & Hsk & Hnext).
  rewrite app_nil_r in *.
  pose proof Htbl as [T1 T2]. destruct (T1 _ _ Hrec) as [Hin Hid].
  destruct (elem_zlookup _ _ Hin) as [k Hk].
  pose proof Hm as [Hnd' Hidx]. destruct (Hidx _ _ Hk) as (r & Hr & Hik).
  assert (load (mpheap m) rec = r) as Hload.
  { unfold load. by rewrite lookup_total_alt, Hr. }
  rewrite Hload, Hik.
  destruct (txHeap_Remove_spec (mpheap m) k rec Hm Hord Hk)
    as (h' & Hrem & Hm' & Hs & Hp & Hord').
  rewrite Hrem. eexists. split; [done|]. simpl.
  split; [|done].
  split; [done|]. rewrite app_nil_r. simpl.
  split; [apply Hm'|]. split; [done|]. split; [|split].
  - rewrite <- Hid.
    by apply (table_ok_delete (mpheap m) h' (elems (mpheap m))).
  - intros p Hp'. by apply elem_of_nil in Hp'.
  - intros p Hp'. destruct Hs as [Hd _]. rewrite Hd in Hp'. by apply Hnext.
Qed.

(** ** One turn of the selection loop *)

Lemma select_cond_nonempty (c : BlockConstraints) (s : selState) :
  select_cond c s = true -> elems (mpheap (sel_mp s)) <> [].
Proof.
  unfold select_cond. intros [_ H]%andb_true_iff. apply Z.ltb_lt in H.
  simpl in H. unfold txHeap_Len in H. intros Heq. rewrite Heq in H.
  simpl in H. lia.
Qed.

Lemma live_ids_inj (m : mempool) (sk : list addr) (p q : addr) :
  inv m sk -> p ∈ elems (mpheap m) ++ sk -> q ∈ elems (mpheap m) ++ sk ->
  ID (tx (load (mpheap m) p)) = ID (tx (load (mpheap m) q)) -> p = q.
Proof.
  intros (_ & _ & _ & [_ T2] & _) Hp Hq Heq.
  pose proof (T2 p Hp) as H1. pose proof (T2 q Hq) as H2.
  rewrite Heq in H1. congruence.
Qed.

Lemma select_body_spec (c : BlockConstraints) (s : selState) :
  sel_inv s -> select_cond c s = true ->
  exists h' rec,
    let h := mpheap (sel_mp s) in
    let t := tx (load h rec) in
    let s' := select_body c s in
    heap.HPop h = Some (h', rec)
    /\ tx (load h' rec) = t
    /\ mpheap (sel_mp s') = h'
    /\ next (sel_mp s') = next (sel_mp s)
    /\ rec ∈ elems h
    /\ same_txs h h'
    /\ elems h ≡ₚ rec :: elems h'
    /\ (forall q, q ∈ elems h -> txLess (tx (load h q)) t = false)
    /\ turn c s s' t rec
    /\ sel_inv s'.
Proof.
  intros Hinv Hcond.
  pose proof Hinv as (Hm & Hnd & Hord & Htbl & Hsk & Hnext).
  destruct (txHeap_HPop_spec _ Hm Hord (select_cond_nonempty _ _ Hcond))
    as (h' & rec & Hpop & Hm' & Hs & Hp & Hord' & Hmax).
  exists h', rec. cbv zeta.
  set (h := mpheap (sel_mp s)) in *.
  set (t := tx (load h rec)).
  assert (tx (load h' rec) = t) as Ht by apply Hs.
  assert (rec ∈ elems h) as Hrec by (rewrite Hp; by left).
  assert (elems h ++ sel_skipped s ≡ₚ rec :: (elems h' ++ sel_skipped s))
    as Hlive by (by rewrite Hp).
  assert (forall p, p ∈ sel_skipped s -> p ∈ dom (recs h')) as Hsk'.
  { intros p Hin. destruct Hs as [-> _]. by apply Hsk. }
  assert (forall p, p ∈ dom (recs h') -> (p < next (sel_mp s))%nat) as Hnext'.
  { intros p Hin. destruct Hs as [Hd _]. rewrite Hd in Hin. by apply Hnext. }
  assert (NoDup (elems h' ++ sel_skipped s)) as Hnd'.
  { rewrite Hlive in Hnd. by apply NoDup_cons in Hnd as [_ ?]. }
  unfold select_body. fold h. rewrite Hpop, Ht.
  split; [done|]. split; [done|].
  destruct (Z.ltb_spec (Fee t) (MinFee c)) as [Hfee|Hfee].
  { simpl. repeat (split; [done|]). split; [by apply turn_purge|].
    unfold sel_inv, inv. simpl. repeat (split; [done|]).
    split; [|done]. by apply (table_ok_delete h h' (elems h ++ sel_skipped s) _ _ rec). }
  destruct ((0 <? GasLimit c)
            && (GasLimit c <? wrap64 (GasUsed (sel_result s) + Gas t)))
    eqn:Hgas.
  { apply andb_true_iff in Hgas as [Hg1%Z.ltb_lt Hg2%Z.ltb_lt].
    simpl. repeat (split; [done|]). split; [by apply turn_skip|].
    unfold sel_inv, inv. simpl. split; [done|].
    assert (elems h ++ sel_skipped s ≡ₚ elems h' ++ sel_skipped s ++ [rec])
      as Hlive'.
    { rewrite Hlive, (Permutation_app_comm (sel_skipped s) [rec]). simpl.
      by rewrite Permutation_middle. }
    split; [by rewrite <- Hlive'|]. split; [done|].
    split; [by apply (table_ok_perm h _ _ _ _ Hs Hlive')|].
    split; [|done].
    intros p [Hin|Heq%list_elem_of_singleton]%elem_of_app; [by apply Hsk'|].
    subst p.
    destruct Hs as [-> _].
    apply (inv_live_alloc _ _ rec Hinv). apply elem_of_app. by left. }
  simpl. repeat (split; [done|]). split.
  { apply turn_accept; try done.
    apply andb_false_iff in Hgas as [Hg%Z.ltb_ge|Hg%Z.ltb_ge]; [by left|].
    by right. }
  unfold sel_inv, inv. simpl. repeat (split; [done|]).
  split; [|done]. by apply (table_ok_delete h h' (elems h ++ sel_skipped s) _ _ rec).
Qed.

Lemma later_refl (s : selState) : later s s.
Proof.
  split; [done|]. split; [done|]. split; [done|]. split; [done|].
  exists [], []. rewrite !app_nil_r.
  split; [done|]. split; [done|]. split; by intros a Ha%elem_of_nil.
Qed.

Lemma later_trans (s1 s2 s3 : selState) :
  later s1 s2 -> later s2 s3 -> later s1 s3.
Proof.
  intros (S1 & T1 & N1 & E1 & new1 & sk1 & R1 & K1 & A1 & B1)
         (S2 & T2 & N2 & E2 & new2 & sk2 & R2 & K2 & A2 & B2).
  split; [by eapply same_txs_trans|].
  split; [by etrans|]. split; [congruence|]. split; [by auto|].
  exists (new1 ++ new2), (sk1 ++ sk2).
  split; [by rewrite R2, R1, app_assoc|].
  split; [by rewrite K2, K1, app_assoc|]. split.
  - intros a [Ha|Ha]%elem_of_app.
    + destruct (A1 a Ha) as [Hn Hq]. split; [|done].
      by eapply lookup_weaken_None.
    + destruct (A2 a Ha) as [Hn (q & Hq & ->)]. split; [done|].
      exists q. split; [by auto|]. apply S1.
  - intros p [Hp|Hp]%elem_of_app; by auto.
Qed.

Lemma later_step (c : BlockConstraints) (s : selState) :
  sel_inv s -> select_cond c s = true -> later s (select_body c s).
Proof.
  intros Hinv Hcond.
  destruct (select_body_spec c s Hinv Hcond)
    as (h' & rec & Hpop & Ht & Hh' & Hnx & Hrec & Hs & Hp & Hmax & Hturn & _).
  cbv zeta in *.
  split; [by rewrite Hh'|]. rewrite Hh'.
  assert (forall p, p ∈ elems h' -> p ∈ elems (mpheap (sel_mp s))) as Hsub.
  { intros p Hin. rewrite Hp. by right. }
  destruct Hturn as [? Htb Hr Hk|? ? ? Htb Hr Hk|? ? Htb Hr Hk].
  - split; [rewrite Htb; apply delete_subseteq|]. split; [done|].
    split; [done|]. exists [], []. rewrite Hr, Hk, !app_nil_r.
    split; [done|]. split; [done|]. split; by intros a Ha%elem_of_nil.
  - split; [by rewrite Htb|]. split; [done|]. split; [done|].
    exists [], [rec]. rewrite Hr, Hk, !app_nil_r.
    split; [done|]. split; [done|]. split; [by intros a Ha%elem_of_nil|].
    by intros p ->%list_elem_of_singleton.
  - split; [rewrite Htb; apply delete_subseteq|]. split; [done|].
    split; [done|].
    exists [tx (load (mpheap (sel_mp s)) rec)], [].
    rewrite Hr, Hk, !app_nil_r. simpl.
    split; [done|]. split; [done|]. split; [|by intros a Ha%elem_of_nil].
    intros a ->%list_elem_of_singleton.
    split; [rewrite Htb; apply lookup_delete_eq|by exists rec].
Qed.

Lemma select_loop_later (c : BlockConstraints) (fuel : nat) (s : selState) :
  sel_inv s ->
  sel_inv (select_loop fuel c s) /\ later s (select_loop fuel c s).
Proof.
  revert s. induction fuel as [|f IH]; intros s Hinv; simpl.
  { split; [done|apply later_refl]. }
  destruct (select_cond c s) eqn:Hcond; [|split; [done|apply later_refl]].
  destruct (select_body_spec c s Hinv Hcond)
    as (_ & _ & _ & _ & _ & _ & _ & _ & _ & _ & _ & Hinv').
  destruct (IH _ Hinv') as [IH1 IH2]. split; [done|].
  eapply later_trans; [by apply later_step|done].
Qed.

Lemma select_loop_split (c : BlockConstraints) (k n : nat) (s : selState) :
  select_loop (k + n) c s = select_loop n c (select_loop k c s).
Proof.
  revert s. induction k as [|k IH]; intros s; simpl; [done|].
  destruct (select_cond c s) eqn:Hcond; [apply IH|].
  destruct n; simpl; [done|]. by rewrite Hcond.
Qed.

(** The loop gives up its fuel only when its condition fails: the fuel of
    [SelectTransactions] is never what ends the loop. *)
Lemma select_loop_exit (c : BlockConstraints) (fuel : nat) (s : selState) :
  sel_inv s -> (length (elems (mpheap (sel_mp s))) <= fuel)%nat ->
  select_cond c (select_loop fuel c s) = false.
Proof.
  revert s. induction fuel as [|f IH]; intros s Hinv Hlen; simpl.
  { unfold select_cond. simpl. unfold txHeap_Len.
    replace (length (elems (mpheap (sel_mp s)))) with 0%nat by lia.
    simpl. apply andb_false_r. }
  destruct (select_cond c s) eqn:Hcond; [|done].
  destruct (select_body_spec c s Hinv Hcond)
    as (h' & rec & _ & _ & Hh' & _ & _ & _ & Hp & _ & _ & Hinv').
  cbv zeta in *. apply IH; [done|]. rewrite Hh'.
  apply Permutation_length in Hp. simpl in Hp. lia.
Qed.

Lemma select_loop_stable (c : BlockConstraints) (fuel : nat) (s : selState) :
  select_cond c s = false -> select_loop fuel c s = s.
Proof. intros Hc. destruct fuel; simpl; [done|]. by rewrite Hc. Qed.

(** ** Reinserting the skipped records, and the whole selection *)

Lemma reinsert_spec (sk : list addr) :
  forall (h : txHeap) (tbl : gmap TxID addr) (nxt : addr),
  inv {| mpheap := h; table := tbl; next := nxt |} sk ->
  mp_ok {| mpheap := foldl heap.HPush h sk; table := tbl; next := nxt |}
  /\ same_txs h (foldl heap.HPush h sk)
  /\ elems (foldl heap.HPush h sk) ≡ₚ elems h ++ sk.
Proof.
  induction sk as [|p sk IH]; intros h tbl nxt Hinv; simpl.
  { split; [done|]. split; [done|]. by rewrite app_nil_r. }
  destruct Hinv as (Hm & Hnd & Hord & Htbl & Hsk & Hnext). simpl in *.
  assert (p ∉ elems h) as Hp.
  { apply NoDup_app in Hnd as (_ & Hdisj & _). intros Hin.
    apply (Hdisj p Hin). by left. }
  destruct (txHeap_HPush_spec h p Hm Hord Hp) as (Hm1 & Hs1 & Hp1 & Hord1).
  { apply Hsk. by left. }
  assert (elems h ++ p :: sk ≡ₚ elems (heap.HPush h p) ++ sk) as Hlive.
  { rewrite Hp1. simpl. by rewrite Permutation_middle. }
  destruct (IH (heap.HPush h p) tbl nxt) as (I1 & I2 & I3).
  { split; [done|]. simpl. split; [by rewrite <- Hlive|]. split; [done|].
    split; [by apply (table_ok_perm h _ _ _ _ Hs1 Hlive)|].
    destruct Hs1 as [Hd _]. rewrite Hd. split; [|done].
    intros q Hq. apply Hsk. by right. }
  split; [done|]. split; [by eapply same_txs_trans|].
  by rewrite I3, <- Hlive.
Qed.

Lemma select_runs_false (m : mempool) (c : BlockConstraints) :
  select_runs m c = false ->
  SelectTransactions m c = (m, {| Transactions := []; GasUsed := 0 |}).
Proof.
  unfold select_runs, SelectTransactions. intros H%negb_false_iff.
  by rewrite H.
Qed.

Lemma select_runs_true (m : mempool) (c : BlockConstraints) :
  select_runs m c = true ->
  SelectTransactions m c =
  let s := select_loop (length (elems (mpheap m))) c (sel_init m) in
  ({| mpheap := foldl heap.HPush (mpheap (sel_mp s)) (sel_skipped s);
      table := table (sel_mp s);
      next := next (sel_mp s) |}, sel_result s).
Proof.
  unfold select_runs, SelectTransactions. intros H%negb_true_iff.
  by rewrite H.
Qed.

(** The state in which the loop of [SelectTransactions] ends. *)
Lemma select_after_final (m : mempool) (c : BlockConstraints) (k : nat) :
  mp_ok m ->
  let sf := select_loop (length (elems (mpheap m))) c (sel_init m) in
  sel_inv (select_after k c m) /\ later (sel_init m) (select_after k c m)
  /\ sel_inv sf /\ later (select_after k c m) sf
  /\ select_cond c sf = false.
Proof.
  intros Hok. cbv zeta. unfold select_after.
  set (n := length (elems (mpheap m))).
  assert (sel_inv (sel_init m)) as Hinv0 by done.
  destruct (select_loop_later c k _ Hinv0) as [Hk1 Hk2].
  destruct (select_loop_later c n _ Hinv0) as [Hn1 Hn2].
  pose proof (select_loop_exit c n (sel_init m) Hinv0 ltac:(done)) as Hexit.
  repeat (split; [done|]). split; [|done].
  destruct (decide (k <= n)%nat) as [Hle|Hgt].
  - replace n with (k + (n - k))%nat by lia.
    rewrite select_loop_split. by apply select_loop_later.
  - replace k with (n + (k - n))%nat by lia.
    rewrite select_loop_split, select_loop_stable by done.
    apply later_refl.
Qed.

Lemma SelectTransactions_spec (m : mempool) (c : BlockConstraints) :
  mp_ok m -> select_runs m c = true ->
  let sf := select_loop (length (elems (mpheap m))) c (sel_init m) in
  let m' := (SelectTransactions m c).1 in
  (SelectTransactions m c).2 = sel_result sf
  /\ mp_ok m'
  /\ table m' = table (sel_mp sf)
  /\ next m' = next (sel_mp sf)
  /\ same_txs (mpheap (sel_mp sf)) (mpheap m')
  /\ elems (mpheap m') ≡ₚ elems (mpheap (sel_mp sf)) ++ sel_skipped sf.
Proof.
  intros Hok Hruns. cbv zeta. rewrite (select_runs_true _ _ Hruns).
  cbv zeta. simpl.
  destruct (select_after_final m c 0 Hok) as (_ & _ & Hinv & _ & _).
  set (sf := select_loop _ c (sel_init m)) in *.
  destruct (sel_mp sf) as [h tbl nxt] eqn:Hmp. simpl.
  unfold sel_inv in Hinv. rewrite Hmp in Hinv.
  destruct (reinsert_spec _ h tbl nxt Hinv) as (R1 & R2 & R3).
  done.
Qed.

Lemma SelectTransactions_ok (m : mempool) (c : BlockConstraints) :
  mp_ok m -> mp_ok (SelectTransactions m c).1.
Proof.
  intros Hok. destruct (select_runs m c) eqn:Hruns.
  - by apply SelectTransactions_spec.
  - by rewrite (select_runs_false _ _ Hruns).
Qed.

(** ** What [List] shows *)

Lemma List_elem (m : mempool) (t : Tx) :
  t ∈ List m <->
  exists id p, table m !! id = Some p /\ t = tx (load (mpheap m) p).
Proof.
  unfold List. rewrite list_elem_of_fmap. split.
  - intros ([id p] & -> & Hin). apply elem_of_map_to_list in Hin.
    by exists id, p.
  - intros (id & p & Hin & ->). exists (id, p). split; [done|].
    by apply elem_of_map_to_list.
Qed.


Lemma List_perm (m : mempool) : mp_ok m -> List m ≡ₚ heap_txs (mpheap m).
Proof.
  intros (Hm & Hnd & _ & [T1 T2] & _). rewrite app_nil_r in *.
  unfold List, heap_txs.
  trans ((fun p => tx (load (mpheap m) p)) <$> (map_to_list (table m)).*2).
  { by rewrite <- list_fmap_compose. }
  apply fmap_Permutation. apply NoDup_Permutation; [|done|].
  - apply NoDup_fmap_2_strong; [|apply NoDup_map_to_list].
    intros [id1 p1] [id2 p2] H1%elem_of_map_to_list H2%elem_of_map_to_list.
    simpl. intros ->. destruct (T1 _ _ H1) as [_ <-].
    by destruct (T1 _ _ H2) as [_ <-].
  - intros p. rewrite list_elem_of_fmap. split.
    + intros ([id q] & -> & Hin%elem_of_map_to_list). by apply (T1 id q).
    + intros Hin. exists (ID (tx (load (mpheap m) p)), p). split; [done|].
      apply elem_of_map_to_list. by apply T2.
Qed.

(** ** Every reachable mempool satisfies the invariant *)

Lemma Add_ok (m : mempool) (t : Tx) : mp_ok m -> mp_ok (Add m t).1.
Proof.
  intros Hok. destruct (table m !! ID t) as [p|] eqn:Hl.
  - unfold Add. by rewrite Hl.
  - destruct (Add_spec m t Hok Hl) as (m' & -> & Hok' & _). done.
Qed.

Lemma Update_ok (m : mempool) (t : Tx) : mp_ok m -> mp_ok (Update m t).1.
Proof.
  intros Hok. destruct (table m !! ID t) as [p|] eqn:Hl.
  - destruct (Update_spec m t p Hok Hl) as (m' & -> & Hok' & _). done.
  - unfold Update. by rewrite Hl.
Qed.

Lemma Remove_ok (m : mempool) (id : TxID) : mp_ok m -> mp_ok (Remove m id).1.
Proof.
  intros Hok. destruct (table m !! id) as [p|] eqn:Hl.
  - destruct (Remove_spec m id p Hok Hl) as (m' & -> & Hok' & _). done.
  - unfold Remove. by rewrite Hl.
Qed.

Lemma step_op_ok (m : mempool) (o : op) : mp_ok m -> mp_ok (step_op m o).1.
Proof.
  intros Hok. destruct o; simpl.
  - by apply Add_ok.
  - by apply Update_ok.
  - by apply Remove_ok.
  - by apply SelectTransactions_ok.
Qed.

Lemma run_ops_ok (ops : list op) (m : mempool) :
  mp_ok m -> mp_ok (run_ops m ops).1.
Proof.
  revert m. induction ops as [|o ops IH]; intros m Hok; simpl; [done|].
  by apply IH, step_op_ok.
Qed.

Lemma reachable_ok (m : mempool) : reachable m -> mp_ok m.
Proof. intros [ops ->]. apply run_ops_ok, NewMempool_ok. Qed.

Lemma reachable_step (m : mempool) (o : op) :
  reachable m -> reachable (step_op m o).1.
Proof.
  intros [ops ->]. exists (ops ++ [o]).
  assert (forall l m0, (run_ops m0 (l ++ [o])).1
                       = (step_op (run_ops m0 l).1 o).1) as H.
  { induction l as [|o' l IH]; intros m0; simpl; [done|]. apply IH. }
  by rewrite H.
Qed.

(** ** Gas accounting of a selection (no invariant needed) *)

Lemma sum_gas_snoc (l : list Tx) (t : Tx) :
  sum_gas (l ++ [t]) = sum_gas l + Gas t.
Proof. unfold sum_gas. induction l as [|a l IH]; simpl; lia. Qed.

Lemma wrap64_add_l (a b : Z) : wrap64 (wrap64 a + b) = wrap64 (a + b).
Proof. unfold wrap64. by rewrite Z.add_mod_idemp_l. Qed.

Lemma wrap64_range (a : Z) : 0 <= wrap64 a < two64.
Proof. unfold wrap64. apply Z.mod_pos_bound. done. Qed.

Lemma wrap64_small (a : Z) : 0 <= a < two64 -> wrap64 a = a.
Proof. apply Z.mod_small. Qed.

Lemma select_body_accounting (c : BlockConstraints) (s : selState) :
  select_cond c s = true -> accounting c (sel_result s) ->
  accounting c (sel_result (select_body c s)).
Proof.
  intros Hcond Hacc. unfold select_body.
  destruct (heap.HPop (mpheap (sel_mp s))) as [[h rec]|]; [|exact Hacc].
  destruct (Fee _ <? MinFee c); [exact Hacc|].
  destruct ((0 <? GasLimit c) && _) eqn:Hgas; [exact Hacc|].
  destruct Hacc as (Hsum & Hlen & Hlim).
  unfold accounting. cbn [Transactions GasUsed sel_result].
  unfold select_cond in Hcond.
  apply andb_true_iff in Hcond as [Hc%Z.ltb_lt _].
  split; [|split].
  - by rewrite sum_gas_snoc, Hsum, wrap64_add_l.
  - rewrite length_app. simpl. lia.
  - intros Hpos. pose proof (wrap64_range (GasUsed (sel_result s)
                                           + Gas (tx (load h rec)))).
    apply andb_false_iff in Hgas as [Hg%Z.ltb_ge|Hg%Z.ltb_ge]; lia.
Qed.

Lemma select_loop_accounting (c : BlockConstraints) (fuel : nat)
    (s : selState) :
  accounting c (sel_result s) ->
  accounting c (sel_result (select_loop fuel c s)).
Proof.
  revert s. induction fuel as [|f IH]; intros s Hs; simpl; [done|].
  destruct (select_cond c s) eqn:Hcond; [|done].
  by apply IH, select_body_accounting.
Qed.

Lemma SelectTransactions_accounting (m : mempool) (c : BlockConstraints) :
  accounting c (SelectTransactions m c).2.
Proof.
  assert (accounting c (sel_result (sel_init m))) as H0.
  { split; [done|]. simpl. split; lia. }
  unfold SelectTransactions. destruct (_ || _); [done|].
  by apply select_loop_accounting.
Qed.

(** ** The turn in which a transaction is popped *)

Lemma select_after_S (c : BlockConstraints) (m : mempool) (k : nat) :
  select_cond c (select_after k c m) = true ->
  select_after (S k) c m = select_body c (select_after k c m).
Proof.
  intros Hcond. unfold select_after in *.
  replace (S k) with (k + 1)%nat by lia. rewrite select_loop_split.
  simpl. by rewrite Hcond.
Qed.

Lemma popped_turn (c : BlockConstraints) (m : mempool) (k : nat) (t : Tx) :
  mp_ok m -> popped c m k = Some t ->
  let s := select_after k c m in
  let s' := select_after (S k) c m in
  let sf := select_loop (length (elems (mpheap m))) c (sel_init m) in
  exists rec,
    select_runs m c = true
    /\ sel_inv s /\ sel_inv s'
    /\ later (sel_init m) s /\ later s' sf
    /\ rec ∈ elems (mpheap (sel_mp s))
    /\ (rec ∉ elems (mpheap (sel_mp s')))
    /\ t = tx (load (mpheap (sel_mp s)) rec)
    /\ table (sel_mp s) !! ID t = Some rec
    /\ same_txs (mpheap (sel_mp s)) (mpheap (sel_mp s'))
    /\ turn c s s' t rec.
Proof.
  intros Hok Hpop. cbv zeta. unfold popped in Hpop.
  destruct (select_runs m c) eqn:Hruns; [|done]. cbn [andb] in Hpop.
  destruct (select_cond c (select_after k c m)) eqn:Hcond; [|done].
  destruct (select_after_final m c k Hok) as (Hinv & Hl0 & _ & _ & _).
  destruct (select_after_final m c (S k) Hok) as (Hinv' & _ & _ & Hl1 & _).
  destruct (select_body_spec c _ Hinv Hcond)
    as (h' & rec & Hp & Ht & Hh' & _ & Hrec & Hs & Hperm & _ & Hturn & _).
  cbv zeta in *. rewrite Hp, Ht in Hpop. injection Hpop as <-.
  rewrite (select_after_S _ _ _ Hcond) in *.
  exists rec. repeat (split; [done|]).
  split.
  { rewrite Hh'. destruct Hinv as (_ & Hnd & _).
    rewrite Hperm in Hnd. apply NoDup_app in Hnd as (Hnd & _).
    by apply NoDup_cons in Hnd as [? _]. }
  split; [done|]. split; [|by rewrite Hh'].
  destruct Hinv as (_ & _ & _ & [_ T2] & _). apply T2.
  apply elem_of_app. by left.
Qed.

Lemma later_result_ids (s s' : selState) (a : Tx) :
  later s s' -> a ∈ Transactions (sel_result s') ->
  a ∈ Transactions (sel_result s)
  \/ (table (sel_mp s') !! ID a = None
      /\ exists q, q ∈ elems (mpheap (sel_mp s))
                   /\ a = tx (load (mpheap (sel_mp s)) q)).
Proof.
  intros (_ & _ & _ & _ & new & sk & -> & _ & Hnew & _) Ha.
  apply elem_of_app in Ha as [Ha|Ha]; [by left|right]. by apply Hnew.
Qed.

Lemma later_table_None (s s' : selState) (id : TxID) :
  later s s' -> table (sel_mp s) !! id = None ->
  table (sel_mp s') !! id = None.
Proof. intros (_ & Hsub & _) Hn. by eapply lookup_weaken_None. Qed.

(** The transactions a selection returns were in the table when it
    started, and are not in it when it ends. *)
Lemma select_result_ids (m : mempool) (c : BlockConstraints) (a : Tx) :
  mp_ok m -> a ∈ Transactions (SelectTransactions m c).2 ->
  is_Some (table m !! ID a)
  /\ table (SelectTransactions m c).1 !! ID a = None.
Proof.
  intros Hok Ha. destruct (select_runs m c) eqn:Hruns; last first.
  { rewrite (select_runs_false _ _ Hruns) in Ha. simpl in Ha.
    by apply elem_of_nil in Ha. }
  destruct (SelectTransactions_spec m c Hok Hruns)
    as (Hr & _ & Htbl & _). cbv zeta in *.
  destruct (select_after_final m c 0 Hok) as (_ & _ & _ & Hl & _).
  unfold select_after in Hl. simpl in Hl.
  rewrite Hr in Ha. rewrite Htbl.
  destruct (later_result_ids _ _ a Hl Ha) as [Hin|(Hn & q & Hq & ->)].
  { simpl in Hin. by apply elem_of_nil in Hin. }
  split; [|done]. simpl in *.
  destruct Hok as (_ & _ & _ & [_ T2] & _). rewrite app_nil_r in T2.
  rewrite (T2 q Hq). by eexists.
Qed.



(** ** The selection returns its transactions in priority order *)

Lemma before_priority (a b : Tx) : before a b <-> priority_before a b.
Proof.
  unfold before, priority_before. rewrite txLess_spec.
  split; intros [?|[?|?]]; auto; left; lia.
Qed.

Lemma StronglySorted_snoc {A} (R : A -> A -> Prop) (l : list A) (x : A) :
  StronglySorted R l -> Forall (fun a => R a x) l ->
  StronglySorted R (l ++ [x]).
Proof.
  induction 1 as [|a l Hl IH Ha]; intros Hx; simpl.
  - repeat constructor.
  - apply Forall_cons in Hx as [Hax Hx]. constructor; [by apply IH|].
    apply Forall_app. split; [done|]. by constructor.
Qed.

Lemma select_body_sorted (c : BlockConstraints) (s : selState) :
  sel_inv s -> select_cond c s = true -> sorted_inv s ->
  sorted_inv (select_body c s).
Proof.
  intros Hinv Hcond [Hsorted Hahead].
  destruct (select_body_spec c s Hinv Hcond)
    as (h' & rec & _ & _ & Hh' & _ & Hrec & Hs & Hperm & Hmax & Hturn & _).
  cbv zeta in *. unfold sorted_inv. rewrite Hh'.
  assert (forall q, q ∈ elems h' -> q ∈ elems (mpheap (sel_mp s))) as Hsub.
  { intros q Hq. rewrite Hperm. by right. }
  destruct Hs as [_ Hs].
  destruct Hturn as [? _ Hr _|? ? ? _ Hr _|? ? _ Hr _]; rewrite Hr.
  - split; [done|]. intros a q Ha Hq. rewrite Hs. by auto.
  - split; [done|]. intros a q Ha Hq. rewrite Hs. by auto.
  - simpl. split.
    + apply StronglySorted_snoc; [done|]. apply Forall_forall.
      intros a Ha. by apply Hahead.
    + intros a q [Ha|Ha%list_elem_of_singleton]%elem_of_app Hq;
        rewrite Hs; [by auto|]. subst a.
      apply txLess_total; [|by auto].
      intros Heq.
      assert (q = rec) as ->.
      { apply (live_ids_inj _ _ q rec Hinv); [| |done];
          apply elem_of_app; left; auto. }
      destruct Hinv as (_ & Hnd & _). rewrite Hperm in Hnd.
      apply NoDup_app in Hnd as (Hnd & _).
      by apply NoDup_cons in Hnd as [? _].
Qed.

Lemma select_loop_sorted (c : BlockConstraints) (fuel : nat) (s : selState) :
  sel_inv s -> sorted_inv s -> sorted_inv (select_loop fuel c s).
Proof.
  revert s. induction fuel as [|f IH]; intros s Hinv Hs; simpl; [done|].
  destruct (select_cond c s) eqn:Hcond; [|done].
  apply IH; [|by apply select_body_sorted].
  by destruct (select_body_spec c s Hinv Hcond)
    as (_ & _ & _ & _ & _ & _ & _ & _ & _ & _ & _ & ?).
Qed.

Lemma SelectTransactions_sorted (m : mempool) (c : BlockConstraints) :
  mp_ok m -> StronglySorted before (Transactions (SelectTransactions m c).2).
Proof.
  intros Hok. unfold SelectTransactions.
  destruct (_ || _); [constructor|]. simpl.
  apply select_loop_sorted; [done|]. split; [constructor|].
  by intros a q Ha%elem_of_nil.
Qed.

(** ** The selection as a walk down the priority order *)

Lemma txs_of_app (h : txHeap) (ps qs : list addr) :
  txs_of h (ps ++ qs) = txs_of h ps ++ txs_of h qs.
Proof. apply fmap_app. Qed.

Lemma txs_of_same (h h' : txHeap) (ps : list addr) :
  same_txs h h' -> txs_of h' ps = txs_of h ps.
Proof. intros [_ Hs]. apply list_fmap_ext. intros ? p _. apply Hs. Qed.

Lemma select_loop_walk (c : BlockConstraints) (L : list Tx) :
  forall (fuel : nat) (s : selState),
  sel_inv s -> StronglySorted before L ->
  L ≡ₚ heap_txs (mpheap (sel_mp s)) -> (length L <= fuel)%nat ->
  let s' := select_loop fuel c s in
  let w := walk c (Transactions (sel_result s)) (GasUsed (sel_result s)) L in
  sel_result s' = w.1
  /\ (txs_of (mpheap (sel_mp s'))
             (elems (mpheap (sel_mp s')) ++ sel_skipped s')
      ≡ₚ txs_of (mpheap (sel_mp s)) (sel_skipped s) ++ w.2).
Proof.
  induction L as [|t L IH]; intros fuel s Hinv Hsorted Hperm Hfuel; cbv zeta.
  { assert (elems (mpheap (sel_mp s)) = []) as Hnil.
    { apply Permutation_nil in Hperm. by apply fmap_nil_inv in Hperm. }
    rewrite select_loop_stable.
    - simpl. rewrite Hnil, app_nil_r. simpl. by destruct (sel_result s).
    - unfold select_cond. simpl. unfold txHeap_Len. rewrite Hnil.
      apply andb_false_r. }
  simpl in Hfuel. destruct fuel as [|f]; [lia|].
  cbn [walk select_loop].
  assert ((0 <? heap.Len (mpheap (sel_mp s))) = true) as Hlen.
  { apply Z.ltb_lt. simpl. unfold txHeap_Len.
    apply Permutation_length in Hperm. rewrite heap_txs_length in Hperm.
    simpl in Hperm. lia. }
  destruct (Z.of_nat (length (Transactions (sel_result s))) <? MaxTx c)
    eqn:Hmax; last first.
  { assert (select_cond c s = false) as ->.
    { unfold select_cond. by rewrite Hmax. }
    simpl. split; [by destruct (sel_result s)|].
    rewrite txs_of_app, Hperm. apply Permutation_app_comm. }
  assert (select_cond c s = true) as Hcond.
  { unfold select_cond. by rewrite Hmax, Hlen. }
  rewrite Hcond.
  destruct (select_body_spec c s Hinv Hcond)
    as (h' & rec & _ & _ & Hh' & _ & Hrec & Hs & Hp & Hmx & Hturn & Hinv').
  cbv zeta in *.
  set (h := mpheap (sel_mp s)) in *.
  assert (heap_txs h ≡ₚ tx (load h rec) :: heap_txs h') as Hsplit.
  { change (heap_txs h') with (txs_of h' (elems h')).
    rewrite (txs_of_same h h' _ Hs).
    unfold heap_txs, txs_of. by rewrite Hp. }
  assert (tx (load h rec) = t) as Ht.
  { assert (tx (load h rec) ∈ t :: L) as Hin.
    { rewrite Hperm, Hsplit. by left. }
    apply elem_of_cons in Hin as [?|Hin]; [done|exfalso].
    apply StronglySorted_inv in Hsorted as [_ Hall].
    rewrite Forall_forall in Hall. specialize (Hall _ Hin).
    assert (t ∈ heap_txs h) as Hth by (rewrite <- Hperm; by left).
    apply list_elem_of_fmap in Hth as (q & Hq & Hqin).
    specialize (Hmx q Hqin). rewrite <- Hq in Hmx.
    unfold before in Hall. congruence. }
  rewrite Ht in *.
  assert (L ≡ₚ heap_txs (mpheap (sel_mp (select_body c s)))) as Hperm'.
  { rewrite Hh'. rewrite Hsplit in Hperm.
    by apply Permutation_cons_inv in Hperm. }
  apply StronglySorted_inv in Hsorted as [Hsorted _].
  specialize (IH f (select_body c s) Hinv' Hsorted Hperm' ltac:(lia)).
  cbv zeta in IH. destruct IH as [IH1 IH2]. rewrite Hh' in IH2.
  assert (txs_of h' (sel_skipped s) = txs_of h (sel_skipped s)) as Hsk
    by (by apply txs_of_same).
  destruct Hturn as [Hfee _ Hr Hk|Hfee Hg1 Hg2 _ Hr Hk|Hfee Hg _ Hr Hk];
    rewrite Hr, Hk in *.
  - apply Z.ltb_lt in Hfee. rewrite Hfee. by rewrite <- Hsk.
  - apply Z.ltb_ge in Hfee. apply Z.ltb_lt in Hg1, Hg2.
    rewrite Hfee, Hg1, Hg2. simpl. split; [done|].
    rewrite IH2, txs_of_app, Hsk. simpl.
    rewrite (proj2 Hs rec), Ht. by rewrite <- app_assoc.
  - apply Z.ltb_ge in Hfee. rewrite Hfee.
    assert ((0 <? GasLimit c)
            && (GasLimit c <? wrap64 (GasUsed (sel_result s) + Gas t))
            = false) as ->.
    { apply andb_false_iff.
      destruct Hg; [left|right]; by apply Z.ltb_ge. }
    simpl in *. by rewrite <- Hsk.
Qed.

Lemma SelectTransactions_walk (m : mempool) (c : BlockConstraints)
    (L : list Tx) :
  mp_ok m -> StronglySorted before L -> L ≡ₚ heap_txs (mpheap m) ->
  (SelectTransactions m c).2 = (walk c [] 0 L).1
  /\ List (SelectTransactions m c).1 ≡ₚ (walk c [] 0 L).2.
Proof.
  intros Hok Hsorted Hperm.
  destruct (select_runs m c) eqn:Hruns; last first.
  { rewrite (select_runs_false _ _ Hruns). simpl.
    rewrite (List_perm m Hok), <- Hperm.
    unfold select_runs in Hruns. apply negb_false_iff in Hruns.
    destruct L as [|t L]; [done|]. simpl.
    apply orb_true_iff in Hruns as [Hmx|Hlen].
    - apply Z.leb_le in Hmx.
      assert ((Z.of_nat 0 <? MaxTx c) = false) as ->
        by (apply Z.ltb_ge; lia).
      by split.
    - apply Z.eqb_eq in Hlen. simpl in Hlen. unfold txHeap_Len in Hlen.
      apply Permutation_length in Hperm. rewrite heap_txs_length in Hperm.
      simpl in Hperm. lia. }
  destruct (SelectTransactions_spec m c Hok Hruns)
    as (Hr & Hok' & _ & _ & Hs & Hp). cbv zeta in *.
  destruct (select_loop_walk c L (length (elems (mpheap m))) (sel_init m))
    as [W1 W2]; try done.
  { apply Permutation_length in Hperm. rewrite heap_txs_length in Hperm.
    simpl. lia. }
  cbv zeta in *. simpl in W1, W2. split; [by rewrite Hr|].
  rewrite (List_perm _ Hok'), <- W2. unfold heap_txs.
  fold (txs_of (mpheap (SelectTransactions m c).1)
               (elems (mpheap (SelectTransactions m c).1))).
  rewrite (txs_of_same _ _ _ Hs). unfold txs_of. by rewrite Hp.
Qed.

(** ** Adding to a mempool that does not hold the id *)

Lemma Add_fresh (m : mempool) (t : Tx) :
  mp_ok m -> (forall a, a ∈ heap_txs (mpheap m) -> ID a <> ID t) ->
  (Add m t).2 = None /\ mp_ok (Add m t).1
  /\ heap_txs (mpheap (Add m t).1) ≡ₚ t :: heap_txs (mpheap m).
Proof.
  intros Hok Hfresh.
  assert (table m !! ID t = None) as Hn.
  { destruct (table m !! ID t) as [p|] eqn:Hp; [exfalso|done].
    destruct Hok as (_ & _ & _ & [T1 _] & _). rewrite app_nil_r in T1.
    destruct (T1 _ _ Hp) as [Hin Hid].
    apply (Hfresh (tx (load (mpheap m) p))); [|done].
    unfold heap_txs. apply list_elem_of_fmap. by exists p. }
  destruct (Add_spec m t Hok Hn) as (m' & -> & Hok' & _ & _ & Hp). done.
Qed.

Lemma perm_singleton_eq {A} (l : list A) (x : A) : l ≡ₚ [x] -> l = [x].
Proof. apply Permutation_singleton_r. Qed.

Lemma mp2 (a b : Tx) :
  ID a <> ID b ->
  let m := (Add (Add NewMempool a).1 b).1 in
  mp_ok m /\ heap_txs (mpheap m) ≡ₚ [b; a].
Proof.
  intros Hab. cbv zeta.
  destruct (Add_fresh NewMempool a NewMempool_ok) as (_ & Ok1 & P1).
  { by intros x Hx%elem_of_nil. }
  destruct (Add_fresh (Add NewMempool a).1 b Ok1) as (_ & Ok2 & P2).
  { intros x Hx. rewrite P1 in Hx. simpl in Hx.
    apply list_elem_of_singleton in Hx as ->. done. }
  split; [done|]. by rewrite P2, P1.
Qed.

Lemma mp3 (a b c : Tx) :
  ID a <> ID b -> ID a <> ID c -> ID b <> ID c ->
  let m := (Add (Add (Add NewMempool a).1 b).1 c).1 in
  mp_ok m /\ heap_txs (mpheap m) ≡ₚ [c; b; a].
Proof.
  intros Hab Hac Hbc. cbv zeta.
  destruct (mp2 a b Hab) as [Ok2 P2]. cbv zeta in *.
  destruct (Add_fresh (Add (Add NewMempool a).1 b).1 c Ok2) as (_ & Ok3 & P3).
  { intros x Hx. rewrite P2 in Hx.
    apply elem_of_cons in Hx as [->|Hx]; [done|].
    apply list_elem_of_singleton in Hx as ->. done. }
  split; [done|]. by rewrite P3, P2.
Qed.

(** ** The scenarios *)

Lemma scenario_S1 (tA tB tC : Tx) :
  Fee tA = 1 -> Fee tB = 10 -> Fee tC = 100 ->
  Gas tA = 50 -> Gas tB = 50 -> Gas tC = 50 ->
  ID tA <> ID tB -> ID tA <> ID tC -> ID tB <> ID tC ->
  let m := (Add (Add (Add NewMempool tA).1 tB).1 tC).1 in
  (SelectTransactions m
     {| GasLimit := 1000000; MaxTx := 3; MinFee := 0 |}).2
  = {| Transactions := [tC; tB; tA]; GasUsed := 150 |}.
Proof.
  intros FA FB FC GA GB GC Hab Hac Hbc. cbv zeta.
  destruct (mp3 tA tB tC Hab Hac Hbc) as [Hok Hperm]. cbv zeta in *.
  destruct (SelectTransactions_walk _
              {| GasLimit := 1000000; MaxTx := 3; MinFee := 0 |}
              [tC; tB; tA] Hok) as [Hr _].
  { repeat constructor; unfold before; apply txLess_spec; left; lia. }
  { by symmetry. }
  rewrite Hr. simpl.
  rewrite FA, FB, FC, GA, GB, GC. reflexivity.
Qed.

Lemma scenario_S2 (tA tB : Tx) :
  Fee tA = 100 -> Gas tA = 100 -> Fee tB = 1 -> Gas tB = 1 ->
  ID tA <> ID tB ->
  let m := (Add (Add NewMempool tA).1 tB).1 in
  let c := {| GasLimit := 1; MaxTx := 10; MinFee := 0 |} in
  (SelectTransactions m c).2 = {| Transactions := [tB]; GasUsed := 1 |}
  /\ List (SelectTransactions m c).1 = [tA].
Proof.
  intros FA GA FB GB Hab. cbv zeta.
  destruct (mp2 tA tB Hab) as [Hok Hperm]. cbv zeta in *.
  destruct (SelectTransactions_walk _
              {| GasLimit := 1; MaxTx := 10; MinFee := 0 |}
              [tA; tB] Hok) as [Hr Hl].
  { repeat constructor; unfold before; apply txLess_spec; left; lia. }
  { rewrite Hperm. apply perm_swap. }
  rewrite Hr. simpl in *. rewrite FA, FB, GA, GB in *. simpl in *.
  split; [reflexivity|]. by apply perm_singleton_eq.
Qed.


(** ** C1: accounting of a selection *)

(** The claim C1 as it is worded, at one mempool and one constraints
    value. *)
Lemma select_accounting_counterexample :
  let c := {| GasLimit := 0; MaxTx := -1; MinFee := 0 |} in
  let r := (SelectTransactions NewMempool c).2 in
  ~ (GasUsed r = sum_gas (Transactions r)
     /\ Z.of_nat (length (Transactions r)) <= MaxTx c
     /\ (0 < GasLimit c -> GasUsed r <= GasLimit c)).
Proof. vm_compute. intros (_ & H & _). by apply H. Qed.

(** C1 (amended). For every mempool state and every constraints value, the
    result [r] of select satisfies: the number of returned transactions is
    at most [max_tx], or zero when [max_tx] is negative; [r.gas_used] equals
    the sum of [tx.gas] over the returned transactions whenever that sum is
    below 2^64; and, when [gas_limit > 0], [r.gas_used <= gas_limit]. *)
Theorem select_accounting (m : mempool) (c : BlockConstraints) :
  let r := (SelectTransactions m c).2 in
  Z.of_nat (length (Transactions r)) <= Z.max 0 (MaxTx c)
  /\ (0 <= sum_gas (Transactions r) < two64 ->
      GasUsed r = sum_gas (Transactions r))
  /\ (0 < GasLimit c -> GasUsed r <= GasLimit c).
Proof.
  cbv zeta.
  destruct (SelectTransactions_accounting m c) as (Hsum & Hlen & Hlim).
  split; [done|]. split.
  - intros Hsmall. by rewrite Hsum, wrap64_small.
  - intros Hpos. by apply Hlim.
Qed.

Lemma select_accounting_witness :
  let m := mpOf [s2A; s2B] in
  let c := {| GasLimit := 150; MaxTx := 10; MinFee := 0 |} in
  let r := (SelectTransactions m c).2 in
  Z.of_nat (length (Transactions r)) <= 10
  /\ GasUsed r = sum_gas (Transactions r)
  /\ GasUsed r <= 150.
Proof.
  cbv zeta.
  destruct (select_accounting (mpOf [s2A; s2B])
              {| GasLimit := 150; MaxTx := 10; MinFee := 0 |})
    as (H1 & H2 & H3).
  split; [exact H1|]. split.
  - apply H2. vm_compute. split; [discriminate|reflexivity].
  - apply H3. reflexivity.
Defined.

(** ** C9: a failed call changes nothing *)

(** C9. Whenever [Add] returns [ErrTxExists], or [Update] or [Remove]
    returns [ErrTxNotFound], the mempool after the call is the mempool
    before it: the same listing and the same outcome of every selection. *)
Theorem failed_call_changes_nothing (m : mempool) :
  (forall t, (Add m t).2 = Some ErrTxExists ->
     (Add m t).1 = m /\ List (Add m t).1 = List m
     /\ forall c, SelectTransactions (Add m t).1 c = SelectTransactions m c)
  /\ (forall t, (Update m t).2 = Some ErrTxNotFound ->
        (Update m t).1 = m /\ List (Update m t).1 = List m
        /\ forall c,
             SelectTransactions (Update m t).1 c = SelectTransactions m c)
  /\ (forall id, (Remove m id).2 = Some ErrTxNotFound ->
        (Remove m id).1 = m /\ List (Remove m id).1 = List m
        /\ forall c,
             SelectTransactions (Remove m id).1 c = SelectTransactions m c).
Proof.
  split; [|split].
  - intros t. unfold Add. by destruct (table m !! ID t).
  - intros t. unfold Update. by destruct (table m !! ID t).
  - intros id. unfold Remove. by destruct (table m !! id).
Qed.

Lemma failed_call_witness :
  (Add (mpOf [s3A]) s3A).1 = mpOf [s3A]
  /\ (Update NewMempool s3A).1 = NewMempool
  /\ (Remove (mpOf [s3A]) "zz").1 = mpOf [s3A].
Proof.
  split; [|split].
  - apply (failed_call_changes_nothing (mpOf [s3A])). reflexivity.
  - apply (failed_call_changes_nothing NewMempool). reflexivity.
  - apply (failed_call_changes_nothing (mpOf [s3A])). reflexivity.
Defined.

(** ** C2: priority order of the selected transactions *)

Lemma StronglySorted_consecutive {A} (R : A -> A -> Prop) (l : list A)
    (i : nat) (a b : A) :
  StronglySorted R l -> l !! i = Some a -> l !! S i = Some b -> R a b.
Proof.
  intros Hs. revert i. induction Hs as [|x l Hs IH Hx]; intros i Ha Hb.
  { done. }
  destruct i as [|i]; simpl in *.
  - injection Ha as <-. rewrite Forall_forall in Hx. apply Hx.
    by eapply list_elem_of_lookup_2.
  - by eapply IH.
Qed.

(** C2. For every mempool state, the transactions returned by select are in
    strictly decreasing priority order: of two consecutive returned
    transactions [a] then [b], either [a] has the higher fee, or the fees
    are equal and [a] has the earlier timestamp, or fees and timestamps are
    equal and [a] has the smaller id. In particular (S1), after adding three
    transactions with fees 1, 10, 100 (their ids distinct, gas 50 each),
    select with gas limit 1000000, [max_tx] 3 and [min_fee] 0 returns exactly
    three transactions, with fees 100, 10, 1 in this order and 150 gas
    used. *)
Theorem select_priority_order :
  (forall (m : mempool) (c : BlockConstraints) (i : nat) (a b : Tx),
     reachable m ->
     Transactions (SelectTransactions m c).2 !! i = Some a ->
     Transactions (SelectTransactions m c).2 !! S i = Some b ->
     priority_before a b)
  /\ (forall tA tB tC : Tx,
        Fee tA = 1 -> Fee tB = 10 -> Fee tC = 100 ->
        Gas tA = 50 -> Gas tB = 50 -> Gas tC = 50 ->
        ID tA <> ID tB -> ID tA <> ID tC -> ID tB <> ID tC ->
        let m := (Add (Add (Add NewMempool tA).1 tB).1 tC).1 in
        let r := (SelectTransactions m
                    {| GasLimit := 1000000; MaxTx := 3; MinFee := 0 |}).2 in
        Transactions r = [tC; tB; tA]
        /\ Fee <$> Transactions r = [100; 10; 1]
        /\ GasUsed r = 150).
Proof.
  split.
  - intros m c i a b Hm Ha Hb. apply before_priority.
    eapply StronglySorted_consecutive; [|exact Ha|exact Hb].
    by apply SelectTransactions_sorted, reachable_ok.
  - intros tA tB tC FA FB FC GA GB GC Hab Hac Hbc. cbv zeta.
    rewrite (scenario_S1 tA tB tC) by done. simpl.
    by rewrite FA, FB, FC.
Qed.

Lemma select_priority_order_witness :
  priority_before s1C s1B
  /\ Fee <$> Transactions
       (SelectTransactions (Add (Add (Add NewMempool s1A).1 s1B).1 s1C).1
          {| GasLimit := 1000000; MaxTx := 3; MinFee := 0 |}).2
     = [100; 10; 1].
Proof.
  destruct select_priority_order as [H1 H2]. split.
  - apply (H1 (mpOf [s1A; s1B; s1C])
              {| GasLimit := 1000000; MaxTx := 3; MinFee := 0 |} 0%nat).
    + by exists (OpAdd <$> [s1A; s1B; s1C]).
    + reflexivity.
    + reflexivity.
  - apply (H2 s1A s1B s1C); (reflexivity || discriminate).
Defined.

(** ** C3: the low-fee purge *)

Lemma turn_purge_inv (c : BlockConstraints) (s s' : selState) (t : Tx)
    (rec : addr) :
  turn c s s' t rec -> Fee t < MinFee c ->
  table (sel_mp s') = delete (ID t) (table (sel_mp s))
  /\ sel_result s' = sel_result s.
Proof. intros [? ? ? ?|? ? ? ? ? ?|? ? ? ? ?] Hfee; (done || lia). Qed.

Lemma popped_not_returned_before (c : BlockConstraints) (m : mempool)
    (k : nat) (t a : Tx) :
  mp_ok m -> popped c m k = Some t ->
  a ∈ Transactions (sel_result (select_after k c m)) -> ID a <> ID t.
Proof.
  intros Hok Hpop Ha.
  destruct (popped_turn c m k t Hok Hpop)
    as (rec & _ & _ & _ & Hl0 & _ & _ & _ & _ & Htbl & _).
  cbv zeta in *.
  destruct (later_result_ids _ _ a Hl0 Ha) as [Hin|(Hn & _)].
  { simpl in Hin. by apply elem_of_nil in Hin. }
  intros Heq. rewrite Heq in Hn. congruence.
Qed.

Lemma purged_gone (c : BlockConstraints) (m : mempool) (k : nat) (t : Tx) :
  mp_ok m -> popped c m k = Some t -> Fee t < MinFee c ->
  table (SelectTransactions m c).1 !! ID t = None
  /\ forall a, a ∈ Transactions (SelectTransactions m c).2 -> ID a <> ID t.
Proof.
  intros Hok Hpop Hfee.
  destruct (popped_turn c m k t Hok Hpop)
    as (rec & Hruns & Hinv & Hinv' & Hl0 & Hl1 & Hrec & _ & Ht & Htbl & Hs
        & Hturn).
  cbv zeta in *.
  destruct (turn_purge_inv _ _ _ _ _ Hturn Hfee) as [Htb Hr].
  destruct (SelectTransactions_spec m c Hok Hruns) as (-> & _ & -> & _).
  cbv zeta.
  assert (table (sel_mp (select_after (S k) c m)) !! ID t = None) as Hn.
  { rewrite Htb. apply lookup_delete_eq. }
  split; [by eapply later_table_None|].
  intros a Ha.
  destruct (later_result_ids _ _ a Hl1 Ha) as [Hin|(_ & q & Hq & ->)].
  - rewrite Hr in Hin.
    exact (popped_not_returned_before c m k t a Hok Hpop Hin).
  - intros Heq.
    destruct Hinv' as (_ & _ & _ & [_ T2] & _).
    rewrite <- Heq, T2 in Hn; [done|]. apply elem_of_app. by left.
Qed.




(** ** C4: skipped for gas, but kept *)

(** The claim C4 as it is worded, at one mempool: the only transaction has
    a fee below [min_fee] and more gas than the limit. It is popped, its
    inclusion would exceed the gas limit, and it is not retained. *)
Lemma skip_retains_counterexample :
  let m := mpOf [txHeavy] in
  let c := {| GasLimit := 1; MaxTx := 10; MinFee := 50 |} in
  popped c m 0 = Some txHeavy
  /\ 0 < GasLimit c
  /\ GasLimit c < GasUsed (sel_result (select_after 0 c m)) + Gas txHeavy
  /\ Transactions (SelectTransactions m c).2 = []
  /\ List (SelectTransactions m c).1 = [].
Proof. vm_compute. repeat split. Qed.

Lemma turn_skip_inv (c : BlockConstraints) (s s' : selState) (t : Tx)
    (rec : addr) :
  turn c s s' t rec -> 0 < GasLimit c -> MinFee c <= Fee t ->
  GasLimit c < GasUsed (sel_result s) + Gas t < two64 ->
  table (sel_mp s') = table (sel_mp s)
  /\ sel_result s' = sel_result s
  /\ sel_skipped s' = sel_skipped s ++ [rec].
Proof.
  intros [? ? ? ?|? ? ? ? ? ?|? Hg ? ? ?] Hlim Hfee Hgas; [lia|done|].
  rewrite wrap64_small in Hg by lia. lia.
Qed.

Lemma skipped_kept (c : BlockConstraints) (m : mempool) (k : nat) (t : Tx) :
  mp_ok m -> popped c m k = Some t ->
  0 < GasLimit c -> MinFee c <= Fee t ->
  GasLimit c < GasUsed (sel_result (select_after k c m)) + Gas t < two64 ->
  (forall a, a ∈ Transactions (SelectTransactions m c).2 -> ID a <> ID t)
  /\ t ∈ List (SelectTransactions m c).1.
Proof.
  intros Hok Hpop Hlim Hfee Hgas.
  destruct (popped_turn c m k t Hok Hpop)
    as (rec & Hruns & Hinv & Hinv' & Hl0 & Hl1 & Hrec & Hrec' & Ht & Htbl
        & Hs & Hturn).
  cbv zeta in *.
  destruct (turn_skip_inv _ _ _ _ _ Hturn Hlim Hfee Hgas) as (Htb & Hr & Hk).
  destruct (SelectTransactions_spec m c Hok Hruns)
    as (Hres & Hok' & Htbl' & _ & Hs' & Hperm).
  cbv zeta in *.
  set (s := select_after k c m) in *.
  set (s' := select_after (S k) c m) in *.
  set (sf := select_loop (length (elems (mpheap m))) c (sel_init m)) in *.
  assert (rec ∈ sel_skipped s') as Hsk.
  { rewrite Hk. apply elem_of_app. right. by left. }
  assert (tx (load (mpheap (sel_mp s')) rec) = t) as Ht'.
  { rewrite Ht. apply Hs. }
  split.
  - intros a Ha. rewrite Hres in Ha.
    destruct (later_result_ids _ _ a Hl1 Ha) as [Hin|(_ & q & Hq & ->)].
    + rewrite Hr in Hin.
      exact (popped_not_returned_before c m k t a Hok Hpop Hin).
    + intros Heq. rewrite <- Ht' in Heq.
      assert (q = rec) as ->.
      { apply (live_ids_inj _ _ q rec Hinv'); [| |done]; apply elem_of_app;
          [by left|by right]. }
      done.
  - destruct Hl1 as (Hs1 & _ & _ & _ & new & newsk & _ & Hksf & _).
    apply List_elem. exists (ID t), rec.
    assert (rec ∈ elems (mpheap (SelectTransactions m c).1)) as Hin.
    { rewrite Hperm, Hksf. apply elem_of_app. right.
      apply elem_of_app. by left. }
    assert (tx (load (mpheap (SelectTransactions m c).1) rec) = t) as Htf.
    { rewrite <- Ht'. destruct Hs' as [_ ->]. apply Hs1. }
    split; [|done].
    destruct Hok' as (_ & _ & _ & [_ T2] & _). rewrite app_nil_r in T2.
    rewrite <- Htf at 1. by apply T2.
Qed.

(** C4 (amended). During select with [gas_limit > 0], a transaction that is
    popped with a fee of at least [min_fee], and whose gas added to the gas
    used so far exceeds the gas limit (the sum being below 2^64), is
    skipped but retained: its id is absent from the returned list and the
    transaction is still listed by the mempool afterwards, all its fields
    unchanged. In particular (S2), after adding A (fee 100, gas 100) and B
    (fee 1, gas 1), select with gas limit 1, [max_tx] 10 and [min_fee] 0
    returns exactly [B] with 1 gas used, and the mempool then lists exactly
    A. *)
Theorem skip_retains :
  (forall (m : mempool) (c : BlockConstraints) (k : nat) (t : Tx),
     reachable m -> popped c m k = Some t ->
     0 < GasLimit c -> MinFee c <= Fee t ->
     GasLimit c < GasUsed (sel_result (select_after k c m)) + Gas t < two64 ->
     (forall a, a ∈ Transactions (SelectTransactions m c).2 -> ID a <> ID t)
     /\ t ∈ List (SelectTransactions m c).1)
  /\ (forall tA tB : Tx,
        Fee tA = 100 -> Gas tA = 100 -> Fee tB = 1 -> Gas tB = 1 ->
        ID tA <> ID tB ->
        let m := (Add (Add NewMempool tA).1 tB).1 in
        let c := {| GasLimit := 1; MaxTx := 10; MinFee := 0 |} in
        (SelectTransactions m c).2 = {| Transactions := [tB]; GasUsed := 1 |}
        /\ List (SelectTransactions m c).1 = [tA]).
Proof.
  split.
  - intros m c k t Hm%reachable_ok. by apply skipped_kept.
  - intros tA tB. apply scenario_S2.
Qed.

Lemma skip_retains_witness :
  let c := {| GasLimit := 1; MaxTx := 10; MinFee := 0 |} in
  s2A ∈ List (SelectTransactions (mpOf [s2A; s2B]) c).1
  /\ List (SelectTransactions (Add (Add NewMempool s2A).1 s2B).1 c).1
     = [s2A].
Proof.
  cbv zeta. destruct skip_retains as [H1 H2]. split.
  - apply (H1 (mpOf [s2A; s2B])
              {| GasLimit := 1; MaxTx := 10; MinFee := 0 |} 0%nat s2A).
    + by exists (OpAdd <$> [s2A; s2B]).
    + reflexivity.
    + reflexivity.
    + discriminate.
    + split; reflexivity.
  - apply (H2 s2A s2B); (reflexivity || discriminate).
Defined.

(** ** C10: no memory of past ids *)

Lemma Add_absent (m : mempool) (t : Tx) :
  mp_ok m -> table m !! ID t = None ->
  (Add m t).2 = None /\ t ∈ List (Add m t).1.
Proof.
  intros Hok Hn.
  destruct (Add_spec m t Hok Hn) as (m' & -> & _ & Htbl & Ht & _).
  split; [done|]. simpl. apply List_elem. exists (ID t), (next m).
  split; [|done]. rewrite Htbl. apply lookup_insert_eq.
Qed.

(** C10. The mempool retains no memory of past ids: for every id that has
    left the mempool through [Remove], through the low-fee purge, or by
    being drained by a selection, adding a transaction with that id next
    succeeds, and the transaction is listed again. *)
Theorem no_memory_of_ids :
  (forall (m : mempool) (id : TxID) (t : Tx),
     reachable m -> (Remove m id).2 = None -> ID t = id ->
     (Add (Remove m id).1 t).2 = None
     /\ t ∈ List (Add (Remove m id).1 t).1)
  /\ (forall (m : mempool) (c : BlockConstraints) (k : nat) (t0 t : Tx),
        reachable m -> popped c m k = Some t0 -> Fee t0 < MinFee c ->
        ID t = ID t0 ->
        (Add (SelectTransactions m c).1 t).2 = None
        /\ t ∈ List (Add (SelectTransactions m c).1 t).1)
  /\ (forall (m : mempool) (c : BlockConstraints) (t0 t : Tx),
        reachable m -> t0 ∈ Transactions (SelectTransactions m c).2 ->
        ID t = ID t0 ->
        (Add (SelectTransactions m c).1 t).2 = None
        /\ t ∈ List (Add (SelectTransactions m c).1 t).1).
Proof.
  split; [|split].
  - intros m id t Hm%reachable_ok Hrem <-.
    apply Add_absent; [by apply Remove_ok|].
    unfold Remove in *. destruct (table m !! ID t); [|done]. simpl.
    apply lookup_delete_eq.
  - intros m c k t0 t Hm%reachable_ok Hpop Hfee Heq.
    apply Add_absent; [by apply SelectTransactions_ok|].
    rewrite Heq. by destruct (purged_gone c m k t0 Hm Hpop Hfee).
  - intros m c t0 t Hm%reachable_ok Hin Heq.
    apply Add_absent; [by apply SelectTransactions_ok|].
    rewrite Heq. by destruct (select_result_ids m c t0 Hm Hin).
Qed.

Lemma no_memory_of_ids_witness :
  let c := {| GasLimit := 1000000; MaxTx := 10; MinFee := 50 |} in
  s3A ∈ List (Add (Remove (mpOf [s3A; s3B]) "a1").1 s3A).1
  /\ s3A ∈ List (Add (SelectTransactions (mpOf [s3A; s3B]) c).1 s3A).1
  /\ s3B ∈ List (Add (SelectTransactions (mpOf [s3A; s3B]) c).1 s3B).1.
Proof.
  cbv zeta. destruct no_memory_of_ids as (H1 & H2 & H3).
  assert (reachable (mpOf [s3A; s3B])) as Hr
    by (by exists (OpAdd <$> [s3A; s3B])).
  split; [|split].
  - by apply (H1 _ "a1" s3A Hr).
  - apply (H2 _ _ 1%nat s3A s3A Hr); reflexivity.
  - apply (H3 _ _ s3B s3B Hr); [|reflexivity].
    vm_compute. by left.
Defined.

(** ** The chain kept by the block loop *)

Lemma with_mempool_blocks n m : blocks (with_mempool n m) = blocks n.
Proof. reflexivity. Qed.

Lemma rpcTxAdd_blocks now n p : blocks (rpcTxAdd now n p).1 = blocks n.
Proof.
  unfold rpcTxAdd. destruct p as [p|]; [|reflexivity].
  destruct (_ || _); [reflexivity|].
  destruct (Add _ _) as [m [e|]]; reflexivity.
Qed.

Lemma rpcTxUpdate_blocks now n p : blocks (rpcTxUpdate now n p).1 = blocks n.
Proof.
  unfold rpcTxUpdate. destruct p as [p|]; [|reflexivity].
  destruct (String.eqb _ _); [reflexivity|].
  destruct (findTxByID _ _) as [t|]; [|reflexivity].
  destruct (Update _ _) as [m [e|]]; reflexivity.
Qed.

Lemma rpcTxRemove_blocks n p : blocks (rpcTxRemove n p).1 = blocks n.
Proof.
  unfold rpcTxRemove. destruct p as [p|]; [|reflexivity].
  destruct (String.eqb _ _); [reflexivity|].
  destruct (Remove _ _) as [m [[]|]]; reflexivity.
Qed.

Lemma rpcBlockGet_blocks n p : blocks (rpcBlockGet n p).1 = blocks n.
Proof.
  unfold rpcBlockGet. destruct p as [p|]; [|reflexivity].
  destruct (find _ _); reflexivity.
Qed.

(** No request handler writes the chain. *)
Lemma handleRPC_blocks now n httpMethod req :
  blocks (handleRPC now n httpMethod req).1 = blocks n.
Proof.
  unfold handleRPC. destruct (negb _); [reflexivity|].
  destruct req as [[p|p|p| | |p|s]|]; try reflexivity.
  - apply rpcTxAdd_blocks.
  - apply rpcTxUpdate_blocks.
  - apply rpcTxRemove_blocks.
  - apply rpcBlockGet_blocks.
Qed.

Lemma wrap64_succ z : wrap64 (wrap64 z + 1) = wrap64 (z + 1).
Proof. unfold wrap64. rewrite Zplus_mod_idemp_l. reflexivity. Qed.

Lemma chain_inv_start n : blocks n = [] -> chain_inv (loop_start n).
Proof.
  intros Hb. unfold chain_inv, loop_start; simpl. rewrite Hb.
  split; [reflexivity|]. split; [reflexivity|].
  intros i b Hi. rewrite lookup_nil in Hi. discriminate.
Qed.

Lemma chain_inv_tick now st : chain_inv st -> chain_inv (tick now st).
Proof.
  intros (Hh & Hp & Hl). unfold tick.
  destruct (BuildBlock _ _ _ _ _) as [m r] eqn:Hb. simpl.
  destruct r as [block|e].
  - unfold BuildBlock in Hb.
    destruct (Z.of_nat (length _) =? 0); [discriminate|].
    injection Hb as _ Hblock.
    unfold chain_inv; simpl.
    split; [|split].
    + rewrite length_app; simpl. rewrite Hh, wrap64_succ.
      f_equal. lia.
    + rewrite last_snoc. reflexivity.
    + intros i b Hi.
      destruct (decide (i < length (blocks (ls_node st))))%nat as [Hlt|Hge].
      * rewrite lookup_app_l in Hi by exact Hlt.
        destruct (Hl i b Hi) as [H1 H2]. split; [exact H1|].
        rewrite H2. destruct i as [|j]; [reflexivity|].
        rewrite lookup_app_l by lia. reflexivity.
      * assert (i = length (blocks (ls_node st))) as ->.
        { apply lookup_lt_Some in Hi. rewrite length_app in Hi.
          simpl in Hi. lia. }
        rewrite list_lookup_middle in Hi by reflexivity.
        injection Hi as <-. subst block. split; simpl.
        -- exact Hh.
        -- rewrite Hp.
           destruct (blocks (ls_node st)) as [|b0 bs] eqn:Hbs using rev_ind;
             [reflexivity|].
           rewrite last_snoc, length_app. simpl.
           replace (length bs + 1)%nat with (S (length bs)) by lia.
           rewrite lookup_app_l by (rewrite length_app; simpl; lia).
           rewrite list_lookup_middle by reflexivity. reflexivity.
  - exact (conj Hh (conj Hp Hl)).
Qed.

Lemma chain_inv_step st ev : chain_inv st -> chain_inv (step st ev).
Proof.
  destruct ev as [now|now httpMethod req]; [apply chain_inv_tick|].
  intros (Hh & Hp & Hl). unfold chain_inv, step; simpl.
  rewrite handleRPC_blocks. exact (conj Hh (conj Hp Hl)).
Qed.

Lemma chain_inv_run st evs : chain_inv st -> chain_inv (foldl step st evs).
Proof.
  revert st. induction evs as [|ev evs IH]; intros st Hst; [exact Hst|].
  simpl. apply IH, chain_inv_step, Hst.
Qed.

Lemma run_node_chain_inv cfg evs : chain_inv (run_node cfg evs).
Proof. apply chain_inv_run, chain_inv_start. reflexivity. Qed.

(** C5. In every state the node reaches by ticks of the block loop and
    requests, the chain is contiguous and hash-linked: the block at
    position 0 has height 0 and the all-zero previous hash, and the block
    at a position [i > 0] has height [i] and, as previous hash, the hash of
    the block at position [i - 1]. Positions are below 2^64, as every index
    of a Go slice is. *)
Theorem chain_contiguous_and_hash_linked cfg evs i b :
  blocks (ls_node (run_node cfg evs)) !! i = Some b ->
  Z.of_nat i < two64 ->
  Height (Header b) = Z.of_nat i
  /\ (i = O -> PrevHash (Header b) = zeroHash)
  /\ (forall j, i = S j ->
        exists p, blocks (ls_node (run_node cfg evs)) !! j = Some p
                  /\ PrevHash (Header b) = Block_Hash p).
Proof.
  intros Hi Hlt.
  destruct (run_node_chain_inv cfg evs) as (_ & _ & Hl).
  destruct (Hl i b Hi) as [H1 H2].
  split; [|split].
  - rewrite H1. apply wrap64_small. lia.
  - intros ->. exact H2.
  - intros j ->.
    destruct (blocks (ls_node (run_node cfg evs)) !! j) as [p|] eqn:Hj.
    + exists p. split; [reflexivity|exact H2].
    + apply lookup_ge_None in Hj. apply lookup_lt_Some in Hi. lia.
Qed.

Lemma chain_contiguous_and_hash_linked_witness :
  exists b p,
    blocks (ls_node (run_node sampleConfig sampleEvents)) !! 1%nat = Some b
    /\ blocks (ls_node (run_node sampleConfig sampleEvents)) !! 0%nat = Some p
    /\ Height (Header b) = 1
    /\ PrevHash (Header b) = Block_Hash p.
Proof.
  eexists. eexists.
  split; [vm_compute; reflexivity|].
  split; [vm_compute; reflexivity|].
  lazymatch goal with
  | |- Height (Header ?b) = _ /\ _ =>
      destruct (chain_contiguous_and_hash_linked sampleConfig sampleEvents
                  1%nat b) as (H1 & _ & H3);
        [vm_compute; reflexivity | reflexivity |]
  end.
  split; [exact H1|].
  destruct (H3 O eq_refl) as (p & Hp & Hprev).
  rewrite Hprev. f_equal.
  vm_compute in Hp. injection Hp as <-. reflexivity.
Defined.

(** ** Replies of the not-found paths *)

Lemma with_mempool_same n : with_mempool n (node_mempool n) = n.
Proof. destruct n; reflexivity. Qed.

Lemma rpcTxRemove_not_found n (id : TxID) :
  id <> EmptyString ->
  table (node_mempool n) !! id = None ->
  rpcTxRemove n (Some (mkRemoveTxParams id))
  = (n, {| status := 200;
           body := nested_error_body "mempool: tx not found" |}).
Proof.
  intros Hid Hnone. unfold rpcTxRemove; cbn [rID].
  destruct (String.eqb_spec id EmptyString) as [->|_]; [done|].
  unfold Remove. rewrite Hnone. rewrite with_mempool_same. reflexivity.
Qed.

Lemma rpcTxUpdate_not_found now n (id : TxID) fee :
  id <> EmptyString ->
  findTxByID n id = None ->
  rpcTxUpdate now n (Some (mkUpdateTxParams id fee))
  = (n, {| status := 200;
           body := nested_error_body "mempool: tx not found" |}).
Proof.
  intros Hid Hnone. unfold rpcTxUpdate; cbn [uID].
  destruct (String.eqb_spec id EmptyString) as [->|_]; [done|].
  rewrite Hnone. reflexivity.
Qed.

Lemma rpcBlockGet_not_found n h :
  (forall b, b ∈ blocks n -> Height (Header b) <> h) ->
  rpcBlockGet n (Some (mkBlockGetParams h))
  = (n, {| status := 200; body := nested_error_body "block not found" |}).
Proof.
  intros Hnone. unfold rpcBlockGet; cbn [gHeight].
  destruct (find _ _) as [b|] eqn:Hf; [|reflexivity].
  apply find_some in Hf as [Hin Heq].
  apply Z.eqb_eq in Heq. exfalso.
  apply (Hnone b); [|exact Heq]. apply list_elem_of_In, Hin.
Qed.

Lemma nested_error_body_fields msg :
  json_field "error" (nested_error_body msg) = None
  /\ json_field "result" (nested_error_body msg)
     = Some (JObj [("error", JStr msg)])
  /\ json_field_null "result" (nested_error_body msg) = false.
Proof. repeat split. Qed.

(** The sibling path [writeRPCError] does populate the top-level [error]
    and leaves [result] empty. *)
Lemma writeRPCError_fields st msg :
  msg <> EmptyString ->
  json_field "error" (body (writeRPCError st msg)) = Some (JStr msg)
  /\ json_field_null "result" (body (writeRPCError st msg)) = true.
Proof.
  intros Hmsg. unfold writeRPCError, encode_rpcResponse, json_field_null.
  cbn. unfold omitempty_string.
  destruct (String.eqb_spec msg EmptyString) as [->|_]; [done|].
  split; reflexivity.
Qed.

(** C6. On a node holding no transaction and no block, the requests
    tx.update and tx.remove for the id [nope] and block.get for height 7
    are answered with status 200 and a body whose top-level [error] field
    is missing and whose top-level [result] is not null: it is an object
    holding the error message. *)
Theorem not_found_reply_is_nested :
  let n := NewNode sampleConfig in
  let replies :=
    [ (handleRPC 0 n "POST"
         (Some (CallTxUpdate (Some (mkUpdateTxParams "nope" 7))))).2;
      (handleRPC 0 n "POST"
         (Some (CallTxRemove (Some (mkRemoveTxParams "nope"))))).2;
      (handleRPC 0 n "POST"
         (Some (CallBlockGet (Some (mkBlockGetParams 7))))).2 ] in
  replies
  = [ {| status := 200;
         body := nested_error_body "mempool: tx not found" |};
      {| status := 200;
         body := nested_error_body "mempool: tx not found" |};
      {| status := 200; body := nested_error_body "block not found" |} ]
  /\ Forall (fun r => json_field "error" (body r) = None
                      /\ json_field_null "result" (body r) = false) replies.
Proof.
  split; [reflexivity|].
  repeat constructor.
Qed.

(** ** Strings, decimal and hexadecimal renderings *)

Lemma chars_app (a b : string) : chars (a +:+ b) = chars a ++ chars b.
Proof.
  unfold chars. induction a as [|c a IH]; [reflexivity|].
  simpl. by rewrite IH.
Qed.

Lemma chars_inj (a b : string) : chars a = chars b -> a = b.
Proof.
  unfold chars. intros H.
  rewrite <- (String.string_of_list_ascii_of_string a),
          <- (String.string_of_list_ascii_of_string b), H.
  reflexivity.
Qed.

Lemma chars_String c s : chars (String c s) = c :: chars s.
Proof. reflexivity. Qed.

Lemma chars_of_list l : chars (String.string_of_list_ascii l) = l.
Proof. apply String.list_ascii_of_string_of_list_ascii. Qed.

Lemma chars_length s : length (chars s) = String.length s.
Proof. induction s as [|c s IH]; simpl; [reflexivity|]. by rewrite IH. Qed.

Lemma byte_of_ascii_inj a b : byte_of_ascii a = byte_of_ascii b -> a = b.
Proof.
  unfold byte_of_ascii. intros H. apply N2Z.inj in H.
  rewrite <- (Ascii.ascii_N_embedding a), <- (Ascii.ascii_N_embedding b), H.
  reflexivity.
Qed.

Lemma byte_of_ascii_range a : is_byte (byte_of_ascii a).
Proof.
  unfold is_byte, byte_of_ascii. pose proof (Ascii.N_ascii_bounded a). lia.
Qed.

Lemma byte_of_ascii_of_byte b : is_byte b -> byte_of_ascii (ascii_of_byte b) = b.
Proof.
  unfold is_byte, byte_of_ascii, ascii_of_byte. intros Hb.
  rewrite Ascii.N_ascii_embedding by lia. lia.
Qed.

Lemma bytes_of_string_app a b :
  bytes_of_string (a +:+ b) = bytes_of_string a ++ bytes_of_string b.
Proof.
  unfold bytes_of_string. fold (chars (a +:+ b)).
  rewrite chars_app, fmap_app. reflexivity.
Qed.

Lemma bytes_of_string_inj a b : bytes_of_string a = bytes_of_string b -> a = b.
Proof.
  unfold bytes_of_string. intros H. apply chars_inj.
  revert H. apply list_fmap_eq_inj. intros x y. apply byte_of_ascii_inj.
Qed.

Lemma bytes_of_string_length s :
  length (bytes_of_string s) = String.length s.
Proof. unfold bytes_of_string. rewrite length_fmap. apply chars_length. Qed.

(** Splitting at the first, or the last, occurrence of a separator. *)
Lemma split_first {A} (c : A) l1 l2 r1 r2 :
  c ∉ l1 -> c ∉ l2 -> l1 ++ c :: r1 = l2 ++ c :: r2 -> l1 = l2 /\ r1 = r2.
Proof.
  revert l2. induction l1 as [|x l1 IH]; intros [|y l2] H1 H2 H; simpl in H.
  - by injection H.
  - injection H as -> _. exfalso. apply H2. left.
  - injection H as -> _. exfalso. apply H1. left.
  - injection H as -> H.
    destruct (IH l2) as [-> ->]; [| |exact H|done].
    + intros Hin. apply H1. by right.
    + intros Hin. apply H2. by right.
Qed.

Lemma split_last {A} (c : A) l1 l2 r1 r2 :
  c ∉ r1 -> c ∉ r2 -> l1 ++ c :: r1 = l2 ++ c :: r2 -> l1 = l2 /\ r1 = r2.
Proof.
  intros H1 H2 H.
  apply (f_equal reverse) in H.
  rewrite !reverse_app, !reverse_cons, <- !(assoc_L (++)) in H. simpl in H.
  apply split_first in H; [|by rewrite elem_of_reverse..].
  destruct H as [Hr Hl].
  split; apply (inj reverse); assumption.
Qed.

(** Decimal rendering. *)
Lemma digit_is_digit d : 0 <= d <= 9 -> is_digit (digit d).
Proof.
  intros Hd. unfold is_digit, digit.
  rewrite byte_of_ascii_of_byte by (unfold is_byte; lia). lia.
Qed.

Lemma digit_value d : 0 <= d <= 9 -> byte_of_ascii (digit d) - 48 = d.
Proof.
  intros Hd. unfold digit.
  rewrite byte_of_ascii_of_byte by (unfold is_byte; lia). lia.
Qed.

Lemma dec_digits_acc fuel z acc :
  chars (dec_digits fuel z acc)
  = chars (dec_digits fuel z EmptyString) ++ chars acc.
Proof.
  revert z acc. induction fuel as [|fuel IH]; intros z acc; [reflexivity|].
  simpl. destruct (z <? 10); [reflexivity|].
  rewrite (IH _ (String _ acc)), (IH _ (String _ EmptyString)).
  rewrite <- (assoc_L (++)). reflexivity.
Qed.

Lemma dec_digits_S fuel z :
  chars (dec_digits (S fuel) z EmptyString)
  = if z <? 10 then [digit (z mod 10)]
    else chars (dec_digits fuel (z / 10) EmptyString) ++ [digit (z mod 10)].
Proof.
  simpl. destruct (z <? 10); [reflexivity|].
  rewrite dec_digits_acc. reflexivity.
Qed.

Lemma dec_value_snoc l a :
  dec_value (l ++ [a]) = 10 * dec_value l + (byte_of_ascii a - 48).
Proof. unfold dec_value. rewrite foldl_app. reflexivity. Qed.

Lemma dec_digits_spec fuel z :
  0 <= z < 10 ^ Z.of_nat fuel ->
  let ds := chars (dec_digits fuel z EmptyString) in
  dec_value ds = z /\ Forall is_digit ds
  /\ (length ds <= fuel)%nat /\ (fuel <> O -> (1 <= length ds)%nat).
Proof.
  revert z. induction fuel as [|fuel IH]; intros z Hz.
  { simpl in *. assert (z = 0) as -> by lia.
    split; [reflexivity|]. split; [constructor|]. split; [lia|done]. }
  cbv zeta. rewrite dec_digits_S.
  assert (0 <= z mod 10 <= 9) by (pose proof (Z.mod_pos_bound z 10); lia).
  destruct (Z.ltb_spec z 10) as [Hlt|Hge].
  - rewrite Z.mod_small by lia. split; [|split; [|split]].
    + unfold dec_value; simpl. rewrite digit_value by lia. lia.
    + apply Forall_singleton, digit_is_digit. lia.
    + simpl. lia.
    + simpl. lia.
  - destruct (IH (z / 10)) as (Hv & Hd & Hl & Hl1).
    { rewrite Nat2Z.inj_succ, Z.pow_succ_r in Hz by lia.
      split; [apply Z.div_pos; lia|].
      apply Z.div_lt_upper_bound; lia. }
    split; [|split; [|split]].
    + rewrite dec_value_snoc, Hv, digit_value by lia.
      pose proof (Z.div_mod z 10). lia.
    + apply Forall_app. split; [exact Hd|].
      by apply Forall_singleton, digit_is_digit.
    + rewrite length_app; simpl. lia.
    + rewrite length_app; simpl. lia.
Qed.

Lemma dec_digits_inj fuel z1 z2 :
  0 <= z1 < 10 ^ Z.of_nat fuel -> 0 <= z2 < 10 ^ Z.of_nat fuel ->
  chars (dec_digits fuel z1 EmptyString) = chars (dec_digits fuel z2 EmptyString)
  -> z1 = z2.
Proof.
  intros H1 H2 Heq.
  destruct (dec_digits_spec fuel z1 H1) as [<- _].
  destruct (dec_digits_spec fuel z2 H2) as [<- _].
  cbv zeta. by rewrite Heq.
Qed.

Lemma two64_lt_pow10 : two64 < 10 ^ Z.of_nat 20.
Proof. reflexivity. Qed.

Lemma FormatUint_spec u :
  0 <= u < 10 ^ Z.of_nat 20 ->
  dec_value (chars (FormatUint u)) = u
  /\ Forall is_digit (chars (FormatUint u))
  /\ (1 <= length (chars (FormatUint u)) <= 20)%nat.
Proof.
  intros Hu. destruct (dec_digits_spec 20 u Hu) as (Hv & Hd & Hl & Hl1).
  unfold FormatUint. split; [exact Hv|]. split; [exact Hd|].
  split; [by apply Hl1|exact Hl].
Qed.

Lemma FormatUint_inj u1 u2 :
  0 <= u1 < 10 ^ Z.of_nat 20 -> 0 <= u2 < 10 ^ Z.of_nat 20 ->
  chars (FormatUint u1) = chars (FormatUint u2) -> u1 = u2.
Proof. apply dec_digits_inj. Qed.

Lemma is_digit_not a l : Forall is_digit l -> ~ is_digit a -> a ∉ l.
Proof.
  intros Hall Hna Hin. rewrite Forall_forall in Hall. by apply Hna, Hall.
Qed.

Lemma pipe_not_digit : ~ is_digit pipe.
Proof. unfold is_digit. vm_compute. intros [_ H]. by apply H. Qed.

Lemma chars_FormatInt i :
  chars (FormatInt i)
  = if i <? 0 then minus_sign :: chars (FormatUint (- i))
    else chars (FormatUint i).
Proof.
  unfold FormatInt. destruct (i <? 0); [|reflexivity].
  rewrite chars_app. reflexivity.
Qed.

Lemma minus_not_digit : ~ is_digit minus_sign.
Proof. unfold is_digit. vm_compute. intros [H _]. by apply H. Qed.

Lemma pipe_not_minus : pipe <> minus_sign.
Proof. discriminate. Qed.

Lemma FormatInt_pipe_free i :
  - 10 ^ Z.of_nat 20 < i < 10 ^ Z.of_nat 20 -> pipe ∉ chars (FormatInt i).
Proof.
  intros Hi. rewrite chars_FormatInt.
  destruct (Z.ltb_spec i 0).
  - destruct (FormatUint_spec (- i)) as (_ & Hd & _); [lia|].
    rewrite not_elem_of_cons. split; [apply pipe_not_minus|].
    apply is_digit_not; [exact Hd|apply pipe_not_digit].
  - destruct (FormatUint_spec i) as (_ & Hd & _); [lia|].
    apply is_digit_not; [exact Hd|apply pipe_not_digit].
Qed.

Lemma FormatInt_inj i1 i2 :
  - 10 ^ Z.of_nat 20 < i1 < 10 ^ Z.of_nat 20 ->
  - 10 ^ Z.of_nat 20 < i2 < 10 ^ Z.of_nat 20 ->
  chars (FormatInt i1) = chars (FormatInt i2) -> i1 = i2.
Proof.
  intros H1 H2. rewrite !chars_FormatInt.
  destruct (Z.ltb_spec i1 0), (Z.ltb_spec i2 0); intros Heq.
  - injection Heq as Heq. apply FormatUint_inj in Heq; lia.
  - exfalso. destruct (FormatUint_spec i2) as (_ & Hd & Hl); [lia|].
    rewrite <- Heq in Hd. apply Forall_cons in Hd as [Hd _].
    by apply minus_not_digit.
  - exfalso. destruct (FormatUint_spec i1) as (_ & Hd & Hl); [lia|].
    rewrite Heq in Hd. apply Forall_cons in Hd as [Hd _].
    by apply minus_not_digit.
  - apply FormatUint_inj in Heq; lia.
Qed.

(** Hexadecimal rendering. *)
Lemma hex_value_hexdigit d : 0 <= d < 16 -> hex_value (hexdigit d) = d.
Proof.
  intros Hd. unfold hex_value, hexdigit.
  rewrite byte_of_ascii_of_byte
    by (unfold is_byte; destruct (d <? 10); lia).
  destruct (Z.ltb_spec d 10).
  - destruct (Z.ltb_spec (48 + d) 58); lia.
  - destruct (Z.ltb_spec (87 + d) 58); lia.
Qed.

Lemma byte_nibbles b :
  is_byte b -> 0 <= Z.shiftr b 4 < 16 /\ 0 <= Z.land b 15 < 16
               /\ b = 16 * Z.shiftr b 4 + Z.land b 15.
Proof.
  unfold is_byte. intros Hb.
  rewrite Z.shiftr_div_pow2 by lia.
  change 15 with (Z.ones 4). rewrite Z.land_ones by lia.
  change (2 ^ 4) with 16.
  pose proof (Z.div_mod b 16). pose proof (Z.mod_pos_bound b 16).
  assert (0 <= b / 16 < 16).
  { split; [apply Z.div_pos; lia|apply Z.div_lt_upper_bound; lia]. }
  lia.
Qed.

Lemma hex_EncodeToString_inj bs1 bs2 :
  Forall is_byte bs1 -> Forall is_byte bs2 ->
  hex_EncodeToString bs1 = hex_EncodeToString bs2 -> bs1 = bs2.
Proof.
  intros H1. revert bs2.
  induction H1 as [|b1 bs1 Hb1 _ IH]; intros bs2 H2 Heq;
    destruct H2 as [|b2 bs2 Hb2 H2]; simpl in Heq; try discriminate.
  - reflexivity.
  - injection Heq as Hhi Hlo Heq.
    destruct (byte_nibbles b1 Hb1) as (A1 & B1 & C1).
    destruct (byte_nibbles b2 Hb2) as (A2 & B2 & C2).
    apply (f_equal hex_value) in Hhi, Hlo.
    rewrite !hex_value_hexdigit in Hhi, Hlo by assumption.
    f_equal; [lia|]. by apply IH.
Qed.

Lemma hex_EncodeToString_length bs :
  String.length (hex_EncodeToString bs) = (2 * length bs)%nat.
Proof. induction bs as [|b bs IH]; simpl; [reflexivity|]. rewrite IH. lia. Qed.

(** The digest is 32 bytes. *)
Lemma be_bytes_byte n x : Forall is_byte (sha256.be_bytes n x).
Proof.
  revert x. induction n as [|n IH]; intros x; simpl; [constructor|].
  apply Forall_app. split; [apply IH|].
  apply Forall_singleton. unfold is_byte.
  change 255 with (Z.ones 8). rewrite Z.land_ones by lia.
  pose proof (Z.mod_pos_bound x (2 ^ 8)). lia.
Qed.

Lemma be_bytes_length n x : length (sha256.be_bytes n x) = n.
Proof.
  revert x. induction n as [|n IH]; intros x; simpl; [reflexivity|].
  rewrite length_app, IH. simpl. lia.
Qed.

Lemma Sum256_bytes msg : Forall is_byte (sha256.Sum256 msg).
Proof.
  unfold sha256.Sum256. cbv zeta. apply Forall_bind.
  apply Forall_forall. intros x _. apply be_bytes_byte.
Qed.

(** ** Transaction ids *)

Lemma pipe_free_spec s : pipe_free s = true -> pipe ∉ chars s.
Proof.
  unfold pipe_free. rewrite forallb_forall. intros H Hin.
  apply list_elem_of_In in Hin. specialize (H _ Hin).
  rewrite Ascii.eqb_refl in H. discriminate.
Qed.

Lemma wrapInt64_range z : - 2 ^ 63 <= wrapInt64 z < 2 ^ 63.
Proof.
  unfold wrapInt64, two64.
  pose proof (Z.mod_pos_bound (z + 2 ^ 63) (2 ^ 64)). lia.
Qed.

Lemma UnixNano_range t :
  - 10 ^ Z.of_nat 20 < UnixNano t < 10 ^ Z.of_nat 20.
Proof.
  unfold UnixNano. pose proof (wrapInt64_range t).
  change (10 ^ Z.of_nat 20) with 100000000000000000000.
  change (2 ^ 63) with 9223372036854775808 in *. lia.
Qed.

Lemma UnixNano_succ t : UnixNano t <> UnixNano (t + 1).
Proof.
  unfold UnixNano, wrapInt64, two64.
  change (2 ^ 63) with 9223372036854775808.
  change (2 ^ 64) with 18446744073709551616.
  Z.to_euclidean_division_equations. lia.
Qed.

Lemma chars_txid_preimage s r p t :
  chars (txid_preimage s r p t)
  = chars s ++ pipe :: chars r ++ pipe :: chars p
    ++ pipe :: chars (FormatInt (UnixNano t)).
Proof. unfold txid_preimage. rewrite !chars_app. reflexivity. Qed.

Lemma txid_preimage_inj s1 r1 p1 t1 s2 r2 p2 t2 :
  pipe_free s1 = true -> pipe_free r1 = true ->
  pipe_free s2 = true -> pipe_free r2 = true ->
  txid_preimage s1 r1 p1 t1 = txid_preimage s2 r2 p2 t2 ->
  (s1, r1, p1, UnixNano t1) = (s2, r2, p2, UnixNano t2).
Proof.
  intros Hs1%pipe_free_spec Hr1%pipe_free_spec
         Hs2%pipe_free_spec Hr2%pipe_free_spec Heq.
  apply (f_equal chars) in Heq. rewrite !chars_txid_preimage in Heq.
  apply split_first in Heq as [Hs Heq]; [|assumption..].
  apply split_first in Heq as [Hr Heq]; [|assumption..].
  apply split_last in Heq as [Hp Hn];
    [|apply FormatInt_pipe_free, UnixNano_range..].
  apply FormatInt_inj in Hn; [|apply UnixNano_range..].
  apply chars_inj in Hs, Hr, Hp. congruence.
Qed.

Lemma GenerateTxID_inj_preimage s1 r1 p1 t1 s2 r2 p2 t2 :
  no_collision (bytes_of_string (txid_preimage s1 r1 p1 t1))
               (bytes_of_string (txid_preimage s2 r2 p2 t2)) ->
  GenerateTxID s1 r1 p1 t1 = GenerateTxID s2 r2 p2 t2 ->
  txid_preimage s1 r1 p1 t1 = txid_preimage s2 r2 p2 t2.
Proof.
  intros Hnc Heq. unfold GenerateTxID in Heq. cbv zeta in Heq.
  apply hex_EncodeToString_inj in Heq; [|apply Sum256_bytes..].
  apply bytes_of_string_inj, Hnc, Heq.
Qed.


(** ** The calendar *)

Lemma era_day_bounds doe :
  0 <= doe < 146097 ->
  0 <= yoe_of doe <= 399 /\ 0 <= doy_of doe <= 365 /\ 0 <= mp_of doe <= 11
  /\ 1 <= dom_of doe <= 31.
Proof.
  intros Hd.
  assert (0 <= yoe_of doe <= 399) as Hy.
  { unfold yoe_of. Z.to_euclidean_division_equations; lia. }
  assert (0 <= doy_of doe <= 365) as Hdoy.
  { unfold doy_of, yoe_of. cbv zeta.
    Z.to_euclidean_division_equations; lia. }
  assert (0 <= mp_of doe <= 11) as Hmp.
  { unfold mp_of. Z.to_euclidean_division_equations; lia. }
  split; [exact Hy|]. split; [exact Hdoy|]. split; [exact Hmp|].
  unfold dom_of, mp_of in *. Z.to_euclidean_division_equations; lia.
Qed.

Lemma civil_eq days :
  let z := days + 719468 in
  let era := z / 146097 in
  let doe := z mod 146097 in
  let mp := mp_of doe in
  let m := if mp <? 10 then mp + 3 else mp - 9 in
  civil days
  = (yoe_of doe + era * 400 + (if m <=? 2 then 1 else 0), m, dom_of doe).
Proof.
  cbv zeta. unfold civil. cbv zeta.
  replace (days + 719468 - (days + 719468) / 146097 * 146097)
    with ((days + 719468) mod 146097)
    by (rewrite Z.mod_eq by lia; lia).
  reflexivity.
Qed.

Lemma civil_inj d1 d2 : civil d1 = civil d2 -> d1 = d2.
Proof.
  rewrite !civil_eq. cbv zeta.
  set (z1 := d1 + 719468). set (z2 := d2 + 719468).
  pose proof (Z.mod_pos_bound z1 146097 ltac:(lia)) as B1.
  pose proof (Z.mod_pos_bound z2 146097 ltac:(lia)) as B2.
  destruct (era_day_bounds _ B1) as (Y1 & _ & M1 & _).
  destruct (era_day_bounds _ B2) as (Y2 & _ & M2 & _).
  intros Heq. injection Heq as Hy Hm Hd.
  assert (mp_of (z1 mod 146097) = mp_of (z2 mod 146097)) as Hmp.
  { destruct (Z.ltb_spec (mp_of (z1 mod 146097)) 10),
             (Z.ltb_spec (mp_of (z2 mod 146097)) 10); lia. }
  rewrite Hmp in Hy.
  assert (yoe_of (z1 mod 146097) = yoe_of (z2 mod 146097)
          /\ z1 / 146097 = z2 / 146097) as [Hyoe Hera] by lia.
  assert (doy_of (z1 mod 146097) = doy_of (z2 mod 146097)) as Hdoy.
  { unfold dom_of in Hd. rewrite Hmp in Hd. lia. }
  assert (z1 mod 146097 = z2 mod 146097) as Hdoe.
  { unfold doy_of in Hdoy. cbv zeta in Hdoy. rewrite Hyoe in Hdoy. lia. }
  pose proof (Z.div_mod z1 146097 ltac:(lia)).
  pose proof (Z.div_mod z2 146097 ltac:(lia)).
  unfold z1, z2 in *. lia.
Qed.

Lemma civil_bounds days :
  let '(y, m, d) := civil days in 1 <= m <= 12 /\ 1 <= d <= 31.
Proof.
  rewrite civil_eq. cbv zeta.
  pose proof (Z.mod_pos_bound (days + 719468) 146097 ltac:(lia)) as B.
  destruct (era_day_bounds _ B) as (_ & _ & M & D).
  split; [|exact D].
  destruct (Z.ltb_spec (mp_of ((days + 719468) mod 146097)) 10); lia.
Qed.

Lemma civil_year_bound days :
  (days + 719468) / 146097 * 400 <= (civil days).1.1
  <= (days + 719468) / 146097 * 400 + 400.
Proof.
  rewrite civil_eq. cbv zeta. simpl.
  pose proof (Z.mod_pos_bound (days + 719468) 146097 ltac:(lia)) as B.
  destruct (era_day_bounds _ B) as (Y & _ & _ & _).
  destruct (_ <=? 2); lia.
Qed.

(** ** Zero-padded fields *)

Lemma dec_digits_fuel k : forall z acc fuel,
  (1 <= k)%nat -> 0 <= z < 10 ^ Z.of_nat k -> (k <= fuel)%nat ->
  dec_digits fuel z acc = dec_digits k z acc.
Proof.
  induction k as [|k IH]; intros z acc fuel Hk Hz Hf; [lia|].
  destruct fuel as [|fuel]; [lia|]. simpl.
  destruct (Z.ltb_spec z 10) as [|Hge]; [reflexivity|].
  rewrite Nat2Z.inj_succ, Z.pow_succ_r in Hz by lia.
  destruct (decide (k = O)) as [->|Hk0]; [simpl in Hz; lia|].
  apply IH; [lia| |lia].
  split; [apply Z.div_pos; lia|apply Z.div_lt_upper_bound; lia].
Qed.

Lemma digits_spec k z :
  (1 <= k <= 20)%nat -> 0 <= z < 10 ^ Z.of_nat k ->
  let ds := chars (dec_digits 20 z EmptyString) in
  dec_value ds = z /\ Forall is_digit ds /\ (1 <= length ds <= k)%nat.
Proof.
  intros Hk Hz. cbv zeta.
  rewrite (dec_digits_fuel k) by lia.
  destruct (dec_digits_spec k z Hz) as (Hv & Hd & Hl & Hl1).
  split; [exact Hv|]. split; [exact Hd|]. split; [apply Hl1; lia|exact Hl].
Qed.

Lemma chars_zero_pad width s :
  chars (zero_pad width s)
  = replicate (width - length (chars s)) (digit 0) ++ chars s.
Proof.
  unfold zero_pad. rewrite chars_app, chars_of_list, chars_length.
  reflexivity.
Qed.

Lemma dec_value_zeros k l :
  dec_value (replicate k (digit 0) ++ l) = dec_value l.
Proof.
  unfold dec_value. rewrite foldl_app. f_equal.
  induction k as [|k IH]; [reflexivity|].
  rewrite replicate_S_end, foldl_app. simpl. rewrite IH. reflexivity.
Qed.

Lemma Forall_zeros k : Forall is_digit (replicate k (digit 0)).
Proof. apply Forall_replicate. apply digit_is_digit. lia. Qed.

(** The digits of a non-negative field, padded. *)
Lemma padded_spec width k z :
  (1 <= k <= 20)%nat -> 0 <= z < 10 ^ Z.of_nat k ->
  let ds := chars (zero_pad width (dec_digits 20 z EmptyString)) in
  dec_value ds = z /\ Forall is_digit ds
  /\ (width <= length ds)%nat /\ (length ds <= Nat.max width k)%nat
  /\ (1 <= length ds)%nat.
Proof.
  intros Hk Hz. cbv zeta. rewrite chars_zero_pad.
  destruct (digits_spec k z Hk Hz) as (Hv & Hd & Hl).
  rewrite dec_value_zeros, length_app, length_replicate.
  split; [exact Hv|]. split; [|lia].
  apply Forall_app. split; [apply Forall_zeros|exact Hd].
Qed.

Lemma chars_appendInt x width :
  chars (appendInt x width)
  = if x <? 0
    then minus_sign :: chars (zero_pad width (dec_digits 20 (- x) EmptyString))
    else chars (zero_pad width (dec_digits 20 x EmptyString)).
Proof.
  unfold appendInt. destruct (x <? 0); [|reflexivity].
  rewrite chars_app. reflexivity.
Qed.

(** A two-digit field. *)
Lemma appendInt2_spec x :
  0 <= x < 100 ->
  let ds := chars (appendInt x 2) in
  dec_value ds = x /\ length ds = 2%nat.
Proof.
  intros Hx. cbv zeta. rewrite chars_appendInt.
  destruct (Z.ltb_spec x 0); [lia|].
  destruct (padded_spec 2 2 x) as (Hv & _ & Hl1 & Hl2 & _); [lia|change (10 ^ Z.of_nat 2) with 100; lia|].
  split; [exact Hv|lia].
Qed.

Lemma appendInt2_inj x y l k :
  0 <= x < 100 -> 0 <= y < 100 ->
  chars (appendInt x 2) ++ l = chars (appendInt y 2) ++ k ->
  x = y /\ l = k.
Proof.
  intros Hx Hy Heq.
  destruct (appendInt2_spec x Hx) as [Hvx Hlx].
  destruct (appendInt2_spec y Hy) as [Hvy Hly].
  apply app_inj_1 in Heq as [Heq ->]; [|congruence].
  split; [|reflexivity]. rewrite <- Hvx, <- Hvy, Heq. reflexivity.
Qed.

(** A sign, then digits, up to a dash. *)
Lemma signed_digits_inj (sx sy : bool) (A B l k : list Ascii.ascii) :
  Forall is_digit A -> Forall is_digit B -> A <> [] -> B <> [] ->
  (if sx then minus_sign :: A else A) ++ minus_sign :: l
  = (if sy then minus_sign :: B else B) ++ minus_sign :: k ->
  sx = sy /\ A = B /\ l = k.
Proof.
  intros HA HB HAn HBn.
  assert (minus_sign ∉ A) by (apply is_digit_not; [done|apply minus_not_digit]).
  assert (minus_sign ∉ B) by (apply is_digit_not; [done|apply minus_not_digit]).
  destruct sx, sy; intros Heq.
  - rewrite <- !app_comm_cons in Heq. injection Heq as Heq.
    apply split_first in Heq as [-> ->]; done.
  - exfalso. destruct B as [|c B]; [done|].
    rewrite <- !app_comm_cons in Heq. injection Heq as <- _.
    apply Forall_cons in HB as [HB _]. by apply minus_not_digit.
  - exfalso. destruct A as [|c A]; [done|].
    rewrite <- !app_comm_cons in Heq. injection Heq as -> _.
    apply Forall_cons in HA as [HA _]. by apply minus_not_digit.
  - apply split_first in Heq as [-> ->]; done.
Qed.

Lemma chars_appendInt_signed x width :
  chars (appendInt x width)
  = let A := chars (zero_pad width (dec_digits 20 (Z.abs x) EmptyString)) in
    if x <? 0 then minus_sign :: A else A.
Proof.
  rewrite chars_appendInt. cbv zeta.
  destruct (Z.ltb_spec x 0).
  - by rewrite Z.abs_neq by lia.
  - by rewrite Z.abs_eq by lia.
Qed.

(** The year: a sign, then at least four digits, up to the dash. *)
Lemma appendInt_year_inj x y l k :
  - 10 ^ Z.of_nat 20 < x < 10 ^ Z.of_nat 20 ->
  - 10 ^ Z.of_nat 20 < y < 10 ^ Z.of_nat 20 ->
  chars (appendInt x 4) ++ minus_sign :: l
  = chars (appendInt y 4) ++ minus_sign :: k ->
  x = y /\ l = k.
Proof.
  intros Hx Hy. rewrite !chars_appendInt_signed. cbv zeta.
  destruct (padded_spec 4 20 (Z.abs x)) as (Hvx & Hdx & _ & _ & Hlx);
    [lia|lia|].
  destruct (padded_spec 4 20 (Z.abs y)) as (Hvy & Hdy & _ & _ & Hly);
    [lia|lia|].
  cbv zeta in *.
  generalize dependent (chars (zero_pad 4 (dec_digits 20 (Z.abs x) EmptyString))).
  generalize dependent (chars (zero_pad 4 (dec_digits 20 (Z.abs y) EmptyString))).
  intros B HvB HdB HlB A HvA HdA HlA Heq.
  apply signed_digits_inj in Heq as (Hs & -> & ->); try assumption.
  - split; [|reflexivity].
    destruct (Z.ltb_spec x 0), (Z.ltb_spec y 0); try discriminate; lia.
  - intros ->. simpl in HlA. lia.
  - intros ->. simpl in HlB. lia.
Qed.

Lemma trim_nano_S n x :
  trim_nano (S n) x
  = if x mod 10 =? 0 then trim_nano n (x / 10)
    else zero_pad (S n) (dec_digits 20 x EmptyString).
Proof. reflexivity. Qed.

(** The fraction of a second. *)
Lemma trim_nano_spec n : forall x,
  0 <= x < 10 ^ Z.of_nat n -> (n <= 20)%nat ->
  let ds := chars (trim_nano n x) in
  Forall is_digit ds /\ (length ds <= n)%nat
  /\ dec_value ds * 10 ^ Z.of_nat (n - length ds) = x.
Proof.
  induction n as [|n IH]; intros x Hx Hn; cbv zeta.
  { change (10 ^ Z.of_nat 0) with 1 in Hx. cbn.
    split; [constructor|]. split; [lia|]. unfold dec_value. cbn. lia. }
  rewrite trim_nano_S.
  destruct (Z.eqb_spec (x mod 10) 0) as [Hm|Hm].
  - destruct (IH (x / 10)) as (Hd & Hl & Hv); [|lia|].
    { rewrite Nat2Z.inj_succ, Z.pow_succ_r in Hx by lia.
      split; [apply Z.div_pos; lia|apply Z.div_lt_upper_bound; lia]. }
    cbv zeta in *. split; [exact Hd|]. split; [lia|].
    replace (S n - length (chars (trim_nano n (x / 10))))%nat
      with (S (n - length (chars (trim_nano n (x / 10)))))%nat by lia.
    rewrite Nat2Z.inj_succ, Z.pow_succ_r by lia.
    pose proof (Z.div_mod x 10 ltac:(lia)). nia.
  - destruct (padded_spec (S n) (S n) x) as (Hv & Hd & Hl1 & Hl2 & _);
      [lia|exact Hx|].
    cbv zeta in *. split; [exact Hd|].
    rewrite Nat.max_id in Hl2. split; [exact Hl2|].
    replace (S n - _)%nat with O by lia. change (10 ^ Z.of_nat 0) with 1. lia.
Qed.

Lemma chars_appendNano nsec :
  chars (appendNano nsec)
  = if nsec =? 0 then [] else dot :: chars (trim_nano 9 nsec).
Proof.
  unfold appendNano. destruct (nsec =? 0); [reflexivity|].
  rewrite chars_app. reflexivity.
Qed.

Lemma appendNano_inj x y :
  0 <= x < 1000000000 -> 0 <= y < 1000000000 ->
  chars (appendNano x) ++ [zulu] = chars (appendNano y) ++ [zulu] ->
  x = y.
Proof.
  intros Hx Hy. rewrite !chars_appendNano.
  destruct (trim_nano_spec 9 x) as (_ & Hlx & Hvx);
    [change (10 ^ Z.of_nat 9) with 1000000000; lia|lia|].
  destruct (trim_nano_spec 9 y) as (_ & Hly & Hvy);
    [change (10 ^ Z.of_nat 9) with 1000000000; lia|lia|].
  cbv zeta in *.
  destruct (Z.eqb_spec x 0), (Z.eqb_spec y 0); intros Heq.
  - lia.
  - discriminate.
  - discriminate.
  - rewrite <- !app_comm_cons in Heq.
    apply (app_inv_head [dot]) in Heq.
    apply app_inj_2 in Heq as [Heq _]; [|reflexivity].
    rewrite Heq in Hvx. lia.
Qed.

(** ** The rendering of an instant *)

Lemma chars_Format t :
  chars (Format_RFC3339Nano t)
  = let '(y, m, d, hh, mi, ss, ns) := time_fields t in
    chars (appendInt y 4) ++ minus_sign ::
    chars (appendInt m 2) ++ minus_sign ::
    chars (appendInt d 2) ++ tee ::
    chars (appendInt hh 2) ++ colon ::
    chars (appendInt mi 2) ++ colon ::
    chars (appendInt ss 2) ++ chars (appendNano ns) ++ [zulu].
Proof.
  unfold Format_RFC3339Nano, time_fields. cbv zeta.
  destruct (civil _) as [[y m] d].
  rewrite !chars_app.
  change (chars "-") with [minus_sign]. change (chars "T") with [tee].
  change (chars ":") with [colon]. change (chars "Z") with [zulu].
  reflexivity.
Qed.

Lemma time_fields_inj t1 t2 : time_fields t1 = time_fields t2 -> t1 = t2.
Proof.
  unfold time_fields. cbv zeta.
  destruct (civil (t1 / 1000000000 / 86400)) as [[y1 m1] d1] eqn:E1.
  destruct (civil (t2 / 1000000000 / 86400)) as [[y2 m2] d2] eqn:E2.
  intros Heq. injection Heq as -> -> -> Hh Hm Hs Hn.
  rewrite <- E2 in E1. apply civil_inj in E1.
  revert E1 Hh Hm Hs Hn.
  generalize (t1 / 1000000000) (t2 / 1000000000)
    (Z.div_mod t1 1000000000 ltac:(lia)) (Z.div_mod t2 1000000000 ltac:(lia)).
  intros s1 s2 D1 D2 E1 Hh Hm Hs Hn.
  assert (s1 mod 86400 = s2 mod 86400) as Hsod.
  { revert Hh Hm Hs. generalize (s1 mod 86400) (s2 mod 86400)
      (Z.mod_pos_bound s1 86400 ltac:(lia))
      (Z.mod_pos_bound s2 86400 ltac:(lia)).
    intros a b Ha Hb Hh Hm Hs.
    Z.to_euclidean_division_equations. lia. }
  pose proof (Z.div_mod s1 86400 ltac:(lia)).
  pose proof (Z.div_mod s2 86400 ltac:(lia)).
  lia.
Qed.

Lemma time_fields_bounds t :
  Time_valid t ->
  let '(y, m, d, hh, mi, ss, ns) := time_fields t in
  - 10 ^ Z.of_nat 20 < y < 10 ^ Z.of_nat 20
  /\ 0 <= m < 100 /\ 0 <= d < 100 /\ 0 <= hh < 100
  /\ 0 <= mi < 100 /\ 0 <= ss < 100 /\ 0 <= ns < 1000000000.
Proof.
  unfold Time_valid, time_fields. cbv zeta. intros Hv.
  pose proof (civil_bounds (t / 1000000000 / 86400)) as Hb.
  pose proof (civil_year_bound (t / 1000000000 / 86400)) as Hy.
  destruct (civil _) as [[y m] d]. simpl in Hy.
  change (10 ^ Z.of_nat 20) with 100000000000000000000.
  change (2 ^ 63) with 9223372036854775808 in Hv.
  revert Hv Hy. generalize (t / 1000000000). intros s Hv Hy.
  pose proof (Z.mod_pos_bound s 86400 ltac:(lia)).
  pose proof (Z.mod_pos_bound t 1000000000 ltac:(lia)).
  split; [|split; [lia|split; [lia|]]].
  - Z.to_euclidean_division_equations. lia.
  - revert H. generalize (s mod 86400). intros a Ha.
    Z.to_euclidean_division_equations. lia.
Qed.

(** Two instants rendered alike are the same instant. *)
Lemma Format_RFC3339Nano_inj t1 t2 :
  Time_valid t1 -> Time_valid t2 ->
  Format_RFC3339Nano t1 = Format_RFC3339Nano t2 -> t1 = t2.
Proof.
  intros V1 V2 Heq. apply (f_equal chars) in Heq.
  rewrite !chars_Format in Heq.
  apply time_fields_inj.
  pose proof (time_fields_bounds t1 V1) as B1.
  pose proof (time_fields_bounds t2 V2) as B2.
  destruct (time_fields t1) as [[[[[[y1 m1] d1] h1] i1] s1] n1].
  destruct (time_fields t2) as [[[[[[y2 m2] d2] h2] i2] s2] n2].
  destruct B1 as (Y1 & M1 & D1 & H1 & I1 & S1 & N1).
  destruct B2 as (Y2 & M2 & D2 & H2 & I2 & S2 & N2).
  apply appendInt_year_inj in Heq as [-> Heq]; [|assumption..].
  apply appendInt2_inj in Heq as [-> Heq]; [|assumption..].
  apply (app_inv_head [minus_sign]) in Heq.
  apply appendInt2_inj in Heq as [-> Heq]; [|assumption..].
  apply (app_inv_head [tee]) in Heq.
  apply appendInt2_inj in Heq as [-> Heq]; [|assumption..].
  apply (app_inv_head [colon]) in Heq.
  apply appendInt2_inj in Heq as [-> Heq]; [|assumption..].
  apply (app_inv_head [colon]) in Heq.
  apply appendInt2_inj in Heq as [-> Heq]; [|assumption..].
  apply appendNano_inj in Heq as ->; [|assumption..].
  reflexivity.
Qed.

(** The characters of a rendered instant: digits and punctuation. *)
Lemma punct_time_char a :
  a = minus_sign \/ a = tee \/ a = colon \/ a = dot \/ a = zulu ->
  is_time_char a.
Proof. intros H. right. exact H. Qed.

Lemma appendInt_time_chars x width :
  - 10 ^ Z.of_nat 20 < x < 10 ^ Z.of_nat 20 ->
  Forall is_time_char (chars (appendInt x width)).
Proof.
  intros Hx. rewrite chars_appendInt_signed. cbv zeta.
  destruct (padded_spec width 20 (Z.abs x)) as (_ & Hd & _); [lia|lia|].
  cbv zeta in Hd.
  assert (Forall is_time_char
            (chars (zero_pad width (dec_digits 20 (Z.abs x) EmptyString)))).
  { eapply Forall_impl; [exact Hd|]. intros a Ha. by left. }
  destruct (x <? 0); [|assumption].
  apply Forall_cons. split; [|assumption]. apply punct_time_char. auto.
Qed.

Lemma appendNano_time_chars ns :
  0 <= ns < 1000000000 -> Forall is_time_char (chars (appendNano ns)).
Proof.
  intros Hn. rewrite chars_appendNano.
  destruct (ns =? 0); [constructor|].
  destruct (trim_nano_spec 9 ns) as (Hd & _);
    [change (10 ^ Z.of_nat 9) with 1000000000; lia|lia|].
  apply Forall_cons. split; [apply punct_time_char; auto 6|].
  eapply Forall_impl; [exact Hd|]. intros a Ha. by left.
Qed.

Lemma Format_time_chars t :
  Time_valid t -> Forall is_time_char (chars (Format_RFC3339Nano t)).
Proof.
  intros V. rewrite chars_Format.
  pose proof (time_fields_bounds t V) as B.
  destruct (time_fields t) as [[[[[[y m] d] h] i] s] n].
  destruct B as (Y & M & D & H & I & S & N).
  assert (forall x, 0 <= x < 100 -> Forall is_time_char (chars (appendInt x 2))).
  { intros x Hx. apply appendInt_time_chars.
    change (10 ^ Z.of_nat 20) with 100000000000000000000. lia. }
  repeat first [apply Forall_app; split | apply Forall_cons; split
               | apply Forall_nil ];
    try (apply punct_time_char; auto 6; fail);
    auto using appendInt_time_chars, appendNano_time_chars.
Qed.

Lemma Format_pipe_free t :
  Time_valid t -> pipe ∉ chars (Format_RFC3339Nano t).
Proof.
  intros V Hin. pose proof (Format_time_chars t V) as H.
  rewrite Forall_forall in H. destruct (H _ Hin) as [Hd|Hp].
  - by apply pipe_not_digit.
  - destruct Hp as [?|[?|[?|[?|?]]]]; discriminate.
Qed.

(** ** Block hashes *)

Lemma ascii_of_byte_of_ascii a : ascii_of_byte (byte_of_ascii a) = a.
Proof.
  unfold ascii_of_byte, byte_of_ascii. rewrite N2Z.id.
  apply Ascii.ascii_N_embedding.
Qed.

Lemma is_byteb_spec b : is_byteb b = true <-> is_byte b.
Proof. unfold is_byteb, is_byte. lia. Qed.

Lemma Time_validb_spec t : Time_validb t = true <-> Time_valid t.
Proof. unfold Time_validb, Time_valid. lia. Qed.

Lemma block_wf_spec b :
  block_wf b = true ->
  is_uint64 (Height (Header b))
  /\ length (PrevHash (Header b)) = 32%nat
  /\ Forall is_byte (PrevHash (Header b))
  /\ Time_valid (HeaderTimestamp (Header b))
  /\ - 2 ^ 63 <= TxCount (Header b) < 2 ^ 63
  /\ is_uint64 (HeaderGasUsed (Header b))
  /\ Forall (fun t => length (chars (ID t)) = 64%nat) (BlockTransactions b).
Proof.
  unfold block_wf. cbv zeta. intros H.
  repeat (apply andb_prop in H as [H ?]).
  split; [unfold is_uint64; lia|]. split; [by apply Nat.eqb_eq|].
  split. { apply Forall_forall. intros x Hx. apply is_byteb_spec.
           eapply forallb_forall; [eassumption|]. by apply list_elem_of_In. }
  split; [by apply Time_validb_spec|]. split; [lia|].
  split; [unfold is_uint64; lia|].
  apply Forall_forall. intros t Ht. rewrite chars_length. apply Nat.eqb_eq.
  match goal with
  | Hf : forallb _ (BlockTransactions b) = true |- _ =>
      exact (proj1 (forallb_forall _ _) Hf t (proj1 (list_elem_of_In _ _) Ht))
  end.
Qed.

Lemma hash_preimage_chars b :
  Forall is_byte (PrevHash (Header b)) ->
  hash_preimage b = byte_of_ascii <$> hash_chars b.
Proof.
  intros Hb. unfold hash_preimage, hash_chars, bytes_of_string.
  rewrite !fmap_app. f_equal. f_equal.
  - rewrite <- list_fmap_compose. symmetry.
    erewrite list_fmap_ext; [apply list_fmap_id|].
    intros i x Hx. simpl. apply byte_of_ascii_of_byte.
    rewrite Forall_forall in Hb. apply Hb. by eapply list_elem_of_lookup_2.
  - induction (BlockTransactions b) as [|t l IH]; [reflexivity|].
    change (bytes_of_string (ID t) ++ (l ≫= fun t => bytes_of_string (ID t))
            = byte_of_ascii <$> (chars (ID t) ++ (l ≫= fun t => chars (ID t)))).
    rewrite fmap_app. unfold bytes_of_string in *. rewrite IH. reflexivity.
Qed.

Lemma chars_header_line h :
  chars (header_line h)
  = chars "height=" ++ chars (FormatUint (Height h))
    ++ pipe :: chars "timestamp=" ++ chars (Format_RFC3339Nano (HeaderTimestamp h))
    ++ pipe :: chars "txcount=" ++ chars (FormatInt (TxCount h))
    ++ pipe :: chars "gasused=" ++ chars (FormatUint (HeaderGasUsed h)).
Proof.
  unfold header_line. rewrite !chars_app.
  change (chars "|timestamp=") with (pipe :: chars "timestamp=").
  change (chars "|txcount=") with (pipe :: chars "txcount=").
  change (chars "|gasused=") with (pipe :: chars "gasused=").
  rewrite <- !app_comm_cons. reflexivity.
Qed.

(** Strings of one length, laid end to end, keep their boundaries. *)
Lemma concat_fixed_inj {A} (n : nat) (f : A -> list Ascii.ascii) l1 : forall l2,
  (0 < n)%nat ->
  Forall (fun t => length (f t) = n) l1 ->
  Forall (fun t => length (f t) = n) l2 ->
  l1 ≫= f = l2 ≫= f -> f <$> l1 = f <$> l2.
Proof.
  induction l1 as [|a l1 IH]; intros [|b l2] Hn H1 H2 Heq.
  - reflexivity.
  - exfalso. apply Forall_cons in H2 as [Hb _].
    apply (f_equal length) in Heq. simpl in Heq.
    rewrite length_app in Heq. lia.
  - exfalso. apply Forall_cons in H1 as [Ha _].
    apply (f_equal length) in Heq. simpl in Heq.
    rewrite length_app in Heq. lia.
  - apply Forall_cons in H1 as [Ha H1]. apply Forall_cons in H2 as [Hb H2].
    simpl in Heq. apply app_inj_1 in Heq as [Hab Heq]; [|congruence].
    simpl. rewrite Hab. f_equal. by apply IH.
Qed.

Lemma bind_fixed_length {A} (n : nat) (f : A -> list Ascii.ascii) l :
  Forall (fun t => length (f t) = n) l ->
  length (l ≫= f) = (n * length l)%nat.
Proof.
  induction 1 as [|a l Ha _ IH]; [simpl; lia|].
  rewrite bind_cons, length_app, IH, Ha. simpl. lia.
Qed.

Lemma hash_chars_inj b1 b2 :
  block_wf b1 = true -> block_wf b2 = true ->
  hash_chars b1 = hash_chars b2 ->
  Header b1 = Header b2
  /\ ID <$> BlockTransactions b1 = ID <$> BlockTransactions b2.
Proof.
  intros (U1 & L1 & B1 & V1 & C1 & G1 & I1)%block_wf_spec
         (U2 & L2 & B2 & V2 & C2 & G2 & I2)%block_wf_spec.
  unfold hash_chars. rewrite !chars_header_line.
  repeat (rewrite <- !(assoc_L (++)) || rewrite <- !app_comm_cons).
  destruct b1 as [[H1 P1 T1 N1 S1] txs1], b2 as [[H2 P2 T2 N2 S2] txs2].
  cbn [Header BlockTransactions Height PrevHash HeaderTimestamp TxCount
       HeaderGasUsed] in *.
  unfold is_uint64 in *. pose proof two64_lt_pow10 as Hp.
  assert (2 ^ 63 < 10 ^ Z.of_nat 20) as Hq by reflexivity.
  intros Heq.
  apply app_inv_head in Heq.
  apply split_first in Heq as [HH Heq];
    [|apply is_digit_not; [apply FormatUint_spec; lia|apply pipe_not_digit]..].
  apply app_inv_head in Heq.
  apply split_first in Heq as [HT Heq]; [|by apply Format_pipe_free..].
  apply app_inv_head in Heq.
  apply split_first in Heq as [HN Heq]; [|apply FormatInt_pipe_free; lia..].
  apply app_inv_head in Heq.
  destruct (FormatUint_spec S1) as (_ & _ & LS1); [lia|].
  destruct (FormatUint_spec S2) as (_ & _ & LS2); [lia|].
  pose proof (bind_fixed_length 64 _ _ I1) as K1.
  pose proof (bind_fixed_length 64 _ _ I2) as K2.
  pose proof (f_equal length Heq) as Hlen.
  rewrite !length_app, !length_fmap, L1, L2, K1, K2 in Hlen.
  apply app_inj_1 in Heq as [HS Heq]; [|lia].
  apply app_inj_1 in Heq as [HP Heq]; [|by rewrite !length_fmap, L1, L2].
  apply FormatUint_inj in HH; [|lia..].
  apply chars_inj, Format_RFC3339Nano_inj in HT; [|assumption..].
  apply FormatInt_inj in HN; [|lia..].
  apply FormatUint_inj in HS; [|lia..].
  assert (P1 = P2) as ->.
  { apply (f_equal (fmap byte_of_ascii)) in HP.
    rewrite <- !list_fmap_compose in HP.
    rewrite !(list_fmap_ext (byte_of_ascii ∘ ascii_of_byte) id) in HP.
    - by rewrite !list_fmap_id in HP.
    - intros i x Hx. simpl. apply byte_of_ascii_of_byte.
      rewrite Forall_forall in B2. apply B2. by eapply list_elem_of_lookup_2.
    - intros i x Hx. simpl. apply byte_of_ascii_of_byte.
      rewrite Forall_forall in B1. apply B1. by eapply list_elem_of_lookup_2. }
  subst. split; [reflexivity|].
  apply (concat_fixed_inj 64) in Heq; [|lia|assumption..].
  revert Heq. rewrite !(list_fmap_compose ID chars).
  apply list_fmap_eq_inj. intros x y. apply chars_inj.
Qed.

(** ** The digest and the ids *)

Lemma round_length st kw : length (sha256.round st kw) = length st.
Proof.
  unfold sha256.round.
  destruct st as [|a [|b [|c [|d [|e [|f [|g [|h [|i st]]]]]]]]]; reflexivity.
Qed.

Lemma compress_length st block :
  length (sha256.compress st block) = length st.
Proof.
  unfold sha256.compress. cbv zeta. rewrite length_zip_with.
  assert (forall l s, length (foldl sha256.round s l) = length s) as H.
  { induction l as [|x l IH]; intros s; simpl; [reflexivity|].
    rewrite IH. apply round_length. }
  rewrite H. lia.
Qed.

Lemma blocks_length n : forall st msg,
  length (sha256.blocks n st msg) = length st.
Proof.
  induction n as [|n IH]; intros st msg; simpl; [reflexivity|].
  rewrite IH. apply compress_length.
Qed.

Lemma Sum256_length msg : length (sha256.Sum256 msg) = 32%nat.
Proof.
  unfold sha256.Sum256. cbv zeta.
  generalize (blocks_length (length (sha256.pad msg) / 64) sha256.init
                (sha256.pad msg)).
  generalize (sha256.blocks (length (sha256.pad msg) / 64) sha256.init
                (sha256.pad msg)).
  intros st Hst. change (length sha256.init) with 8%nat in Hst.
  do 9 (destruct st as [|? st]; try discriminate Hst).
  reflexivity.
Qed.

Lemma hexdigit_lower_hex d : 0 <= d < 16 -> is_lower_hex (hexdigit d).
Proof.
  intros Hd. unfold is_lower_hex, hexdigit. cbv zeta.
  rewrite byte_of_ascii_of_byte
    by (unfold is_byte; destruct (d <? 10); lia).
  destruct (Z.ltb_spec d 10); lia.
Qed.

Lemma hex_EncodeToString_lower bs :
  Forall is_byte bs -> Forall is_lower_hex (chars (hex_EncodeToString bs)).
Proof.
  induction 1 as [|b bs Hb _ IH]; [constructor|].
  destruct (byte_nibbles b Hb) as (Hhi & Hlo & _).
  change (chars (hex_EncodeToString (b :: bs)))
    with (hexdigit (Z.shiftr b 4) :: hexdigit (Z.land b 15)
            :: chars (hex_EncodeToString bs)).
  apply Forall_cons. split; [by apply hexdigit_lower_hex|].
  apply Forall_cons. split; [by apply hexdigit_lower_hex|exact IH].
Qed.

Lemma GenerateTxID_length s r p t :
  String.length (GenerateTxID s r p t) = 64%nat.
Proof.
  unfold GenerateTxID. cbv zeta.
  rewrite hex_EncodeToString_length, Sum256_length. reflexivity.
Qed.

Lemma lower_hex_not_pipe a : is_lower_hex a -> a <> pipe.
Proof.
  intros H ->. unfold is_lower_hex in H. cbv zeta in H.
  change (byte_of_ascii pipe) with 124 in H. lia.
Qed.

(** ** What the methods do to the listing *)

Lemma List_ids_keys (m : mempool) :
  mp_ok m -> ID <$> List m = (map_to_list (table m)).*1.
Proof.
  intros (_ & _ & _ & [T1 _] & _). unfold List.
  rewrite <- list_fmap_compose. apply list_fmap_ext.
  intros i [id p] Hi. simpl.
  apply list_elem_of_lookup_2, elem_of_map_to_list in Hi.
  by destruct (T1 _ _ Hi) as [_ ->].
Qed.

Lemma List_NoDup_ids (m : mempool) : mp_ok m -> NoDup (ID <$> List m).
Proof.
  intros Hok. rewrite List_ids_keys by done. apply NoDup_fst_map_to_list.
Qed.

Lemma List_table (m : mempool) (t : Tx) :
  mp_ok m -> t ∈ List m ->
  exists p, table m !! ID t = Some p /\ t = tx (load (mpheap m) p).
Proof.
  intros Hok (id & p & Hin & ->)%List_elem.
  destruct Hok as (_ & _ & _ & [T1 _] & _).
  destruct (T1 _ _ Hin) as [_ Hid]. exists p. by rewrite Hid.
Qed.

Lemma List_absent (m : mempool) (id : TxID) :
  mp_ok m -> (forall a, a ∈ List m -> ID a <> id) <-> table m !! id = None.
Proof.
  intros Hok. split.
  - intros Hn. destruct (table m !! id) as [p|] eqn:Hp; [|done].
    exfalso. apply (Hn (tx (load (mpheap m) p))).
    + apply List_elem. by exists id, p.
    + destruct Hok as (_ & _ & _ & [T1 _] & _). by destruct (T1 _ _ Hp).
  - intros Hnone a Ha Heq. destruct (List_table m a Hok Ha) as (p & Hp & _).
    congruence.
Qed.

Lemma Add_List (m : mempool) (t : Tx) :
  mp_ok m -> (forall a, a ∈ List m -> ID a <> ID t) ->
  (Add m t).2 = None /\ List (Add m t).1 ≡ₚ t :: List m.
Proof.
  intros Hok Hfresh.
  destruct (Add_fresh m t Hok) as (Hn & Hok' & Hperm).
  { intros a Ha. apply Hfresh. by rewrite List_perm. }
  split; [exact Hn|]. by rewrite !List_perm.
Qed.

Lemma Remove_List (m : mempool) (t : Tx) :
  mp_ok m -> t ∈ List m ->
  (Remove m (ID t)).2 = None /\ List m ≡ₚ t :: List (Remove m (ID t)).1.
Proof.
  intros Hok Ht. destruct (List_table m t Hok Ht) as (p & Hp & Heq).
  destruct (Remove_spec m (ID t) p Hok Hp)
    as (m' & Hr & Hok' & Htbl & [_ Hsame] & Hperm).
  rewrite Hr. split; [reflexivity|]. cbn [fst].
  rewrite !List_perm by done. unfold heap_txs.
  rewrite Hperm. cbn [fmap list_fmap]. rewrite <- Heq.
  apply Permutation_skip. apply Permutation_refl'.
  apply list_fmap_ext. intros i q Hq. cbn. by rewrite Hsame.
Qed.

Lemma Update_List (m : mempool) (old t : Tx) :
  mp_ok m -> old ∈ List m -> ID t = ID old ->
  (Update m t).2 = None
  /\ exists rest, List m ≡ₚ old :: rest /\ List (Update m t).1 ≡ₚ t :: rest.
Proof.
  intros Hok Hold Hid.
  destruct (List_table m old Hok Hold) as (p & Hp & Heq).
  rewrite <- Hid in Hp.
  destruct (Update_spec m t p Hok Hp) as (m' & Hu & Hok' & Htbl & Hnew & Hoth).
  rewrite Hu. split; [reflexivity|]. cbn [fst].
  exists ((fun kv => tx (load (mpheap m) kv.2))
            <$> map_to_list (delete (ID t) (table m))).
  assert (map_to_list (table m)
          ≡ₚ (ID t, p) :: map_to_list (delete (ID t) (table m))) as Hsplit.
  { rewrite <- map_to_list_insert by apply lookup_delete_eq.
    by rewrite insert_delete_id. }
  split.
  - unfold List. rewrite Hsplit. cbn [fmap list_fmap]. cbn [snd].
    by rewrite <- Heq.
  - unfold List. rewrite Htbl, Hsplit. cbn [fmap list_fmap]. cbn [snd].
    rewrite Hnew. apply Permutation_skip. apply Permutation_refl'.
    apply list_fmap_ext. intros i [id q] Hq. cbn.
    apply Hoth. intros ->.
    apply list_elem_of_lookup_2, elem_of_map_to_list in Hq.
    apply lookup_delete_Some in Hq as [Hne Hq].
    destruct Hok as (_ & _ & _ & [T1 _] & _).
    destruct (T1 _ _ Hq) as [_ H1]. destruct (T1 _ _ Hp) as [_ H2].
    congruence.
Qed.

(** ** Listings in priority order *)

Lemma rpcTxList_less_eq a b : rpcTxList_less a b = txLess a b.
Proof. reflexivity. Qed.

Lemma insert_sorted_perm less t l : insert_sorted less t l ≡ₚ t :: l.
Proof.
  induction l as [|u l IH]; simpl; [done|].
  destruct (less t u); [done|]. rewrite IH. apply Permutation_swap.
Qed.

Lemma sort_Slice_perm l less : sort_Slice l less ≡ₚ l.
Proof.
  unfold sort_Slice. induction l as [|t l IH]; simpl; [done|].
  by rewrite insert_sorted_perm, IH.
Qed.

Lemma insert_sorted_sorted t l :
  StronglySorted before l -> (forall u, u ∈ l -> ID u <> ID t) ->
  StronglySorted before (insert_sorted rpcTxList_less t l).
Proof.
  induction 1 as [|u l Hl IH Hu]; intros Hid; simpl.
  { repeat constructor. }
  rewrite rpcTxList_less_eq. destruct (txLess t u) eqn:Htu.
  - constructor; [by constructor|].
    constructor; [exact Htu|].
    eapply Forall_impl; [exact Hu|].
    intros x Hx. unfold before in *. by eapply txLess_trans.
  - assert (before u t) as Hut.
    { apply txLess_total; [|exact Htu]. intros Heq. apply (Hid u); [left|done]. }
    constructor.
    + apply IH. intros x Hx. apply Hid. by right.
    + rewrite insert_sorted_perm. by constructor.
Qed.

Lemma sort_Slice_sorted l :
  NoDup (ID <$> l) -> StronglySorted before (sort_Slice l rpcTxList_less).
Proof.
  unfold sort_Slice. induction l as [|t l IH]; intros Hnd; simpl.
  { constructor. }
  apply NoDup_cons in Hnd as [Hnin Hnd].
  apply insert_sorted_sorted; [by apply IH|].
  intros u Hu Heq. apply Hnin. rewrite <- Heq.
  apply list_elem_of_fmap_2. by rewrite <- (sort_Slice_perm l rpcTxList_less).
Qed.

(** ** The walk: what is taken, what is kept, what is dropped *)

Lemma walk_conservation (c : BlockConstraints) (L : list Tx) :
  forall acc gas,
  let w := walk c acc gas L in
  exists purged,
    acc ++ L ≡ₚ Transactions w.1 ++ w.2 ++ purged
    /\ Forall (fun t => Fee t < MinFee c) purged
    /\ (Forall (fun t => MinFee c <= Fee t) acc ->
        Forall (fun t => MinFee c <= Fee t) (Transactions w.1)).
Proof.
  induction L as [|t L IH]; intros acc gas; cbv zeta.
  { exists []. simpl. rewrite !app_nil_r. done. }
  simpl. destruct (Z.of_nat (length acc) <? MaxTx c).
  2:{ exists []. simpl. rewrite app_nil_r. done. }
  destruct (Z.ltb_spec (Fee t) (MinFee c)) as [Hlow|Hfee].
  - destruct (IH acc gas) as (purged & Hp & Hf & Ha).
    exists (t :: purged). split; [|split; [by constructor|exact Ha]].
    rewrite <- Permutation_middle, Hp.
    rewrite !(assoc_L (++)). by rewrite <- Permutation_middle.
  - destruct ((0 <? GasLimit c) && (GasLimit c <? wrap64 (gas + Gas t))).
    + destruct (IH acc gas) as (purged & Hp & Hf & Ha).
      exists purged. split; [|split; [exact Hf|exact Ha]].
      simpl. rewrite <- Permutation_middle, Hp.
      by rewrite <- Permutation_middle.
    + destruct (IH (acc ++ [t]) (wrap64 (gas + Gas t)))
        as (purged & Hp & Hf & Ha).
      exists purged. split; [|split; [exact Hf|]].
      * rewrite <- Hp, <- (assoc_L (++)). done.
      * intros Hacc. apply Ha, Forall_app. split; [exact Hacc|].
        by apply Forall_singleton.
Qed.

(** With no gas limit and no transaction below the minimum fee, the walk
    takes a prefix. *)
Lemma walk_prefix (c : BlockConstraints) (L : list Tx) :
  GasLimit c = 0 -> Forall (fun t => MinFee c <= Fee t) L ->
  forall acc gas,
  let k := Z.to_nat (MaxTx c - Z.of_nat (length acc)) in
  let w := walk c acc gas L in
  Transactions w.1 = acc ++ take k L /\ w.2 = drop k L.
Proof.
  intros Hg. induction 1 as [|t L Ht _ IH]; intros acc gas; cbv zeta.
  { simpl. rewrite take_nil, drop_nil, app_nil_r. done. }
  simpl. destruct (Z.ltb_spec (Z.of_nat (length acc)) (MaxTx c)) as [Hlt|Hge].
  - destruct (Z.ltb_spec (Fee t) (MinFee c)); [lia|].
    rewrite Hg. cbn [Z.ltb Z.compare andb].
    destruct (IH (acc ++ [t]) (wrap64 (gas + Gas t))) as [H1 H2].
    cbv zeta in *. rewrite length_app in *. simpl in *.
    replace (Z.to_nat (MaxTx c - Z.of_nat (length acc)))
      with (S (Z.to_nat (MaxTx c - Z.of_nat (length acc + 1)))) by lia.
    simpl. rewrite H1, H2, <- (assoc_L (++)). done.
  - replace (Z.to_nat (MaxTx c - Z.of_nat (length acc))) with O by lia.
    simpl. rewrite app_nil_r. done.
Qed.

Lemma sorted_listing (m : mempool) :
  mp_ok m ->
  let L := sort_Slice (List m) rpcTxList_less in
  StronglySorted before L /\ L ≡ₚ List m /\ L ≡ₚ heap_txs (mpheap m).
Proof.
  intros Hok. cbv zeta. split; [|split].
  - apply sort_Slice_sorted, List_NoDup_ids, Hok.
  - apply sort_Slice_perm.
  - rewrite sort_Slice_perm. by apply List_perm.
Qed.

Lemma sorted_unique (L1 L2 : list Tx) :
  StronglySorted before L1 -> StronglySorted before L2 -> L1 ≡ₚ L2 -> L1 = L2.
Proof.
  intros H1. revert L2. induction H1 as [|a L1 HL1 IH Ha]; intros L2 H2 Hp.
  { by apply Permutation_nil_l in Hp. }
  destruct H2 as [|b L2 HL2 Hb].
  { by apply Permutation_nil_r in Hp. }
  assert (a = b) as ->.
  { assert (a ∈ b :: L2) as Hin by (rewrite <- Hp; left).
    assert (b ∈ a :: L1) as Hin' by (rewrite Hp; left).
    apply elem_of_cons in Hin as [?|Hin]; [done|].
    apply elem_of_cons in Hin' as [?|Hin']; [done|].
    rewrite Forall_forall in Ha, Hb.
    specialize (Ha _ Hin'). specialize (Hb _ Hin). unfold before in *.
    pose proof (txLess_asym _ _ Ha). congruence. }
  f_equal. apply IH; [done|]. by apply Permutation_cons_inv in Hp.
Qed.

(** ** Further properties: transaction ids and block hashes *)

Lemma txid_preimage_shift a b c p t :
  txid_preimage (a +:+ "|" +:+ b) c p t = txid_preimage a (b +:+ "|" +:+ c) p t.
Proof.
  apply chars_inj. rewrite !chars_txid_preimage, !chars_app.
  change (chars "|") with [pipe].
  rewrite <- !(assoc_L (++)). reflexivity.
Qed.

Lemma txid_preimage_shift_payload a b c p t :
  txid_preimage a (b +:+ "|" +:+ c) p t = txid_preimage a b (c +:+ "|" +:+ p) t.
Proof.
  apply chars_inj. rewrite !chars_txid_preimage, !chars_app.
  change (chars "|") with [pipe].
  rewrite <- !(assoc_L (++)). reflexivity.
Qed.

(** X1. [GenerateTxID] does not escape its separator: moving a ['|'] and
    what follows it from the end of the sender to the front of the
    recipient, or from the end of the recipient to the front of the
    payload, gives the same id. *)
Theorem GenerateTxID_separator_moves a b c p t :
  GenerateTxID (a +:+ "|" +:+ b) c p t = GenerateTxID a (b +:+ "|" +:+ c) p t
  /\ GenerateTxID a (b +:+ "|" +:+ c) p t
     = GenerateTxID a b (c +:+ "|" +:+ p) t.
Proof.
  unfold GenerateTxID. cbv zeta.
  by rewrite txid_preimage_shift, txid_preimage_shift_payload.
Qed.

(** X2. When the senders and the recipients hold no ['|'], [GenerateTxID]
    hashes two inputs that differ in the sender, the recipient, the payload
    or the nanosecond count of the creation time as different strings, so
    the ids differ unless SHA-256 collides on these two strings; inputs
    equal in the four give the same id; and two creation times one
    nanosecond apart differ in their count. *)
Theorem GenerateTxID_sensitive s1 r1 p1 t1 s2 r2 p2 t2 :
  pipe_free s1 = true -> pipe_free r1 = true ->
  pipe_free s2 = true -> pipe_free r2 = true ->
  ((s1, r1, p1, UnixNano t1) = (s2, r2, p2, UnixNano t2) ->
   GenerateTxID s1 r1 p1 t1 = GenerateTxID s2 r2 p2 t2)
  /\ ((s1, r1, p1, UnixNano t1) <> (s2, r2, p2, UnixNano t2) ->
      txid_preimage s1 r1 p1 t1 <> txid_preimage s2 r2 p2 t2
      /\ (no_collision (bytes_of_string (txid_preimage s1 r1 p1 t1))
                       (bytes_of_string (txid_preimage s2 r2 p2 t2)) ->
          GenerateTxID s1 r1 p1 t1 <> GenerateTxID s2 r2 p2 t2))
  /\ UnixNano t1 <> UnixNano (t1 + 1).
Proof.
  intros Hs1 Hr1 Hs2 Hr2. split; [|split].
  - intros Heq. injection Heq as -> -> -> Ht.
    unfold GenerateTxID, txid_preimage. by rewrite Ht.
  - intros Hne.
    assert (txid_preimage s1 r1 p1 t1 <> txid_preimage s2 r2 p2 t2) as Hpre.
    { intros Heq. apply Hne. by apply txid_preimage_inj. }
    split; [exact Hpre|].
    intros Hnc Heq. apply Hpre. by apply GenerateTxID_inj_preimage.
  - apply UnixNano_succ.
Qed.

Lemma GenerateTxID_sensitive_witness :
  GenerateTxID "alice" "bob" "hello" 1000
     <> GenerateTxID "alice" "bob" "hello" 1001.
Proof.
  destruct (GenerateTxID_sensitive "alice" "bob" "hello" 1000
             "alice" "bob" "hello" 1001) as (_ & H & _);
    [reflexivity..|].
  apply H.
  - vm_compute. intros Heq. discriminate Heq.
  - intros Hd. vm_compute in Hd. discriminate Hd.
Defined.

(** X3. Every id [GenerateTxID] returns is 64 characters long, each a
    digit or a letter from [a] to [f]; so no id holds the separator
    ['|']. *)
Theorem GenerateTxID_format s r p t :
  String.length (GenerateTxID s r p t) = 64%nat
  /\ Forall is_lower_hex (chars (GenerateTxID s r p t))
  /\ pipe_free (GenerateTxID s r p t) = true.
Proof.
  assert (Forall is_lower_hex (chars (GenerateTxID s r p t))) as Hhex.
  { unfold GenerateTxID. cbv zeta.
    apply hex_EncodeToString_lower, Sum256_bytes. }
  split; [apply GenerateTxID_length|]. split; [exact Hhex|].
  unfold pipe_free. apply forallb_forall. intros a Ha.
  apply list_elem_of_In in Ha. rewrite Forall_forall in Hhex.
  apply negb_true_iff, Ascii.eqb_neq, lower_hex_not_pipe, Hhex, Ha.
Qed.

(** X4. Two blocks whose fields are in the range of their types and whose
    transaction ids all have 64 characters, and which differ in a header
    field (height, previous hash, instant of the timestamp, transaction
    count, gas used) or in the sequence of their transaction ids, are
    hashed from different byte strings; so their hashes differ unless
    SHA-256 collides on these two strings. *)
Theorem Block_Hash_sensitive b1 b2 :
  block_wf b1 = true -> block_wf b2 = true ->
  Header b1 <> Header b2
  \/ ID <$> BlockTransactions b1 <> ID <$> BlockTransactions b2 ->
  hash_preimage b1 <> hash_preimage b2
  /\ (no_collision (hash_preimage b1) (hash_preimage b2) ->
      Block_Hash b1 <> Block_Hash b2).
Proof.
  intros W1 W2 Hne.
  assert (hash_preimage b1 <> hash_preimage b2) as Hpre.
  { intros Heq.
    destruct (block_wf_spec b1 W1) as (_ & _ & B1 & _).
    destruct (block_wf_spec b2 W2) as (_ & _ & B2 & _).
    rewrite !hash_preimage_chars in Heq by assumption.
    apply list_fmap_eq_inj in Heq;
      [|intros x y; apply byte_of_ascii_inj].
    destruct (hash_chars_inj b1 b2 W1 W2 Heq) as [Hh Hi].
    destruct Hne as [Hne|Hne]; by apply Hne. }
  split; [exact Hpre|].
  intros Hnc Heq. apply Hpre, Hnc, Heq.
Qed.

Lemma Block_Hash_sensitive_witness :
  Block_Hash (sampleBlock 0) <> Block_Hash (sampleBlock 1).
Proof.
  destruct (Block_Hash_sensitive (sampleBlock 0) (sampleBlock 1))
    as [_ H].
  - vm_compute. reflexivity.
  - vm_compute. reflexivity.
  - left. vm_compute. intros Heq. discriminate Heq.
  - apply H. intros Hd. vm_compute in Hd. discriminate Hd.
Defined.

(** X5. [Block.Hash] reads the transactions only through the concatenation
    of their ids: two blocks with the same header whose ids, laid end to
    end, give the same text have the same hash, whatever the other fields
    of the transactions are and wherever one id ends and the next
    begins. *)
Theorem Block_Hash_reads_concatenated_ids h txs1 txs2 :
  (txs1 ≫= fun t => chars (ID t)) = (txs2 ≫= fun t => chars (ID t)) ->
  Block_Hash {| Header := h; BlockTransactions := txs1 |}
  = Block_Hash {| Header := h; BlockTransactions := txs2 |}.
Proof.
  intros Heq. unfold Block_Hash, hash_preimage. cbn [Header BlockTransactions].
  do 3 f_equal.
  assert (forall l : list Tx,
            (l ≫= fun t => bytes_of_string (ID t))
            = byte_of_ascii <$> (l ≫= fun t => chars (ID t))) as H.
  { induction l as [|t l IH]; [reflexivity|].
    rewrite !bind_cons, fmap_app, IH. reflexivity. }
  by rewrite !H, Heq.
Qed.

Lemma Block_Hash_reads_concatenated_ids_witness :
  let h := Header (sampleBlock 0) in
  Block_Hash {| Header := h; BlockTransactions := [s1A; s1B] |}
  = Block_Hash {| Header := h;
                  BlockTransactions := [sampleTx "a" "zoe" 7 7 7;
                                        sampleTx "1b2" "zoe" 9 9 9] |}.
Proof.
  intros h.
  apply (Block_Hash_reads_concatenated_ids h [s1A; s1B]
           [sampleTx "a" "zoe" 7 7 7; sampleTx "1b2" "zoe" 9 9 9]).
  reflexivity.
Defined.

(** ** Further properties: the mempool *)

(** X6. [Less] is a strict total order on transactions of different ids:
    no transaction is before itself, the order is transitive, two
    transactions of different ids are always ordered one way, and the order
    is: higher fee, then earlier timestamp, then smaller id. *)
Theorem txLess_strict_total_order :
  (forall a, txLess a a = false)
  /\ (forall a b c,
        txLess a b = true -> txLess b c = true -> txLess a c = true)
  /\ (forall a b, ID a <> ID b -> txLess a b = true \/ txLess b a = true)
  /\ (forall a b, txLess a b = true <-> priority_before a b).
Proof.
  split; [apply txLess_irrefl|]. split; [apply txLess_trans|].
  split; [|apply before_priority].
  intros a b Hne. destruct (txLess a b) eqn:Hab; [by left|].
  right. by apply txLess_total.
Qed.

(** X7. In every mempool reached from [NewMempool] by the methods, the heap
    slice is in heap order (no transaction is before the one at its parent
    position), the [index] field of each record is the position of the
    record in the slice, and the table maps an id to a record exactly when
    the record is in the slice and holds a transaction of that id. *)
Theorem reachable_heap_invariant (m : mempool) :
  reachable m ->
  (forall c, 0 < c < Z.of_nat (length (elems (mpheap m))) ->
     txLess (at_ (heap_txs (mpheap m)) c)
            (at_ (heap_txs (mpheap m)) (parent c)) = false)
  /\ (forall k p, zlookup (elems (mpheap m)) k = Some p ->
        index (load (mpheap m) p) = k)
  /\ (forall id p, table m !! id = Some p <->
        p ∈ elems (mpheap m) /\ ID (tx (load (mpheap m) p)) = id).
Proof.
  intros (Hmem & _ & Hheap & [T1 T2] & _)%reachable_ok.
  rewrite app_nil_r in *. split; [|split].
  - intros c Hc. apply Hheap. unfold heap_txs. by rewrite length_fmap.
  - intros k p Hk. destruct Hmem as [_ Hidx].
    destruct (Hidx k p Hk) as (r & Hr & <-). unfold load.
    by rewrite (lookup_total_correct _ _ _ Hr).
  - intros id p. split; [apply T1|]. intros [Hin <-]. by apply T2.
Qed.

Lemma reachable_heap_invariant_witness :
  index (load (mpheap (mpOf [s1A; s1B; s1C])) 2%nat) = 0
  /\ txLess s1A s1C = false.
Proof.
  destruct (reachable_heap_invariant (mpOf [s1A; s1B; s1C]))
    as (H1 & H2 & _).
  - by exists (OpAdd <$> [s1A; s1B; s1C]).
  - split.
    + apply (H2 0 2%nat). reflexivity.
    + apply (H1 1). vm_compute. split; reflexivity.
Defined.

(** X8. The transactions a reachable mempool lists have pairwise different
    ids. *)
Theorem List_ids_distinct (m : mempool) :
  reachable m -> NoDup (ID <$> List m).
Proof. intros Hm%reachable_ok. by apply List_NoDup_ids. Qed.

Lemma List_ids_distinct_witness :
  NoDup (ID <$> List (mpOf [s1A; s1B; s1C; s1A])).
Proof.
  apply (List_ids_distinct (mpOf [s1A; s1B; s1C; s1A])).
  by exists (OpAdd <$> [s1A; s1B; s1C; s1A]).
Defined.

(** X9. [Add] of a transaction whose id the mempool does not hold returns
    no error, and the mempool then lists that transaction and what it
    listed before, nothing else. *)
Theorem Add_new_listing (m : mempool) (t : Tx) :
  reachable m -> (forall a, a ∈ List m -> ID a <> ID t) ->
  (Add m t).2 = None /\ List (Add m t).1 ≡ₚ t :: List m.
Proof. intros Hm%reachable_ok. by apply Add_List. Qed.

Lemma Add_new_listing_witness :
  (Add (mpOf [s1A; s1B]) s1C).2 = None
  /\ List (Add (mpOf [s1A; s1B]) s1C).1 ≡ₚ s1C :: List (mpOf [s1A; s1B]).
Proof.
  apply (Add_new_listing (mpOf [s1A; s1B]) s1C).
  - by exists (OpAdd <$> [s1A; s1B]).
  - apply List_absent; [|reflexivity]. apply reachable_ok.
    by exists (OpAdd <$> [s1A; s1B]).
Defined.

(** X10. [Remove] of the id of a listed transaction returns no error and
    takes exactly that transaction out of the listing. *)
Theorem Remove_listing (m : mempool) (t : Tx) :
  reachable m -> t ∈ List m ->
  (Remove m (ID t)).2 = None /\ List m ≡ₚ t :: List (Remove m (ID t)).1.
Proof. intros Hm%reachable_ok. by apply Remove_List. Qed.

Lemma Remove_listing_witness :
  (Remove (mpOf [s1A; s1B; s1C]) "b2").2 = None
  /\ List (mpOf [s1A; s1B; s1C])
     ≡ₚ s1B :: List (Remove (mpOf [s1A; s1B; s1C]) "b2").1.
Proof.
  apply (Remove_listing (mpOf [s1A; s1B; s1C]) s1B).
  - by exists (OpAdd <$> [s1A; s1B; s1C]).
  - apply List_elem. exists "b2", 1%nat. split; reflexivity.
Defined.

(** X11. [Update] with a transaction whose id is listed returns no error
    and puts the new transaction in the place of the listed one; every
    other listed transaction stays as it was. *)
Theorem Update_listing (m : mempool) (old t : Tx) :
  reachable m -> old ∈ List m -> ID t = ID old ->
  (Update m t).2 = None
  /\ exists rest, List m ≡ₚ old :: rest /\ List (Update m t).1 ≡ₚ t :: rest.
Proof. intros Hm%reachable_ok. by apply Update_List. Qed.

Lemma Update_listing_witness :
  let t := sampleTx "b2" "bob" 500 50 2000 in
  (Update (mpOf [s1A; s1B; s1C]) t).2 = None
  /\ exists rest,
       List (mpOf [s1A; s1B; s1C]) ≡ₚ s1B :: rest
       /\ List (Update (mpOf [s1A; s1B; s1C]) t).1 ≡ₚ t :: rest.
Proof.
  cbv zeta.
  apply (Update_listing (mpOf [s1A; s1B; s1C]) s1B
           (sampleTx "b2" "bob" 500 50 2000)).
  - by exists (OpAdd <$> [s1A; s1B; s1C]).
  - apply List_elem. exists "b2", 1%nat. split; reflexivity.
  - reflexivity.
Defined.

(** X12. Adding a transaction of a new id and then removing that id gives
    back the listing the mempool had; neither call returns an error. *)
Theorem Add_Remove_round_trip (m : mempool) (t : Tx) :
  reachable m -> (forall a, a ∈ List m -> ID a <> ID t) ->
  (Add m t).2 = None
  /\ (Remove (Add m t).1 (ID t)).2 = None
  /\ List (Remove (Add m t).1 (ID t)).1 ≡ₚ List m.
Proof.
  intros Hm Hfresh. pose proof (reachable_ok m Hm) as Hok.
  destruct (Add_List m t Hok Hfresh) as [Ha Hp].
  destruct (Remove_List (Add m t).1 t) as [Hr Hq].
  - by apply Add_ok.
  - rewrite Hp. left.
  - split; [exact Ha|]. split; [exact Hr|].
    rewrite Hp in Hq. by apply Permutation_cons_inv in Hq.
Qed.

Lemma Add_Remove_round_trip_witness :
  (Add (mpOf [s1A; s1B]) s1C).2 = None
  /\ (Remove (Add (mpOf [s1A; s1B]) s1C).1 "c3").2 = None
  /\ List (Remove (Add (mpOf [s1A; s1B]) s1C).1 "c3").1
     ≡ₚ List (mpOf [s1A; s1B]).
Proof.
  apply (Add_Remove_round_trip (mpOf [s1A; s1B]) s1C).
  - by exists (OpAdd <$> [s1A; s1B]).
  - apply List_absent; [|reflexivity]. apply reachable_ok.
    by exists (OpAdd <$> [s1A; s1B]).
Defined.

(** ** Further properties: the selection *)

Lemma selection_walk_listing (m : mempool) (c : BlockConstraints) :
  mp_ok m ->
  let L := sort_Slice (List m) rpcTxList_less in
  (SelectTransactions m c).2 = (walk c [] 0 L).1
  /\ List (SelectTransactions m c).1 ≡ₚ (walk c [] 0 L).2.
Proof.
  intros Hok. destruct (sorted_listing m Hok) as (Hs & _ & Hp).
  by apply SelectTransactions_walk.
Qed.

Lemma selection_conserves (m : mempool) (c : BlockConstraints) :
  mp_ok m ->
  exists purged,
    List m ≡ₚ Transactions (SelectTransactions m c).2
              ++ List (SelectTransactions m c).1 ++ purged
    /\ Forall (fun t => Fee t < MinFee c) purged
    /\ Forall (fun t => MinFee c <= Fee t)
         (Transactions (SelectTransactions m c).2).
Proof.
  intros Hok. destruct (selection_walk_listing m c Hok) as [Hr Hl].
  destruct (sorted_listing m Hok) as (_ & Hp & _).
  destruct (walk_conservation c (sort_Slice (List m) rpcTxList_less) [] 0)
    as (purged & Hw & Hf & Ha).
  cbv zeta in *. exists purged. rewrite Hr, Hl.
  split; [|split; [exact Hf|by apply Ha]].
  rewrite <- Hw. simpl. by symmetry.
Qed.

(** X13. A selection loses and invents nothing: the transactions listed
    before it are those it returns, those still listed after it, and those
    it dropped, each of these once; the dropped ones all have a fee below
    [MinFee], the returned ones a fee of at least [MinFee], and no id is
    both returned and still listed. *)
Theorem selection_conservation (m : mempool) (c : BlockConstraints) :
  reachable m ->
  let r := (SelectTransactions m c).2 in
  let m' := (SelectTransactions m c).1 in
  (exists purged,
     List m ≡ₚ Transactions r ++ List m' ++ purged
     /\ Forall (fun t => Fee t < MinFee c) purged)
  /\ Forall (fun t => MinFee c <= Fee t) (Transactions r)
  /\ NoDup (ID <$> (Transactions r ++ List m')).
Proof.
  intros Hm%reachable_ok. cbv zeta.
  destruct (selection_conserves m c Hm) as (purged & Hp & Hf & Ha).
  split; [by exists purged|]. split; [exact Ha|].
  pose proof (List_NoDup_ids m Hm) as Hnd.
  rewrite Hp, (assoc_L (++)), fmap_app in Hnd.
  by apply NoDup_app in Hnd as [Hnd _].
Qed.

Lemma selection_conservation_witness :
  let c := {| GasLimit := 60; MaxTx := 10; MinFee := 5 |} in
  let m := mpOf [s1A; s1B; s1C] in
  (exists purged,
     List m ≡ₚ Transactions (SelectTransactions m c).2
               ++ List (SelectTransactions m c).1 ++ purged
     /\ Forall (fun t => Fee t < 5) purged)
  /\ Forall (fun t => 5 <= Fee t) (Transactions (SelectTransactions m c).2)
  /\ NoDup (ID <$> (Transactions (SelectTransactions m c).2
                    ++ List (SelectTransactions m c).1)).
Proof.
  cbv zeta.
  apply (selection_conservation (mpOf [s1A; s1B; s1C])
           {| GasLimit := 60; MaxTx := 10; MinFee := 5 |}).
  by exists (OpAdd <$> [s1A; s1B; s1C]).
Defined.

(** X14. [SelectTransactions] is one pass over the listed transactions in
    priority order. For [L] the listing arranged in strict priority order:
    while fewer than [MaxTx] are taken, a transaction with a fee below
    [MinFee] is dropped, one that would take the gas used above a positive
    [GasLimit] is kept, and any other is taken; once [MaxTx] are taken the
    rest is kept. The selection returns the taken ones in that order with
    the gas they use, and the mempool lists the kept ones. *)
Theorem selection_is_walk (m : mempool) (c : BlockConstraints)
    (L : list Tx) :
  reachable m -> L ≡ₚ List m -> StronglySorted before L ->
  (SelectTransactions m c).2 = (walk c [] 0 L).1
  /\ List (SelectTransactions m c).1 ≡ₚ (walk c [] 0 L).2.
Proof.
  intros Hm%reachable_ok Hp Hs.
  apply SelectTransactions_walk; [done..|]. by rewrite Hp, List_perm.
Qed.

Lemma selection_is_walk_witness :
  let c := {| GasLimit := 60; MaxTx := 10; MinFee := 5 |} in
  let m := mpOf [s1A; s1B; s1C] in
  (SelectTransactions m c).2 = {| Transactions := [s1C]; GasUsed := 50 |}
  /\ List (SelectTransactions m c).1 ≡ₚ [s1B].
Proof.
  cbv zeta.
  destruct (selection_is_walk (mpOf [s1A; s1B; s1C])
              {| GasLimit := 60; MaxTx := 10; MinFee := 5 |}
              [s1C; s1B; s1A]) as [H1 H2].
  - by exists (OpAdd <$> [s1A; s1B; s1C]).
  - rewrite <- (sort_Slice_perm (List (mpOf [s1A; s1B; s1C])) rpcTxList_less).
    vm_compute. reflexivity.
  - repeat (apply SSorted_cons; [|repeat (apply Forall_cons_2; [reflexivity|]);
                                   apply Forall_nil_2]).
    apply SSorted_nil.
  - split.
    + rewrite H1. vm_compute. reflexivity.
    + rewrite H2. vm_compute. reflexivity.
Defined.

(** X15. A [GasLimit] of 0 switches the gas test off. With it, and with no
    listed fee below [MinFee], the selection returns the first [MaxTx]
    transactions of the listing arranged in strict priority order (all of
    them if there are fewer, none if [MaxTx] is not positive), and the
    mempool keeps the others. *)
Theorem selection_without_gas_limit (m : mempool) (c : BlockConstraints)
    (L : list Tx) :
  reachable m -> L ≡ₚ List m -> StronglySorted before L ->
  GasLimit c = 0 -> (forall t, t ∈ List m -> MinFee c <= Fee t) ->
  Transactions (SelectTransactions m c).2 = take (Z.to_nat (MaxTx c)) L
  /\ List (SelectTransactions m c).1 ≡ₚ drop (Z.to_nat (MaxTx c)) L.
Proof.
  intros Hm%reachable_ok Hp Hs Hg Hfee.
  destruct (SelectTransactions_walk m c L Hm Hs) as [Hr Hl].
  { by rewrite Hp, List_perm. }
  destruct (walk_prefix c L Hg) with (acc := @nil Tx) (gas := 0) as [H1 H2].
  { apply Forall_forall. intros t Ht. apply Hfee. by rewrite <- Hp. }
  cbv zeta in *. simpl in H1, H2. rewrite Z.sub_0_r in H1, H2.
  by rewrite Hr, Hl, H1, H2.
Qed.

Lemma selection_without_gas_limit_witness :
  let c := {| GasLimit := 0; MaxTx := 2; MinFee := 1 |} in
  let m := mpOf [s1A; s1B; s1C] in
  Transactions (SelectTransactions m c).2 = [s1C; s1B]
  /\ List (SelectTransactions m c).1 ≡ₚ [s1A].
Proof.
  cbv zeta.
  apply (selection_without_gas_limit (mpOf [s1A; s1B; s1C])
           {| GasLimit := 0; MaxTx := 2; MinFee := 1 |} [s1C; s1B; s1A]).
  - by exists (OpAdd <$> [s1A; s1B; s1C]).
  - rewrite <- (sort_Slice_perm (List (mpOf [s1A; s1B; s1C])) rpcTxList_less).
    vm_compute. reflexivity.
  - repeat (apply SSorted_cons; [|repeat (apply Forall_cons_2; [reflexivity|]);
                                   apply Forall_nil_2]).
    apply SSorted_nil.
  - reflexivity.
  - apply Forall_forall.
    eassert (List (mpOf [s1A; s1B; s1C]) = _) as ->
      by (vm_compute; reflexivity).
    repeat (apply Forall_cons; split; [cbn; lia|]). by apply Forall_nil.
Defined.

(** ** The block builder *)

Lemma BuildBlock_mempool cfg m prevHash height now :
  (BuildBlock cfg m prevHash height now).1
  = (SelectTransactions m (constraints_of cfg)).1.
Proof.
  unfold BuildBlock. cbv zeta. fold (constraints_of cfg).
  by destruct (_ =? 0).
Qed.

Lemma BuildBlock_inl cfg m prevHash height now b :
  mp_ok m ->
  (BuildBlock cfg m prevHash height now).2 = inl b ->
  BlockTransactions b
    = Transactions (SelectTransactions m (constraints_of cfg)).2
  /\ Height (Header b) = height /\ PrevHash (Header b) = prevHash
  /\ HeaderTimestamp (Header b) = now
  /\ built_under cfg b
  /\ (forall t, t ∈ BlockTransactions b -> t ∈ List m).
Proof.
  intros Hok. unfold BuildBlock. cbv zeta. fold (constraints_of cfg).
  destruct (Z.eqb_spec (Z.of_nat (length (Transactions
              (SelectTransactions m (constraints_of cfg)).2))) 0)
    as [|Hne]; [discriminate|].
  intros [= <-]. cbn [BlockTransactions Header Height PrevHash
                      HeaderTimestamp].
  split; [reflexivity|]. do 3 (split; [reflexivity|]).
  destruct (SelectTransactions_accounting m (constraints_of cfg))
    as (Hg & Hn & Hl).
  destruct (selection_conserves m (constraints_of cfg) Hok)
    as (purged & Hp & _ & Hfee).
  pose proof (List_NoDup_ids m Hok) as Hnd.
  split.
  - unfold built_under. cbn [BlockTransactions Header TxCount HeaderGasUsed].
    split; [reflexivity|].
    change (MaxTx (constraints_of cfg)) with (cfgMaxTxPerBlock cfg) in Hn.
    split; [lia|].
    split; [exact Hg|]. split; [intros H; by apply Hl|].
    split; [by apply SelectTransactions_sorted|].
    split; [|exact Hfee].
    rewrite Hp, fmap_app in Hnd. by apply NoDup_app in Hnd as [Hnd _].
  - intros t Ht. rewrite Hp. apply elem_of_app. by left.
Qed.

Lemma walk_all_low (c : BlockConstraints) (L : list Tx) :
  Forall (fun t => Fee t < MinFee c) L -> 0 < MaxTx c ->
  walk c [] 0 L = ({| Transactions := []; GasUsed := 0 |}, []).
Proof.
  intros HL Hmax. induction HL as [|t L Ht _ IH]; [reflexivity|].
  simpl. change (Z.of_nat 0) with 0.
  destruct (Z.ltb_spec 0 (MaxTx c)); [|lia].
  destruct (Z.ltb_spec (Fee t) (MinFee c)); [exact IH|lia].
Qed.

Lemma BuildBlock_all_low cfg m prevHash height now :
  mp_ok m -> 0 < cfgMaxTxPerBlock cfg ->
  (forall t, t ∈ List m -> Fee t < cfgMinFee cfg) ->
  (BuildBlock cfg m prevHash height now).2 = inr ErrEmptyBlock
  /\ List (BuildBlock cfg m prevHash height now).1 = [].
Proof.
  intros Hok Hmax Hlow.
  destruct (selection_walk_listing m (constraints_of cfg) Hok) as [Hr Hl].
  assert (walk (constraints_of cfg) [] 0 (sort_Slice (List m) rpcTxList_less)
          = ({| Transactions := []; GasUsed := 0 |}, [])) as Hw.
  { apply walk_all_low; [|exact Hmax].
    apply Forall_forall. intros t Ht. apply Hlow.
    by rewrite <- (sort_Slice_perm (List m) rpcTxList_less). }
  rewrite Hw in Hr, Hl.
  split.
  - unfold BuildBlock. cbv zeta. fold (constraints_of cfg).
    by rewrite Hr.
  - rewrite BuildBlock_mempool. by apply Permutation_nil_r in Hl.
Qed.

(** ** Further properties: the block builder *)

(** X16. A block [BuildBlock] returns for a reachable mempool carries the
    height, previous hash and timestamp it was given; it holds at least one
    and at most [MaxTxPerBlock] transactions, all listed by the mempool
    before the call, in strict priority order, of different ids and of a fee
    of at least [MinFee]; its count is their number and its gas used is
    their gas summed as a [uint64], within a positive [GasLimit]. *)
Theorem BuildBlock_block cfg m prevHash height now b :
  reachable m ->
  (BuildBlock cfg m prevHash height now).2 = inl b ->
  Height (Header b) = height /\ PrevHash (Header b) = prevHash
  /\ HeaderTimestamp (Header b) = now
  /\ built_under cfg b
  /\ (forall t, t ∈ BlockTransactions b -> t ∈ List m).
Proof.
  intros Hm%reachable_ok Hb.
  by destruct (BuildBlock_inl cfg m prevHash height now b Hm Hb) as [_ H].
Qed.

Lemma BuildBlock_block_witness :
  let cfg := {| cfgGasLimit := 120; cfgMaxTxPerBlock := 5; cfgMinFee := 5 |} in
  exists b,
    (BuildBlock cfg (mpOf [s1A; s1B; s1C]) zeroHash 7 4000).2 = inl b
    /\ Height (Header b) = 7 /\ built_under cfg b.
Proof.
  cbv zeta. eexists. split; [vm_compute; reflexivity|].
  lazymatch goal with
  | |- Height (Header ?b) = _ /\ _ =>
      destruct (BuildBlock_block
                  {| cfgGasLimit := 120; cfgMaxTxPerBlock := 5; cfgMinFee := 5 |}
                  (mpOf [s1A; s1B; s1C]) zeroHash 7 4000 b)
        as (H1 & _ & _ & H4 & _)
  end.
  - by exists (OpAdd <$> [s1A; s1B; s1C]).
  - vm_compute. reflexivity.
  - split; [exact H1|exact H4].
Defined.

(** X17. [BuildBlock] changes the mempool also when it returns
    [ErrEmptyBlock]: with a positive [MaxTxPerBlock] and every listed fee
    below [MinFee], it returns that error and leaves the mempool listing
    nothing. *)
Theorem BuildBlock_error_purges cfg m prevHash height now :
  reachable m -> 0 < cfgMaxTxPerBlock cfg ->
  (forall t, t ∈ List m -> Fee t < cfgMinFee cfg) ->
  (BuildBlock cfg m prevHash height now).2 = inr ErrEmptyBlock
  /\ List (BuildBlock cfg m prevHash height now).1 = [].
Proof. intros Hm%reachable_ok. by apply BuildBlock_all_low. Qed.

Lemma BuildBlock_error_purges_witness :
  let cfg := {| cfgGasLimit := 120; cfgMaxTxPerBlock := 5;
                cfgMinFee := 1000 |} in
  (BuildBlock cfg (mpOf [s1A; s1B; s1C]) zeroHash 7 4000).2
  = inr ErrEmptyBlock
  /\ List (BuildBlock cfg (mpOf [s1A; s1B; s1C]) zeroHash 7 4000).1 = [].
Proof.
  cbv zeta.
  apply (BuildBlock_error_purges
           {| cfgGasLimit := 120; cfgMaxTxPerBlock := 5; cfgMinFee := 1000 |}
           (mpOf [s1A; s1B; s1C])).
  - by exists (OpAdd <$> [s1A; s1B; s1C]).
  - reflexivity.
  - apply Forall_forall.
    eassert (List (mpOf [s1A; s1B; s1C]) = _) as ->
      by (vm_compute; reflexivity).
    repeat (apply Forall_cons; split; [cbn; lia|]). by apply Forall_nil.
Defined.

(** ** The node between two events *)

(** A request changes nothing of the node but its mempool. *)
Lemma handleRPC_cases now n httpMethod req :
  let n' := (handleRPC now n httpMethod req).1 in
  n' = with_mempool n (node_mempool n')
  /\ request_effect now (node_mempool n) (node_mempool n').
Proof.
  cbv zeta.
  assert (forall x : Node * httpResponse, x.1 = n ->
            x.1 = with_mempool n (node_mempool x.1)
            /\ request_effect now (node_mempool n) (node_mempool x.1))
    as Hsame.
  { intros x ->. split; [by rewrite with_mempool_same|by left]. }
  unfold handleRPC. destruct (negb _); [by apply Hsame|].
  destruct req as [[p|p|p| | |p|s]|]; try by apply Hsame.
  - unfold rpcTxAdd. destruct p as [p|]; [|by apply Hsame].
    destruct (_ || _); [by apply Hsame|].
    destruct (Add _ _) as [m' [e|]] eqn:Ha; cbn [fst];
      (split; [reflexivity|]); right; left; exists p; by rewrite Ha.
  - unfold rpcTxUpdate. destruct p as [p|]; [|by apply Hsame].
    destruct (String.eqb _ _); [by apply Hsame|].
    destruct (findTxByID n (uID p)) as [old|] eqn:Hf; [|by apply Hsame].
    apply find_some in Hf as [Hin _]. apply list_elem_of_In in Hin.
    destruct (Update _ _) as [m' [e|]] eqn:Hu; cbn [fst];
      (split; [reflexivity|]); right; right; left;
      exists old, (uFee p); by rewrite Hu.
  - unfold rpcTxRemove. destruct p as [p|]; [|by apply Hsame].
    destruct (String.eqb _ _); [by apply Hsame|].
    destruct (Remove _ _) as [m' [[]|]] eqn:Hr; cbn [fst];
      (split; [reflexivity|]); right; right; right;
      exists (rID p); by rewrite Hr.
  - unfold rpcBlockGet. destruct p as [p|]; [|by apply Hsame].
    destruct (find _ _); by apply Hsame.
Qed.

Lemma ids_ok_perm l1 l2 : l1 ≡ₚ l2 -> ids_ok l1 -> ids_ok l2.
Proof. unfold ids_ok. by intros ->. Qed.

Lemma Add_ids_ok m t :
  mp_ok m -> String.length (ID t) = 64%nat ->
  ids_ok (List m) -> ids_ok (List (Add m t).1).
Proof.
  intros Hok Hlen Hids. unfold Add.
  destruct (table m !! ID t) as [p|] eqn:Hp; [exact Hids|].
  destruct (Add_List m t Hok) as [_ Hperm].
  { by apply List_absent. }
  unfold Add in Hperm. rewrite Hp in Hperm.
  eapply ids_ok_perm; [symmetry; exact Hperm|]. by constructor.
Qed.

Lemma Update_ids_ok m old t :
  mp_ok m -> old ∈ List m -> ID t = ID old ->
  ids_ok (List m) -> ids_ok (List (Update m t).1).
Proof.
  intros Hok Hold Hid Hids.
  destruct (Update_List m old t Hok Hold Hid) as (_ & rest & H1 & H2).
  eapply ids_ok_perm; [symmetry; exact H2|].
  apply (ids_ok_perm _ _ H1) in Hids. apply Forall_cons in Hids as [Ho Hr].
  constructor; [by rewrite Hid|exact Hr].
Qed.

Lemma Remove_ids_ok m id :
  mp_ok m -> ids_ok (List m) -> ids_ok (List (Remove m id).1).
Proof.
  intros Hok Hids.
  destruct (table m !! id) as [p|] eqn:Hp.
  - assert (tx (load (mpheap m) p) ∈ List m) as Hin.
    { apply List_elem. by exists id, p. }
    assert (ID (tx (load (mpheap m) p)) = id) as Hid.
    { destruct Hok as (_ & _ & _ & [T1 _] & _). by destruct (T1 _ _ Hp). }
    destruct (Remove_List m _ Hok Hin) as [_ Hperm]. rewrite Hid in Hperm.
    apply (ids_ok_perm _ _ Hperm) in Hids.
    by apply Forall_cons in Hids as [_ Hids].
  - unfold Remove. by rewrite Hp.
Qed.

Lemma Select_ids_ok m c :
  mp_ok m -> ids_ok (List m) ->
  ids_ok (List (SelectTransactions m c).1)
  /\ ids_ok (Transactions (SelectTransactions m c).2).
Proof.
  intros Hok Hids.
  destruct (selection_conserves m c Hok) as (purged & Hp & _).
  apply (ids_ok_perm _ _ Hp) in Hids. unfold ids_ok in *.
  rewrite !Forall_app in Hids. tauto.
Qed.

Lemma node_ok_start cfg : node_ok cfg (loop_start (NewNode cfg)).
Proof.
  unfold node_ok, loop_start, NewNode; cbn.
  split; [reflexivity|]. split; [reflexivity|].
  split; [by exists []|]. split; [|constructor].
  unfold ids_ok. by apply Forall_nil.
Qed.

Lemma node_ok_request cfg st now httpMethod req :
  node_ok cfg st -> node_ok cfg (step st (EvRequest now httpMethod req)).
Proof.
  intros (Hb & Hc & Hm & Hids & Hbl).
  pose proof (reachable_ok _ Hm) as Hok.
  destruct (handleRPC_cases now (ls_node st) httpMethod req) as [Hn Hcases].
  cbv zeta in *. unfold node_ok. cbn [step ls_node].
  rewrite Hn. cbn [with_mempool node_builder node_cfg node_mempool blocks].
  split; [exact Hb|]. split; [exact Hc|].
  destruct Hcases as [->|[(p & ->)|[(old & fee & Hold & ->)|(id & ->)]]].
  - done.
  - split; [apply (reachable_step _ (OpAdd _) Hm)|].
    split; [|exact Hbl]. apply Add_ids_ok; [exact Hok| |exact Hids].
    apply GenerateTxID_length.
  - split; [apply (reachable_step _ (OpUpdate _) Hm)|].
    split; [|exact Hbl]. by apply (Update_ids_ok _ old).
  - split; [apply (reachable_step _ (OpRemove _) Hm)|].
    split; [|exact Hbl]. by apply Remove_ids_ok.
Qed.

Lemma node_ok_tick cfg st now : node_ok cfg st -> node_ok cfg (tick now st).
Proof.
  intros (Hb & Hc & Hm & Hids & Hbl).
  pose proof (reachable_ok _ Hm) as Hok.
  unfold tick. cbv zeta.
  pose proof (BuildBlock_mempool (node_builder (ls_node st))
                (node_mempool (ls_node st)) (ls_prevHash st) (ls_height st)
                now) as Hmp.
  pose proof (BuildBlock_inl (node_builder (ls_node st))
                (node_mempool (ls_node st)) (ls_prevHash st) (ls_height st)
                now) as Hblock.
  destruct (Select_ids_ok (node_mempool (ls_node st))
              (constraints_of (node_builder (ls_node st))) Hok Hids)
    as [Hids1 Hids2].
  assert (reachable (BuildBlock (node_builder (ls_node st))
            (node_mempool (ls_node st)) (ls_prevHash st) (ls_height st)
            now).1) as Hm'.
  { rewrite Hmp. apply (reachable_step _ (OpSelect _) Hm). }
  destruct (BuildBlock _ _ _ _ _) as [m' [b|e]]; cbn [fst snd] in *;
    unfold node_ok; cbn [ls_node node_builder node_cfg node_mempool blocks].
  - split; [exact Hb|]. split; [exact Hc|]. split; [exact Hm'|].
    split; [by rewrite Hmp|].
    apply Forall_app. split; [exact Hbl|]. apply Forall_singleton.
    destruct (Hblock b Hok eq_refl) as (Htx & _ & _ & _ & Hbu & _).
    split; [by rewrite <- Hb|]. by rewrite Htx.
  - split; [exact Hb|]. split; [exact Hc|]. split; [exact Hm'|].
    split; [by rewrite Hmp|exact Hbl].
Qed.

Lemma node_ok_step cfg st ev : node_ok cfg st -> node_ok cfg (step st ev).
Proof.
  destruct ev as [now|now httpMethod req];
    [apply node_ok_tick|apply node_ok_request].
Qed.

Lemma node_ok_run cfg evs : node_ok cfg (run_node cfg evs).
Proof.
  unfold run_node. generalize (node_ok_start cfg).
  generalize (loop_start (NewNode cfg)).
  induction evs as [|ev evs IH]; intros st Hst; [exact Hst|].
  simpl. by apply IH, node_ok_step.
Qed.

Lemma step_blocks_prefix st ev :
  blocks (ls_node st) `prefix_of` blocks (ls_node (step st ev)).
Proof.
  destruct ev as [now|now httpMethod req]; cbn [step ls_node].
  - unfold tick. cbv zeta.
    destruct (BuildBlock _ _ _ _ _).2; cbn [ls_node blocks];
      [by apply prefix_app_r|done].
  - by rewrite handleRPC_blocks.
Qed.

Lemma run_blocks_prefix evs : forall st,
  blocks (ls_node st) `prefix_of` blocks (ls_node (foldl step st evs)).
Proof.
  induction evs as [|ev evs IH]; intros st; [done|]. simpl.
  etrans; [apply (step_blocks_prefix st ev)|apply IH].
Qed.

Lemma step_times_valid st ev :
  match ev with EvTick now => Time_valid now | _ => True end ->
  Forall (fun b => Time_valid (HeaderTimestamp (Header b)))
    (blocks (ls_node st)) ->
  Forall (fun b => Time_valid (HeaderTimestamp (Header b)))
    (blocks (ls_node (step st ev))).
Proof.
  intros Hev Hbl. destruct ev as [now|now httpMethod req]; cbn [step ls_node].
  - unfold tick, BuildBlock. cbv zeta.
    destruct (_ =? 0); cbn [snd ls_node blocks]; [exact Hbl|].
    apply Forall_app. split; [exact Hbl|]. by apply Forall_singleton.
  - by rewrite handleRPC_blocks.
Qed.

Lemma run_times_valid cfg evs :
  tick_times_valid evs ->
  Forall (fun b => Time_valid (HeaderTimestamp (Header b)))
    (blocks (ls_node (run_node cfg evs))).
Proof.
  unfold run_node, tick_times_valid.
  assert (Forall (fun b => Time_valid (HeaderTimestamp (Header b)))
            (blocks (ls_node (loop_start (NewNode cfg))))) as H0
    by constructor.
  revert H0. generalize (loop_start (NewNode cfg)).
  induction evs as [|ev evs IH]; intros st Hst Hevs; [exact Hst|].
  apply Forall_cons in Hevs as [Hev Hevs]. simpl.
  apply IH; [|exact Hevs]. by apply step_times_valid.
Qed.

Lemma hash_preimage_differs b1 b2 :
  block_wf b1 = true -> block_wf b2 = true ->
  Header b1 <> Header b2
  \/ ID <$> BlockTransactions b1 <> ID <$> BlockTransactions b2 ->
  hash_preimage b1 <> hash_preimage b2.
Proof.
  intros W1 W2 Hne Heq.
  destruct (block_wf_spec b1 W1) as (_ & _ & B1 & _).
  destruct (block_wf_spec b2 W2) as (_ & _ & B2 & _).
  rewrite !hash_preimage_chars in Heq by assumption.
  apply list_fmap_eq_inj in Heq; [|intros x y; apply byte_of_ascii_inj].
  destruct (hash_chars_inj b1 b2 W1 W2 Heq) as [Hh Hi].
  destruct Hne as [Hne|Hne]; by apply Hne.
Qed.

Lemma zeroHash_bytes : length zeroHash = 32%nat /\ Forall is_byte zeroHash.
Proof.
  split; [reflexivity|]. unfold zeroHash. apply Forall_replicate.
  unfold is_byte. lia.
Qed.

Lemma Block_Hash_bytes b :
  length (Block_Hash b) = 32%nat /\ Forall is_byte (Block_Hash b).
Proof. split; [apply Sum256_length|apply Sum256_bytes]. Qed.

Lemma block_wf_intro b :
  is_uint64 (Height (Header b)) ->
  length (PrevHash (Header b)) = 32%nat ->
  Forall is_byte (PrevHash (Header b)) ->
  Time_valid (HeaderTimestamp (Header b)) ->
  - 2 ^ 63 <= TxCount (Header b) < 2 ^ 63 ->
  is_uint64 (HeaderGasUsed (Header b)) ->
  ids_ok (BlockTransactions b) ->
  block_wf b = true.
Proof.
  unfold is_uint64, ids_ok. intros Hh Hl Hb Ht Hc Hg Hi.
  assert (forallb is_byteb (PrevHash (Header b)) = true) as Hb'.
  { apply forallb_forall. intros x Hx. apply is_byteb_spec.
    rewrite Forall_forall in Hb. by apply Hb, list_elem_of_In. }
  assert (forallb (fun t => (String.length (ID t) =? 64)%nat)
            (BlockTransactions b) = true) as Hi'.
  { apply forallb_forall. intros t Hx. apply Nat.eqb_eq.
    rewrite Forall_forall in Hi. by apply Hi, list_elem_of_In. }
  apply Time_validb_spec in Ht. apply Nat.eqb_eq in Hl.
  unfold block_wf. cbv zeta. rewrite Hb', Hi', Ht, Hl.
  rewrite !andb_true_r. lia.
Qed.

(** Every block of the chain is well formed, when the ticks carry
    representable instants and [MaxTxPerBlock] is in the range of an
    [int]. *)
Lemma chain_block_wf cfg evs i b :
  tick_times_valid evs -> nodeMaxTxPerBlock cfg < 2 ^ 63 ->
  blocks (ls_node (run_node cfg evs)) !! i = Some b ->
  block_wf b = true.
Proof.
  intros Hev Hmax Hi.
  destruct (run_node_chain_inv cfg evs) as (_ & _ & Hl).
  destruct (Hl i b Hi) as [Hh Hp].
  destruct (node_ok_run cfg evs) as (_ & _ & _ & _ & Hbl).
  pose proof (run_times_valid cfg evs Hev) as Ht.
  rewrite Forall_forall in Hbl, Ht.
  assert (b ∈ blocks (ls_node (run_node cfg evs))) as Hin
    by (by eapply list_elem_of_lookup_2).
  destruct (Hbl b Hin) as [(Hc & Hc1 & Hg & _) Hids].
  specialize (Ht b Hin).
  assert (length (PrevHash (Header b)) = 32%nat
          /\ Forall is_byte (PrevHash (Header b))) as [Hlen Hby].
  { rewrite Hp. destruct i as [|j]; [apply zeroHash_bytes|].
    destruct (_ !! j); [apply Block_Hash_bytes|apply zeroHash_bytes]. }
  apply block_wf_intro; try assumption.
  - rewrite Hh. apply wrap64_range.
  - cbn [builder_of cfgMaxTxPerBlock] in Hc1.
    change (2 ^ 63) with 9223372036854775808 in *. lia.
  - rewrite Hg. apply wrap64_range.
Qed.

(** ** Further properties: the chain *)

(** X18. The chain only grows at its end: the chain after a run of events
    is a prefix of the chain after any longer run. *)
Theorem chain_append_only cfg evs evs' :
  blocks (ls_node (run_node cfg evs))
  `prefix_of` blocks (ls_node (run_node cfg (evs ++ evs'))).
Proof. unfold run_node. rewrite foldl_app. apply run_blocks_prefix. Qed.

(** X19. Every block of the chain was built under the node's
    configuration: it holds at least one and at most [MaxTxPerBlock]
    transactions, in strict priority order, of different ids, each of a fee
    of at least [MinFee] and with an id of 64 characters; its count is
    their number and its gas used their gas summed as a [uint64], within a
    positive [GasLimit]. *)
Theorem chain_blocks_built cfg evs i b :
  blocks (ls_node (run_node cfg evs)) !! i = Some b ->
  built_under (builder_of cfg) b /\ ids_ok (BlockTransactions b).
Proof.
  intros Hi. destruct (node_ok_run cfg evs) as (_ & _ & _ & _ & Hbl).
  rewrite Forall_forall in Hbl. apply Hbl. by eapply list_elem_of_lookup_2.
Qed.

Lemma chain_blocks_built_witness :
  exists b,
    blocks (ls_node (run_node sampleConfig sampleEvents)) !! 1%nat = Some b
    /\ built_under (builder_of sampleConfig) b
    /\ ids_ok (BlockTransactions b).
Proof.
  eexists. split; [vm_compute; reflexivity|].
  apply (chain_blocks_built sampleConfig sampleEvents 1%nat).
  vm_compute. reflexivity.
Defined.

(** X20. No two blocks of the chain are hashed from the same bytes: when
    the ticks carry representable instants and [MaxTxPerBlock] is in the
    range of an [int], the blocks at two different positions below 2^64
    give [Block.Hash] different byte strings, so their hashes differ unless
    SHA-256 collides on these two strings. *)
Theorem chain_hashes_distinct cfg evs i j bi bj :
  tick_times_valid evs -> nodeMaxTxPerBlock cfg < 2 ^ 63 ->
  blocks (ls_node (run_node cfg evs)) !! i = Some bi ->
  blocks (ls_node (run_node cfg evs)) !! j = Some bj ->
  i <> j -> Z.of_nat i < two64 -> Z.of_nat j < two64 ->
  hash_preimage bi <> hash_preimage bj
  /\ (no_collision (hash_preimage bi) (hash_preimage bj) ->
      Block_Hash bi <> Block_Hash bj).
Proof.
  intros Hev Hmax Hi Hj Hne Hil Hjl.
  assert (hash_preimage bi <> hash_preimage bj) as Hpre.
  { apply hash_preimage_differs; [by eapply chain_block_wf..|].
    left. intros Heq.
    destruct (run_node_chain_inv cfg evs) as (_ & _ & Hl).
    destruct (Hl i bi Hi) as [Hhi _]. destruct (Hl j bj Hj) as [Hhj _].
    rewrite Heq, Hhj in Hhi.
    rewrite !wrap64_small in Hhi by lia. lia. }
  split; [exact Hpre|]. intros Hnc Heq. by apply Hpre, Hnc.
Qed.

Lemma chain_hashes_distinct_witness :
  exists bi bj,
    blocks (ls_node (run_node sampleConfig sampleEvents)) !! 0%nat = Some bi
    /\ blocks (ls_node (run_node sampleConfig sampleEvents)) !! 1%nat = Some bj
    /\ hash_preimage bi <> hash_preimage bj.
Proof.
  eexists. eexists.
  split; [vm_compute; reflexivity|]. split; [vm_compute; reflexivity|].
  eapply (chain_hashes_distinct sampleConfig sampleEvents 0 1).
  - repeat (apply Forall_cons; split;
              [first [exact I | apply Time_validb_spec; reflexivity]|]).
    by apply Forall_nil.
  - reflexivity.
  - vm_compute. reflexivity.
  - vm_compute. reflexivity.
  - discriminate.
  - reflexivity.
  - reflexivity.
Defined.

(** ** Requests *)

Lemma Add_error m t e : (Add m t).2 = Some e -> (Add m t).1 = m.
Proof. unfold Add. by destruct (table m !! ID t). Qed.

Lemma Update_error m t e : (Update m t).2 = Some e -> (Update m t).1 = m.
Proof. unfold Update. by destruct (table m !! ID t). Qed.

Lemma Remove_error m id e : (Remove m id).2 = Some e -> (Remove m id).1 = m.
Proof. unfold Remove. by destruct (table m !! id). Qed.

Lemma writeRPCError_reply st msg :
  msg <> EmptyString ->
  writeRPCError st msg = {| status := st; body := error_body msg |}
  /\ error_reply (writeRPCError st msg).
Proof.
  intros Hmsg.
  assert (writeRPCError st msg = {| status := st; body := error_body msg |})
    as ->.
  { unfold writeRPCError, encode_rpcResponse. cbn. unfold omitempty_string.
    by destruct (String.eqb_spec msg EmptyString). }
  split; [reflexivity|]. split; [reflexivity|]. by exists msg.
Qed.

Lemma writeRPCResult_reply st v :
  v <> anyNil ->
  writeRPCResult st v
  = {| status := st; body := JObj [("result", encode_any v)] |}
  /\ result_reply (writeRPCResult st v).
Proof.
  intros Hv.
  assert (writeRPCResult st v
          = {| status := st; body := JObj [("result", encode_any v)] |})
    as ->.
  { unfold writeRPCResult, encode_rpcResponse. cbn [Result Error encode_any].
    by destruct v. }
  split; [reflexivity|]. split; [|reflexivity].
  unfold json_field_null. cbn. by destruct v.
Qed.

Lemma error_Error_nonempty e : error_Error e <> EmptyString.
Proof. by destruct e. Qed.

(** A reply is a result with status 200, or an error with status 400 or
    405; an error reply leaves the node as it was. *)
Lemma handleRPC_reply now n httpMethod req :
  let out := handleRPC now n httpMethod req in
  (status out.2 = 200 /\ result_reply out.2)
  \/ ((status out.2 = 400 \/ status out.2 = 405)
      /\ error_reply out.2 /\ out.1 = n).
Proof.
  cbv zeta.
  assert (forall st msg, st = 400 \/ st = 405 -> msg <> EmptyString ->
            let out := (n, writeRPCError st msg) in
            (status out.2 = 200 /\ result_reply out.2)
            \/ ((status out.2 = 400 \/ status out.2 = 405)
                /\ error_reply out.2 /\ out.1 = n)) as Herr.
  { intros st msg Hst Hmsg. right. cbn [fst snd].
    destruct (writeRPCError_reply st msg Hmsg) as [-> He].
    split; [exact Hst|]. split; [|reflexivity].
    by destruct (writeRPCError_reply st msg Hmsg) as [<- ?]. }
  assert (forall n' v, v <> anyNil ->
            let out := (n', writeRPCResult 200 v) in
            (status out.2 = 200 /\ result_reply out.2)
            \/ ((status out.2 = 400 \/ status out.2 = 405)
                /\ error_reply out.2 /\ out.1 = n)) as Hres.
  { intros n' v Hv. left. cbn [fst snd].
    destruct (writeRPCResult_reply 200 v Hv) as [Heq Hr].
    split; [by rewrite Heq|exact Hr]. }
  unfold handleRPC. destruct (negb _); [by apply Herr; [right|]|].
  destruct req as [[p|p|p| | |p|s]|];
    try (by apply Herr; [left|]); try (by apply Hres).
  - unfold rpcTxAdd. destruct p as [p|]; [|by apply Herr; [left|]].
    destruct (_ || _); [by apply Herr; [left|]|].
    destruct (Add _ _) as [m' [e|]] eqn:Ha; [|by apply Hres].
    pose proof (Add_error _ _ e ltac:(by rewrite Ha)) as Hm.
    rewrite Ha in Hm. cbn in Hm. subst m'. rewrite with_mempool_same.
    apply Herr; [by left|apply error_Error_nonempty].
  - unfold rpcTxUpdate. destruct p as [p|]; [|by apply Herr; [left|]].
    destruct (String.eqb _ _); [by apply Herr; [left|]|].
    destruct (findTxByID _ _); [|by apply Hres].
    destruct (Update _ _) as [m' [e|]] eqn:Hu; [|by apply Hres].
    pose proof (Update_error _ _ e ltac:(by rewrite Hu)) as Hm.
    rewrite Hu in Hm. cbn in Hm. subst m'. rewrite with_mempool_same.
    apply Herr; [by left|apply error_Error_nonempty].
  - unfold rpcTxRemove. destruct p as [p|]; [|by apply Herr; [left|]].
    destruct (String.eqb _ _); [by apply Herr; [left|]|].
    destruct (Remove _ _) as [m' [e|]] eqn:Hr; [|by apply Hres].
    pose proof (Remove_error _ _ e ltac:(by rewrite Hr)) as Hm.
    rewrite Hr in Hm. cbn in Hm. subst m'. rewrite with_mempool_same.
    destruct e; [apply Herr; [by left|done]|by apply Hres
                |apply Herr; [by left|done]].
  - unfold rpcBlockGet. destruct p as [p|]; [|by apply Herr; [left|]].
    destruct (find _ _); by apply Hres.
Qed.



Lemma find_first {A} (P : A -> bool) (l : list A) (i : nat) (x : A) :
  l !! i = Some x -> P x = true ->
  (forall k y, (k < i)%nat -> l !! k = Some y -> P y = false) ->
  find P l = Some x.
Proof.
  revert i. induction l as [|a l IH]; intros i Hi Hx Hbefore; [done|].
  destruct i as [|i]; simpl in *.
  - injection Hi as ->. by rewrite Hx.
  - rewrite (Hbefore O a) by (lia || done).
    apply (IH i); [done..|]. intros k y Hk Hy. apply (Hbefore (S k)); [lia|done].
Qed.

Lemma Add_ok_table m t :
  (Add m t).2 = None -> exists q, table (Add m t).1 !! ID t = Some q.
Proof.
  unfold Add. destruct (table m !! ID t); [discriminate|].
  intros _. eexists. cbn. apply lookup_insert_eq.
Qed.

Lemma Add_exists m t q :
  table m !! ID t = Some q -> Add m t = (m, Some ErrTxExists).
Proof. unfold Add. by intros ->. Qed.

(** ** Further properties: the requests *)

(** X21. A request never writes the chain, the builder's configuration or
    the node's configuration; to the mempool it does nothing, or makes one
    call of [Add], [Update] or [Remove]. *)
Theorem request_changes_only_mempool now n httpMethod req :
  let n' := (handleRPC now n httpMethod req).1 in
  blocks n' = blocks n /\ node_builder n' = node_builder n
  /\ node_cfg n' = node_cfg n
  /\ request_effect now (node_mempool n) (node_mempool n').
Proof.
  cbv zeta. destruct (handleRPC_cases now n httpMethod req) as [Hn He].
  cbv zeta in *. split; [by rewrite Hn|]. split; [by rewrite Hn|].
  split; [by rewrite Hn|exact He].
Qed.

(** X22. Every reply is one of two envelopes: status 200 with a top-level
    [result] that is not null and no top-level [error], or status 400 or
    405 with a non-empty top-level [error] and no [result]; and a request
    answered with an error leaves the node as it was. *)
Theorem reply_envelope now n httpMethod req :
  let out := handleRPC now n httpMethod req in
  (status out.2 = 200 /\ result_reply out.2)
  \/ ((status out.2 = 400 \/ status out.2 = 405)
      /\ error_reply out.2 /\ out.1 = n).
Proof. apply handleRPC_reply. Qed.

(** X23. [tx.add] with a sender and a recipient, at an instant for which
    the mempool holds no transaction of the derived id, is answered with
    status 200 and that id; the mempool then lists the new transaction,
    created and stamped at that instant, besides what it listed. *)
Theorem tx_add_accepted cfg evs now p :
  let n := ls_node (run_node cfg evs) in
  let t := NewUnsignedTx now (pSender p) (pRecipient p) (pPayload p)
             (pFee p) (pGas p) in
  let out := handleRPC now n "POST" (Some (CallTxAdd (Some p))) in
  pSender p <> EmptyString -> pRecipient p <> EmptyString ->
  (forall a, a ∈ List (node_mempool n) -> ID a <> ID t) ->
  out.2 = {| status := 200;
             body := JObj [("result", JObj [("txID", JStr (ID t))])] |}
  /\ List (node_mempool out.1) ≡ₚ t :: List (node_mempool n).
Proof.
  cbv zeta. intros Hs Hr Hfresh.
  destruct (node_ok_run cfg evs) as (_ & _ & Hm%reachable_ok & _).
  unfold handleRPC, rpcTxAdd. cbn [negb String.eqb Ascii.eqb Bool.eqb].
  destruct (String.eqb_spec (pSender p) EmptyString) as [|_]; [done|].
  destruct (String.eqb_spec (pRecipient p) EmptyString) as [|_]; [done|].
  cbn [orb].
  destruct (Add_List _ _ Hm Hfresh) as [Hn Hp].
  destruct (Add _ _) as [m' o]. cbn [fst snd] in *. subst o.
  split; [|exact Hp]. cbn [snd].
  by destruct (writeRPCResult_reply 200 (addTxResult
       (ID (NewUnsignedTx now (pSender p) (pRecipient p) (pPayload p)
              (pFee p) (pGas p))))) as [-> _].
Qed.

Lemma tx_add_accepted_witness :
  let p := mkAddTxParams "dave" "erin" "hi" 3 21 in
  let n := ls_node (run_node sampleConfig sampleEvents) in
  let out := handleRPC 5000 n "POST" (Some (CallTxAdd (Some p))) in
  status out.2 = 200
  /\ List (node_mempool out.1)
     ≡ₚ NewUnsignedTx 5000 "dave" "erin" "hi" 3 21 :: List (node_mempool n).
Proof.
  cbv zeta.
  destruct (tx_add_accepted sampleConfig sampleEvents 5000
              (mkAddTxParams "dave" "erin" "hi" 3 21)) as [H1 H2].
  - discriminate.
  - discriminate.
  - eassert (List (node_mempool (ls_node (run_node sampleConfig sampleEvents)))
             = _) as -> by (vm_compute; reflexivity).
    intros a Ha. apply elem_of_nil in Ha. destruct Ha.
  - split; [by rewrite H1|exact H2].
Defined.

(** X24. The id does not depend on the fee or the gas: once [tx.add] has
    been answered with status 200, a [tx.add] at the same instant with the
    same sender, recipient and payload is answered with status 400 and the
    error of an existing transaction, whatever its fee and gas, and changes
    nothing. *)
Theorem tx_add_same_instant_rejected now n p p' :
  let out := handleRPC now n "POST" (Some (CallTxAdd (Some p))) in
  status out.2 = 200 ->
  pSender p' = pSender p -> pRecipient p' = pRecipient p ->
  pPayload p' = pPayload p ->
  handleRPC now out.1 "POST" (Some (CallTxAdd (Some p')))
  = (out.1, {| status := 400;
               body := error_body "mempool: tx already exists" |}).
Proof.
  cbv zeta. intros Hst Hs Hr Hp.
  unfold handleRPC, rpcTxAdd in *.
  cbn [negb String.eqb Ascii.eqb Bool.eqb] in *.
  rewrite Hs, Hr, Hp.
  destruct (_ || _); [discriminate Hst|].
  pose proof (Add_ok_table (node_mempool n)
                (NewUnsignedTx now (pSender p) (pRecipient p) (pPayload p)
                   (pFee p) (pGas p))) as Ht.
  destruct (Add (node_mempool n) _) as [m' [e|]]; [discriminate Hst|].
  destruct (Ht eq_refl) as [q Hq].
  cbn [fst snd node_mempool with_mempool] in *.
  rewrite (Add_exists m' (NewUnsignedTx now (pSender p) (pRecipient p)
                            (pPayload p) (pFee p') (pGas p')) q Hq).
  cbn [with_mempool node_mempool node_builder blocks node_cfg].
  reflexivity.
Qed.

Lemma tx_add_same_instant_rejected_witness :
  let n := NewNode sampleConfig in
  let out := handleRPC 5000 n "POST"
               (Some (CallTxAdd (Some (mkAddTxParams "dave" "erin" "hi" 3 21)))) in
  status out.2 = 200
  /\ handleRPC 5000 out.1 "POST"
       (Some (CallTxAdd (Some (mkAddTxParams "dave" "erin" "hi" 99 1))))
     = (out.1, {| status := 400;
                  body := error_body "mempool: tx already exists" |}).
Proof.
  cbv zeta. split; [vm_compute; reflexivity|].
  apply (tx_add_same_instant_rejected 5000 (NewNode sampleConfig)
           (mkAddTxParams "dave" "erin" "hi" 3 21)
           (mkAddTxParams "dave" "erin" "hi" 99 1));
    [vm_compute; reflexivity|reflexivity..].
Defined.



(** X26. [tx.remove] naming the id of a listed transaction is answered
    with status 200 and [ok], and takes exactly that transaction out of the
    listing. *)
Theorem tx_remove_accepted cfg evs now old :
  let n := ls_node (run_node cfg evs) in
  let out := handleRPC now n "POST"
               (Some (CallTxRemove (Some (mkRemoveTxParams (ID old))))) in
  old ∈ List (node_mempool n) -> ID old <> EmptyString ->
  out.2 = {| status := 200; body := ok_body |}
  /\ List (node_mempool n) ≡ₚ old :: List (node_mempool out.1).
Proof.
  cbv zeta. intros Hold Hid.
  destruct (node_ok_run cfg evs) as (_ & _ & Hm%reachable_ok & _).
  unfold handleRPC, rpcTxRemove. cbn [negb String.eqb Ascii.eqb Bool.eqb rID].
  destruct (String.eqb_spec (ID old) EmptyString) as [|_]; [done|].
  destruct (Remove_List _ old Hm Hold) as [Hn Hp].
  destruct (Remove _ _) as [m' o]. cbn [fst snd] in *. subst o.
  split; [reflexivity|exact Hp].
Qed.

Lemma tx_remove_accepted_witness :
  let evs := [EvRequest 1000 "POST"
                (Some (CallTxAdd (Some (mkAddTxParams "a" "b" "p" 10 500))))] in
  let old := NewUnsignedTx 1000 "a" "b" "p" 10 500 in
  let n := ls_node (run_node sampleConfig evs) in
  let out := handleRPC 1500 n "POST"
               (Some (CallTxRemove (Some (mkRemoveTxParams (ID old))))) in
  status out.2 = 200
  /\ List (node_mempool n) ≡ₚ old :: List (node_mempool out.1).
Proof.
  cbv zeta.
  destruct (tx_remove_accepted sampleConfig
              [EvRequest 1000 "POST"
                 (Some (CallTxAdd (Some (mkAddTxParams "a" "b" "p" 10 500))))]
              1500 (NewUnsignedTx 1000 "a" "b" "p" 10 500)) as [H1 H2].
  - eassert (List _ = _) as -> by (vm_compute; reflexivity).
    eassert (NewUnsignedTx 1000 "a" "b" "p" 10 500 = _) as ->
      by (vm_compute; reflexivity).
    apply list_elem_of_here.
  - eassert (ID _ = _) as -> by (vm_compute; reflexivity). discriminate.
  - split; [by rewrite H1|exact H2].
Defined.

(** X27. [block.get] with the height [i] of a position of the chain (below
    2^64) is answered with status 200 and the block at that position: its
    height, hash and previous hash in hexadecimal, timestamp, count, gas
    used and transactions. *)
Theorem block_get_found cfg evs now i b :
  let n := ls_node (run_node cfg evs) in
  blocks n !! i = Some b -> Z.of_nat i < two64 ->
  handleRPC now n "POST"
    (Some (CallBlockGet (Some (mkBlockGetParams (Z.of_nat i)))))
  = (n, {| status := 200;
           body := JObj [("result",
                          JObj [("block",
                                 encode_blockDTO (makeBlockDTO b))])] |}).
Proof.
  cbv zeta. intros Hi Hlt.
  destruct (run_node_chain_inv cfg evs) as (_ & _ & Hl).
  unfold handleRPC, rpcBlockGet. cbn [negb String.eqb Ascii.eqb Bool.eqb gHeight].
  rewrite (find_first _ _ i b Hi).
  - reflexivity.
  - destruct (Hl i b Hi) as [-> _]. rewrite wrap64_small by lia.
    apply Z.eqb_refl.
  - intros k y Hk Hy. destruct (Hl k y Hy) as [-> _].
    rewrite wrap64_small by lia. apply Z.eqb_neq. lia.
Qed.

Lemma block_get_found_witness :
  exists b,
    blocks (ls_node (run_node sampleConfig sampleEvents)) !! 1%nat = Some b
    /\ (handleRPC 0 (ls_node (run_node sampleConfig sampleEvents)) "POST"
          (Some (CallBlockGet (Some (mkBlockGetParams 1))))).2
       = {| status := 200;
            body := JObj [("result",
                           JObj [("block",
                                  encode_blockDTO (makeBlockDTO b))])] |}.
Proof.
  eexists. split; [vm_compute; reflexivity|].
  change 1 with (Z.of_nat 1).
  erewrite (block_get_found sampleConfig sampleEvents 0 1);
    [reflexivity|vm_compute; reflexivity|reflexivity].
Defined.

(** X28. [block.list] is answered with status 200 and the chain in order.
    The entry at position [i] (below 2^64) shows height [i] and a count
    equal to the number of its transactions; the first entry shows a
    previous hash of 64 zeros, and every later entry shows as previous hash
    the hash the entry before it shows. *)
Theorem block_list_linked cfg evs now i d :
  let n := ls_node (run_node cfg evs) in
  let dtos := makeBlockDTO <$> blocks n in
  dtos !! i = Some d -> Z.of_nat i < two64 ->
  handleRPC now n "POST" (Some CallBlockList)
  = (n, {| status := 200;
           body := JObj [("result",
                          JObj [("blocks",
                                 JArr (encode_blockDTO <$> dtos))])] |})
  /\ dtoHeight d = Z.of_nat i
  /\ dtoTxCount d = Z.of_nat (length (dtoTxs d))
  /\ (i = O -> dtoPrevHash d = hex_EncodeToString zeroHash)
  /\ (forall j, i = S j ->
        exists d', dtos !! j = Some d' /\ dtoPrevHash d = dtoHash d').
Proof.
  cbv zeta. intros Hd Hlt. split; [reflexivity|].
  apply list_lookup_fmap_Some in Hd as (b & -> & Hi).
  destruct (run_node_chain_inv cfg evs) as (_ & _ & Hl).
  destruct (Hl i b Hi) as [Hh Hp].
  destruct (node_ok_run cfg evs) as (_ & _ & _ & _ & Hbl).
  rewrite Forall_forall in Hbl.
  destruct (Hbl b) as [(Hc & _) _]; [by eapply list_elem_of_lookup_2|].
  cbn [makeBlockDTO dtoHeight dtoTxCount dtoTxs dtoPrevHash dtoHash].
  split; [rewrite Hh; apply wrap64_small; lia|]. split; [exact Hc|].
  split.
  - intros ->. by rewrite Hp.
  - intros j ->. rewrite list_lookup_fmap.
    destruct (blocks (ls_node (run_node cfg evs)) !! j) as [p|] eqn:Hj.
    + exists (makeBlockDTO p). split; [reflexivity|]. by rewrite Hp.
    + apply lookup_ge_None in Hj. apply lookup_lt_Some in Hi. lia.
Qed.

Lemma block_list_linked_witness :
  exists d d',
    (makeBlockDTO <$> blocks (ls_node (run_node sampleConfig sampleEvents)))
      !! 1%nat = Some d
    /\ (makeBlockDTO <$> blocks (ls_node (run_node sampleConfig sampleEvents)))
         !! 0%nat = Some d'
    /\ dtoHeight d = 1 /\ dtoPrevHash d = dtoHash d'.
Proof.
  eexists. eexists.
  split; [vm_compute; reflexivity|]. split; [vm_compute; reflexivity|].
  lazymatch goal with
  | |- dtoHeight ?d = _ /\ _ =>
      destruct (block_list_linked sampleConfig sampleEvents 0 1%nat d)
        as (_ & H1 & _ & _ & H3); [vm_compute; reflexivity|reflexivity|]
  end.
  split; [exact H1|].
  destruct (H3 O eq_refl) as (d' & Hd' & Hprev).
  rewrite Hprev. vm_compute in Hd'. injection Hd' as <-. reflexivity.
Defined.

(** ** Further properties: the best transaction, and the listing shown *)

Lemma walk_acc_prefix (c : BlockConstraints) (L : list Tx) :
  forall acc gas, exists more,
    Transactions (walk c acc gas L).1 = acc ++ more.
Proof.
  induction L as [|t L IH]; intros acc gas; simpl.
  { exists []. by rewrite app_nil_r. }
  destruct (_ <? MaxTx c); [|exists []; by rewrite app_nil_r].
  destruct (_ <? MinFee c); [apply IH|].
  destruct (_ && _); [apply IH|].
  destruct (IH (acc ++ [t]) (wrap64 (gas + Gas t))) as [more ->].
  exists (t :: more). by rewrite <- (assoc_L (++)).
Qed.

Lemma sorted_head_best (L : list Tx) (t : Tx) :
  StronglySorted before L -> t ∈ L ->
  (forall a, a ∈ L -> a <> t -> before t a) ->
  exists L', L = t :: L'.
Proof.
  intros Hs Ht Hbest. destruct Hs as [|h L Hs Hh]; [by apply elem_of_nil in Ht|].
  apply elem_of_cons in Ht as [->|Ht]; [by exists L|].
  exfalso. rewrite Forall_forall in Hh. specialize (Hh t Ht).
  unfold before in *.
  assert (h <> t) as Hne.
  { intros ->. rewrite txLess_irrefl in Hh. discriminate. }
  specialize (Hbest h ltac:(left) Hne).
  pose proof (txLess_asym _ _ Hh). congruence.
Qed.

(** X29. The best transaction goes first: when a listed transaction is
    before every other listed one in the priority order, has a fee of at
    least [MinFee] and a gas within the limit (or the limit is 0), and
    [MaxTx] is positive, it is the first transaction the selection
    returns. *)
Theorem selection_takes_best_first (m : mempool) (c : BlockConstraints)
    (t : Tx) :
  reachable m -> t ∈ List m ->
  (forall a, a ∈ List m -> a <> t -> txLess t a = true) ->
  0 < MaxTx c -> MinFee c <= Fee t ->
  GasLimit c <= 0 \/ wrap64 (Gas t) <= GasLimit c ->
  head (Transactions (SelectTransactions m c).2) = Some t.
Proof.
  intros Hm%reachable_ok Ht Hbest Hmax Hfee Hgas.
  destruct (selection_walk_listing m c Hm) as [-> _].
  destruct (sorted_listing m Hm) as (Hs & Hp & _). cbv zeta in *.
  destruct (sorted_head_best _ t Hs) as [L' ->].
  { by rewrite Hp. }
  { intros a Ha Hne. apply Hbest; [by rewrite <- Hp|done]. }
  simpl. change (Z.of_nat 0) with 0.
  destruct (Z.ltb_spec 0 (MaxTx c)); [|lia].
  destruct (Z.ltb_spec (Fee t) (MinFee c)); [lia|].
  assert ((0 <? GasLimit c) && (GasLimit c <? wrap64 (0 + Gas t)) = false)
    as ->.
  { apply andb_false_iff. rewrite Z.ltb_ge, Z.ltb_ge. simpl. tauto. }
  match goal with
  | |- head (Transactions (walk c ?a ?g L').1) = _ =>
      destruct (walk_acc_prefix c L' a g) as [more ->]
  end.
  reflexivity.
Qed.

Lemma selection_takes_best_first_witness :
  head (Transactions
          (SelectTransactions (mpOf [s1A; s1B; s1C])
             {| GasLimit := 60; MaxTx := 1; MinFee := 5 |}).2)
  = Some s1C.
Proof.
  apply (selection_takes_best_first (mpOf [s1A; s1B; s1C])
           {| GasLimit := 60; MaxTx := 1; MinFee := 5 |} s1C).
  - by exists (OpAdd <$> [s1A; s1B; s1C]).
  - apply List_elem. exists "c3", 2%nat. split; reflexivity.
  - eassert (List (mpOf [s1A; s1B; s1C]) = _) as ->
      by (vm_compute; reflexivity).
    intros a Ha Hne.
    repeat (apply elem_of_cons in Ha as [->|Ha]; [first [done|reflexivity]|]).
    by apply elem_of_nil in Ha.
  - reflexivity.
  - cbn. lia.
  - right. vm_compute. discriminate.
Defined.

(** X30. [tx.list] is answered with status 200 and the transactions the
    mempool lists, each once, in strict priority order: the order in which
    a selection walks them. It is the only such arrangement, so it does not
    depend on how [sort.Slice] sorts. *)
Theorem tx_list_sorted cfg evs now :
  let n := ls_node (run_node cfg evs) in
  exists txs,
    handleRPC now n "POST" (Some CallTxList)
    = (n, {| status := 200;
             body := JObj [("result",
                            JObj [("transactions",
                                   JArr (encode_Tx <$> txs))])] |})
    /\ txs ≡ₚ List (node_mempool n)
    /\ StronglySorted before txs
    /\ (forall l, l ≡ₚ List (node_mempool n) -> StronglySorted before l ->
          l = txs).
Proof.
  cbv zeta.
  destruct (node_ok_run cfg evs) as (_ & _ & Hm%reachable_ok & _).
  destruct (sorted_listing _ Hm) as (Hs & Hp & _). cbv zeta in *.
  eexists. split; [reflexivity|]. split; [exact Hp|]. split; [exact Hs|].
  intros l Hl Hsl. apply sorted_unique; [done..|]. by rewrite Hl, Hp.
Qed.
